(** * BabelDoc-GUI: the translation job queue and its history store

    A shallow embedding of [electron/main/translation.ts] (the class
    [TranslationManager]) and of the history half of
    [electron/main/store.ts], together with the properties the
    specification states about them.

    Conventions of the embedding.
    - A JavaScript string is the list of its UTF-16 code units.
    - [job.progress] only ever receives integers, so it is a [Z]; the one
      place where a floating-point number appears ([parseFloat] followed by
      [Math.round]) is modelled with exact binary64 rounding.
    - A job object is shared between the queue array and the closures of
      [runJob]; the queue only grows, so a job reference is the index of the
      job in the queue, and [emitStatus], which looks the job up again by
      id, is modelled as that lookup.
    - [new Date().toISOString()] is an input of every handler.
    - A handler runs to completion, together with the microtasks it queues
      (the continuation of [processNext] after a settled [runJob]), before
      the next event is delivered; so the manager is a transition system
      over events, and an [await] of [runJob] is a stage in which the run
      waits for an event. *)

From Stdlib Require Import ZArith NArith Ascii String DecimalString.
From stdpp Require Import base decidable option numbers list.

Local Open Scope Z_scope.

(** ** Strings *)

Module JsString.

Definition jsstring := list N.

(** A literal made of ASCII characters. *)
Definition js (s : String.string) : jsstring :=
  N_of_ascii <$> list_ascii_of_string s.

(** [WhiteSpace] and [LineTerminator] code units: what [String.prototype.trim]
    strips and what the class [\s] accepts. *)
Definition is_space (c : N) : bool :=
  ((9 <=? c) && (c <=? 13) || (c =? 32) || (c =? 160) || (c =? 5760)
   || (8192 <=? c) && (c <=? 8202) || (c =? 8232) || (c =? 8233)
   || (c =? 8239) || (c =? 8287) || (c =? 12288) || (c =? 65279))%N.

(** The class [\d]. *)
Definition is_digit (c : N) : bool := ((48 <=? c) && (c <=? 57))%N.

(** The class [[\d.]]. *)
Definition is_digit_or_dot (c : N) : bool := (is_digit c || (c =? 46))%N.

Fixpoint trimStart (s : jsstring) : jsstring :=
  match s with
  | c :: r => if is_space c then trimStart r else s
  | [] => []
  end.

Definition trimEnd (s : jsstring) : jsstring := reverse (trimStart (reverse s)).

Definition trim (s : jsstring) : jsstring := trimEnd (trimStart s).

(** The longest prefix of [s] inside a character class. *)
Fixpoint span (p : N -> bool) (s : jsstring) : jsstring :=
  match s with
  | c :: r => if p c then c :: span p r else []
  | [] => []
  end.

(** [Canonicalize] of a case-insensitive, non-unicode regular expression.
    Upper-casing never takes a code unit above 127 to one below 128 (the
    standard forbids it), and every pattern of this program is ASCII, so
    only the ASCII letters need folding. *)
Definition canonicalize (c : N) : N :=
  if ((97 <=? c) && (c <=? 122))%N then (c - 32)%N else c.

Fixpoint prefix_with (eqc : N -> N -> bool) (p s : jsstring) : option jsstring :=
  match p, s with
  | [], _ => Some s
  | _ :: _, [] => None
  | a :: p', b :: s' => if eqc a b then prefix_with eqc p' s' else None
  end.

Definition same_unit (a b : N) : bool := (a =? b)%N.
Definition same_letter (a b : N) : bool := (canonicalize a =? canonicalize b)%N.

(** [/literal/i.test(s)]: the literal occurs somewhere in [s], letter case
    ignored. *)
Fixpoint test_ci (p s : jsstring) : bool :=
  match prefix_with same_letter p s with
  | Some _ => true
  | None => match s with
            | [] => false
            | _ :: r => test_ci p r
            end
  end.

(** [`${n}`] for an integer-valued number. *)
Definition of_Z (z : Z) : jsstring := js (NilZero.string_of_int (Z.to_int z)).

End JsString.
Import JsString.

(** ** Numbers: [parseFloat] and [Math.round] *)

Module JsNumber.

(** The non-negative values of the Number type that [parseFloat] can return
    on digits and dots: [Finite m e] is the double [m * 2^e]. *)
Inductive number :=
| NaN
| Infinity
| Finite (m e : Z).

Fixpoint digits_value (acc : Z) (s : jsstring) : Z :=
  match s with
  | c :: r => digits_value (10 * acc + (Z.of_N c - 48)) r
  | [] => acc
  end.

(** Round the fraction [num / den] to the nearest integer, ties to even. *)
Definition round_half_even (num den : Z) : Z :=
  let d := num / den in
  let r := num mod den in
  match 2 * r ?= den with
  | Lt => d
  | Gt => d + 1
  | Eq => if Z.even d then d else d + 1
  end.

(** The double nearest to the rational [p / q] (for [0 <= p], [0 < q]);
    binary64 has 53 bits of precision, least exponent -1074 and overflows
    at [2^1024]. *)
Definition binary64 (p q : Z) : number :=
  if p =? 0 then Finite 0 0 else
  let e0 := Z.log2 p - Z.log2 q in
  let below := if 0 <=? e0 then p <? q * 2 ^ e0 else p * 2 ^ (- e0) <? q in
  let e := if below then e0 - 1 else e0 in
  let ex := Z.max (e - 52) (-1074) in
  let m := round_half_even (p * 2 ^ Z.max 0 (- ex)) (q * 2 ^ Z.max 0 ex) in
  if (0 <=? ex) && (2 ^ 1024 <=? m * 2 ^ ex) then Infinity else Finite m ex.

(** [parseFloat] on a string of digits and dots: the longest prefix that is
    a [StrDecimalLiteral] ([d+], [d+.], [d+.d+] or [.d+]) gives the value;
    without such a prefix the result is [NaN]. *)
Definition parseFloat (s : jsstring) : number :=
  let ip := span is_digit s in
  let rest := drop (length ip) s in
  let fp := match rest with
            | c :: r => if (c =? 46)%N then span is_digit r else []
            | [] => []
            end in
  match ip, fp with
  | [], [] => NaN
  | _, _ => binary64 (digits_value 0 (ip ++ fp)) (10 ^ Z.of_nat (length fp))
  end.

(** [Math.round]: the nearest integer, the larger one on a tie. *)
Definition Math_round (x : number) : number :=
  match x with
  | NaN => NaN
  | Infinity => Infinity
  | Finite m e =>
      if 0 <=? e then Finite (m * 2 ^ e) 0
      else Finite ((2 * m + 2 ^ (- e)) / 2 ^ (1 - e)) 0
  end.

(** [x > n] and [x <= n] for an integer [n]; every comparison with [NaN] is
    false. *)
Definition gt (x : number) (n : Z) : bool :=
  match x with
  | NaN => false
  | Infinity => true
  | Finite m e => if 0 <=? e then n <? m * 2 ^ e else n * 2 ^ (- e) <? m
  end.

Definition le (x : number) (n : Z) : bool :=
  match x with
  | NaN => false
  | Infinity => false
  | Finite m e => if 0 <=? e then m * 2 ^ e <=? n else m <=? n * 2 ^ (- e)
  end.

(** The integer a rounded number denotes, where it denotes one. *)
Definition to_Z (x : number) : option Z :=
  match x with
  | Finite m 0 => Some m
  | _ => None
  end.

End JsNumber.
Import JsNumber.

(** ** The data model ([types.ts]) *)

Inductive TranslationJobStatus :=
| queued
| running
| llm_path
| awaiting_user
| success
| failed.

Inductive SourceType := local | download.

Global Instance TranslationJobStatus_eq_dec : EqDecision TranslationJobStatus.
Proof. solve_decision. Defined.

Record TranslationJobInput := {
  in_filePath : jsstring;
  in_originalName : jsstring;
  in_sourceType : SourceType;
  in_downloadId : option jsstring
}.

(** An optional property ([error?: string]) is an [option]; [delete job.error]
    sets it to [None]. The field [spawnedProcess] is never written by the
    manager and is left out. *)
Record TranslationQueueItem := {
  id : jsstring;
  filePath : jsstring;
  originalName : jsstring;
  sourceType : SourceType;
  status : TranslationJobStatus;
  progress : Z;
  logs : list jsstring;
  outputDir : option jsstring;
  savePath : option jsstring;
  error : option jsstring;
  downloadId : option jsstring;
  createdAt : jsstring;
  updatedAt : jsstring
}.

Record TranslationRecord := {
  r_id : jsstring;
  r_title : jsstring;
  r_authors : option jsstring;
  r_abstractSnippet : option jsstring;
  r_sourcePath : jsstring;
  r_translatedPath : option jsstring;
  r_savePath : option jsstring;
  r_status : TranslationJobStatus;
  r_errorMessage : option jsstring;
  r_progress : option Z;
  r_createdAt : jsstring;
  r_updatedAt : jsstring;
  r_logs : list jsstring
}.

(** The [Partial<TranslationRecord>] objects the program passes to
    [updateHistoryRecord]: a field is [Some] when the object literal has the
    key. *)
Record Patch := {
  p_status : option TranslationJobStatus;
  p_progress : option Z;
  p_logs : option (list jsstring);
  p_translatedPath : option jsstring;
  p_errorMessage : option jsstring;
  p_savePath : option jsstring
}.

Definition no_patch : Patch :=
  {| p_status := None; p_progress := None; p_logs := None;
     p_translatedPath := None; p_errorMessage := None; p_savePath := None |}.

Record DocumentInsight := {
  i_title : jsstring;
  i_authors : option jsstring;
  i_abstractSnippet : jsstring
}.

Record BabeldocOptions := {
  bilingual : bool;
  debug : bool;
  extraFlags : jsstring
}.

Record AppSettings := {
  openaiBaseUrl : jsstring;
  openaiApiKey : jsstring;
  openaiModel : jsstring;
  babeldoc : BabeldocOptions
}.

(** The payloads of the three channels of the [EventEmitter]. *)
Inductive Emitted :=
| StatusPayload (jid : jsstring) (st : TranslationJobStatus) (pr : option Z)
| ProgressPayload (jid : jsstring) (message : jsstring)
| CompletedPayload (jid : jsstring) (ok : bool) (dir : option jsstring)
                   (err : option jsstring).

(** Functional updates of a job object. *)
Definition set_status (s : TranslationJobStatus) (j : TranslationQueueItem) :=
  {| id := id j; filePath := filePath j; originalName := originalName j;
     sourceType := sourceType j; status := s; progress := progress j;
     logs := logs j; outputDir := outputDir j; savePath := savePath j;
     error := error j; downloadId := downloadId j; createdAt := createdAt j;
     updatedAt := updatedAt j |}.

Definition set_progress (p : Z) (j : TranslationQueueItem) :=
  {| id := id j; filePath := filePath j; originalName := originalName j;
     sourceType := sourceType j; status := status j; progress := p;
     logs := logs j; outputDir := outputDir j; savePath := savePath j;
     error := error j; downloadId := downloadId j; createdAt := createdAt j;
     updatedAt := updatedAt j |}.

Definition set_logs (l : list jsstring) (j : TranslationQueueItem) :=
  {| id := id j; filePath := filePath j; originalName := originalName j;
     sourceType := sourceType j; status := status j; progress := progress j;
     logs := l; outputDir := outputDir j; savePath := savePath j;
     error := error j; downloadId := downloadId j; createdAt := createdAt j;
     updatedAt := updatedAt j |}.

Definition set_outputDir (d : option jsstring) (j : TranslationQueueItem) :=
  {| id := id j; filePath := filePath j; originalName := originalName j;
     sourceType := sourceType j; status := status j; progress := progress j;
     logs := logs j; outputDir := d; savePath := savePath j;
     error := error j; downloadId := downloadId j; createdAt := createdAt j;
     updatedAt := updatedAt j |}.

Definition set_savePath (d : option jsstring) (j : TranslationQueueItem) :=
  {| id := id j; filePath := filePath j; originalName := originalName j;
     sourceType := sourceType j; status := status j; progress := progress j;
     logs := logs j; outputDir := outputDir j; savePath := d;
     error := error j; downloadId := downloadId j; createdAt := createdAt j;
     updatedAt := updatedAt j |}.

Definition set_error (e : option jsstring) (j : TranslationQueueItem) :=
  {| id := id j; filePath := filePath j; originalName := originalName j;
     sourceType := sourceType j; status := status j; progress := progress j;
     logs := logs j; outputDir := outputDir j; savePath := savePath j;
     error := e; downloadId := downloadId j; createdAt := createdAt j;
     updatedAt := updatedAt j |}.

Definition set_updatedAt (t : jsstring) (j : TranslationQueueItem) :=
  {| id := id j; filePath := filePath j; originalName := originalName j;
     sourceType := sourceType j; status := status j; progress := progress j;
     logs := logs j; outputDir := outputDir j; savePath := savePath j;
     error := error j; downloadId := downloadId j; createdAt := createdAt j;
     updatedAt := t |}.

(** ** The history store ([store.ts]) *)

Module Store.

(** [{ ...record, ...data, updatedAt: now }] *)
Definition merge (record : TranslationRecord) (data : Patch) (now : jsstring)
  : TranslationRecord :=
  {| r_id := r_id record;
     r_title := r_title record;
     r_authors := r_authors record;
     r_abstractSnippet := r_abstractSnippet record;
     r_sourcePath := r_sourcePath record;
     r_translatedPath :=
       match p_translatedPath data with
       | Some d => Some d
       | None => r_translatedPath record
       end;
     r_savePath :=
       match p_savePath data with
       | Some d => Some d
       | None => r_savePath record
       end;
     r_status := default (r_status record) (p_status data);
     r_errorMessage :=
       match p_errorMessage data with
       | Some e => Some e
       | None => r_errorMessage record
       end;
     r_progress :=
       match p_progress data with
       | Some p => Some p
       | None => r_progress record
       end;
     r_createdAt := r_createdAt record;
     r_updatedAt := now;
     r_logs := default (r_logs record) (p_logs data) |}.

Definition appendHistory (record : TranslationRecord)
    (history : list TranslationRecord) : list TranslationRecord :=
  take 500 (record :: history).

(** Returns the new content of the store and the function's result
    ([next.find(...) ?? null]). *)
Definition updateHistoryRecord (jid : jsstring) (data : Patch) (now : jsstring)
    (history : list TranslationRecord)
  : list TranslationRecord * option TranslationRecord :=
  let next :=
    (fun record =>
       if bool_decide (r_id record = jid) then merge record data now
       else record) <$> history in
  (next, snd <$> list_find (fun record => r_id record = jid) next).

Definition removeHistoryRecord (jid : jsstring)
    (history : list TranslationRecord) : list TranslationRecord :=
  filter (fun record => r_id record <> jid) history.

(** The operations of the store on the history, and a run of them. *)
Inductive Op :=
| Append (record : TranslationRecord)
| Update (jid : jsstring) (data : Patch) (now : jsstring)
| Remove (jid : jsstring).

Definition apply (history : list TranslationRecord) (op : Op)
  : list TranslationRecord :=
  match op with
  | Append record => appendHistory record history
  | Update jid data now => fst (updateHistoryRecord jid data now history)
  | Remove jid => removeHistoryRecord jid history
  end.

End Store.
Import Store.

(** ** The manager ([translation.ts]) *)

(** Where the pending [runJob] call is suspended: at
    [await createHistorySkeleton(...)], at [await ensureEnvironment(...)]
    (the settings were read just before), or at the promise that the
    handlers of the child process settle. *)
Inductive Stage :=
| AwaitInsight
| AwaitEnvironment (read : AppSettings)
| ChildAlive.

(** The fields of the manager ([queue], [processing]); the content of the
    store ([history], which the manager writes, and [settings], which it
    reads); what the manager has emitted so far, oldest first; and the one
    [runJob] call that [processNext] is awaiting, if any. [userData] is
    [app.getPath("userData")]. *)
Record State := {
  queue : list TranslationQueueItem;
  processing : bool;
  history : list TranslationRecord;
  settings : AppSettings;
  userData : jsstring;
  sink : list Emitted;
  flight : option (nat * Stage)
}.

Definition with_queue (q : list TranslationQueueItem) (s : State) : State :=
  {| queue := q; processing := processing s; history := history s;
     settings := settings s; userData := userData s; sink := sink s;
     flight := flight s |}.

Definition with_processing (b : bool) (s : State) : State :=
  {| queue := queue s; processing := b; history := history s;
     settings := settings s; userData := userData s; sink := sink s;
     flight := flight s |}.

Definition with_history (h : list TranslationRecord) (s : State) : State :=
  {| queue := queue s; processing := processing s; history := h;
     settings := settings s; userData := userData s; sink := sink s;
     flight := flight s |}.

Definition with_flight (f : option (nat * Stage)) (s : State) : State :=
  {| queue := queue s; processing := processing s; history := history s;
     settings := settings s; userData := userData s; sink := sink s;
     flight := f |}.

(** [this.emit(channel, payload)] *)
Definition emit (e : Emitted) (s : State) : State :=
  {| queue := queue s; processing := processing s; history := history s;
     settings := settings s; userData := userData s; sink := sink s ++ [e];
     flight := flight s |}.

(** A write through a job reference. *)
Definition mutate (j : nat) (f : TranslationQueueItem -> TranslationQueueItem)
    (s : State) : State :=
  with_queue (alter f j (queue s)) s.

(** A call of [updateHistoryRecord] whose result is not used. *)
Definition persist (jid : jsstring) (data : Patch) (now : jsstring) (s : State)
  : State :=
  with_history (fst (updateHistoryRecord jid data now (history s))) s.

(** [this.queue.find((item) => item.id === jid)], as a reference. *)
Definition find_job (jid : jsstring) (s : State) : option nat :=
  fst <$> list_find (fun item => id item = jid) (queue s).

Definition emitStatus (jid : jsstring) (st : TranslationJobStatus)
    (pr : option Z) (now : jsstring) (s : State) : State :=
  let s := emit (StatusPayload jid st pr) s in
  let s :=
    match find_job jid s with
    | Some i =>
        mutate i (fun job =>
          let job := set_status st job in
          let job := match pr with
                     | Some p => set_progress p job
                     | None => job
                     end in
          set_updatedAt now job) s
    | None => s
    end in
  persist jid {| p_status := Some st; p_progress := pr; p_logs := None;
                 p_translatedPath := None; p_errorMessage := None;
                 p_savePath := None |} now s.

Definition emitProgress (jid message : jsstring) (s : State) : State :=
  emit (ProgressPayload jid message) s.

Definition emitCompleted (jid : jsstring) (ok : bool) (dir err : option jsstring)
    (s : State) : State :=
  emit (CompletedPayload jid ok dir err) s.

(** *** The progress interpreter *)

(** The literal at the head of [/'overall_progress':\s*([\d.]+)/]. *)
Definition overall_progress_key : jsstring := js "'overall_progress':".

(** A match of that expression at the start of [s]: the literal must be
    followed by white space (all of it is skipped: no digit or dot is white
    space, so giving some back never helps) and then by at least one digit or
    dot; the group takes the longest run of them. *)
Definition overall_progress_at (s : jsstring) : option jsstring :=
  match prefix_with same_unit overall_progress_key s with
  | Some rest =>
      match span is_digit_or_dot (trimStart rest) with
      | [] => None
      | group => Some group
      end
  | None => None
  end.

(** [logLine.match(/'overall_progress':\s*([\d.]+)/)]: the first capture
    group of the leftmost match, [None] for [null]. *)
Fixpoint match_overall_progress (s : jsstring) : option jsstring :=
  match overall_progress_at s with
  | Some group => Some group
  | None => match s with
            | [] => None
            | _ :: r => match_overall_progress r
            end
  end.

Definition tryParseDebugProgress (j : nat) (logLine now : jsstring) (s : State)
  : State :=
  match match_overall_progress logLine with
  | None => s
  | Some group =>
      let overallProgress := Math_round (parseFloat group) in
      match queue s !! j with
      | Some job =>
          if gt overallProgress (progress job) && le overallProgress 100 then
            match to_Z overallProgress with
            | Some p =>
                let s := mutate j (set_progress p) s in
                emitStatus (id job) (status job) (Some p) now s
            | None => s
            end
          else s
      | None => s
      end
  end.

(** The table [progressStages]; every pattern is a literal with the flag
    [i]. *)
Definition progressStages : list (jsstring * Z) :=
  [ (js "start to translate", 5);
    (js "Loading ONNX model", 8);
    (js "Parse PDF and Create Intermediate", 15);
    (js "Parse Page Layout", 25);
    (js "Automatic Term Extraction", 35);
    (js "Starting term extraction", 40);
    (js "Found title paragraph", 50);
    (js "Translate Paragraphs", 60);
    (js "Translation completed. Total:", 85);
    (js "Typesetting", 90);
    (js "Save PDF", 95);
    (js "finish translate:", 98) ].

(** The stage at which the [for] loop reaches its [break]. *)
Definition matching_stage (logLine : jsstring) : option (jsstring * Z) :=
  List.find (fun stage => test_ci (fst stage) logLine) progressStages.

Definition tryUpdateProgressFromLog (j : nat) (logLine now : jsstring)
    (s : State) : State :=
  match matching_stage logLine with
  | Some stage =>
      match queue s !! j with
      | Some job =>
          if progress job <? snd stage then
            let s := mutate j (set_progress (snd stage)) s in
            emitStatus (id job) (status job) (Some (snd stage)) now s
          else s
      | None => s
      end
  | None => s
  end.

(** [job.logs.push(trimmed)] and the [splice] that follows it. *)
Definition push_log (trimmed : jsstring) (l : list jsstring) : list jsstring :=
  let l := l ++ [trimmed] in
  if (500 <? length l)%nat then drop (length l - 500) l else l.

Definition appendLog (j : nat) (message now : jsstring) (s : State) : State :=
  let trimmed := trim message in
  match trimmed with
  | [] => s
  | _ :: _ =>
      match queue s !! j with
      | Some job =>
          let s := mutate j (fun job => set_logs (push_log trimmed (logs job)) job) s in
          let s := mutate j (set_updatedAt now) s in
          let s := emitProgress (id job) trimmed s in
          let s :=
            match queue s !! j with
            | Some job =>
                persist (id job)
                  {| p_status := None; p_progress := None;
                     p_logs := Some (logs job); p_translatedPath := None;
                     p_errorMessage := None; p_savePath := None |} now s
            | None => s
            end in
          let s := tryParseDebugProgress j trimmed now s in
          tryUpdateProgressFromLog j trimmed now s
      | None => s
      end
  end.

(** *** Running a job *)

(** [flags.split(/\s+/)]: [cur] is the piece being read, in reverse;
    [in_sep] says that the previous code unit was white space. *)
Fixpoint split_spaces (in_sep : bool) (cur s : jsstring) : list jsstring :=
  match s with
  | [] => [reverse cur]
  | c :: r =>
      if is_space c then
        if in_sep then split_spaces true cur r
        else reverse cur :: split_spaces true [] r
      else split_spaces false (c :: cur) r
  end.

Definition parseExtraFlags (flags : jsstring) : list jsstring :=
  List.filter (fun flag => negb (bool_decide (flag = [])))
    (trim <$> split_spaces false [] flags).

(** [parts.join(" ")] *)
Fixpoint join_space (parts : list jsstring) : jsstring :=
  match parts with
  | [] => []
  | [p] => p
  | p :: rest => p ++ js " " ++ join_space rest
  end.

(** [join(app.getPath("userData"), "translations", job.id)], with the POSIX
    separator and on segments that need no normalisation. *)
Definition translationsDir (s : State) (job : TranslationQueueItem) : jsstring :=
  userData s ++ js "/translations/" ++ id job.

Definition babeldocArgs (read : AppSettings) (job : TranslationQueueItem)
    (dir : jsstring) : list jsstring :=
  [ js "--openai"; js "--openai-model"; openaiModel read;
    js "--openai-base-url"; openaiBaseUrl read;
    js "--openai-api-key"; openaiApiKey read;
    js "--files"; filePath job; js "--output"; dir;
    js "--watermark-output-mode"; js "no_watermark" ]
  ++ (if debug (babeldoc read) then [js "--debug"] else [])
  ++ (if bilingual (babeldoc read) then [js "--bilingual"] else [])
  ++ (match extraFlags (babeldoc read) with
      | [] => []
      | flags => parseExtraFlags flags
      end).

(** The log line written before the spawn: the four characters U+6267 U+884C
    U+547D U+4EE4, a colon and the command line. *)
Definition commandBanner (command : jsstring) (args : list jsstring) : jsstring :=
  [25191; 34892; 21629; 20196]%N ++ js ": " ++ command ++ js " "
  ++ join_space args.

(** [createHistorySkeleton(job, "running")] once the document insight has
    arrived. *)
Definition createHistorySkeleton (job : TranslationQueueItem)
    (st : TranslationJobStatus) (translatedDir : option jsstring)
    (insight : DocumentInsight) (now : jsstring) : TranslationRecord :=
  {| r_id := id job;
     r_title := i_title insight;
     r_authors := i_authors insight;
     r_abstractSnippet := Some (i_abstractSnippet insight);
     r_sourcePath := filePath job;
     r_translatedPath := translatedDir;
     r_savePath := None;
     r_status := st;
     r_errorMessage := None;
     r_progress := Some (progress job);
     r_createdAt := createdAt job;
     r_updatedAt := now;
     r_logs := logs job |}.

(** [runJob] from its entry to its first [await]. *)
Definition runJob_begin (j : nat) (now : jsstring) (s : State) : State :=
  match queue s !! j with
  | Some job =>
      let s := mutate j (fun job =>
                 set_updatedAt now (set_logs [] (set_status running job))) s in
      let s := emitStatus (id job) running (Some 0) now s in
      let '(next, existingRecord) :=
        updateHistoryRecord (id job)
          {| p_status := Some running; p_progress := Some 0;
             p_logs := Some []; p_translatedPath := None;
             p_errorMessage := None; p_savePath := None |} now (history s) in
      let s := with_history next s in
      match existingRecord with
      | None => with_flight (Some (j, AwaitInsight)) s
      | Some _ => with_flight (Some (j, AwaitEnvironment (settings s))) s
      end
  | None => s
  end.

(** [runJob] resumed with the insight: the skeleton is built and appended,
    the settings are read, and the call suspends on the environment. *)
Definition runJob_insight (insight : DocumentInsight) (now : jsstring)
    (s : State) : State :=
  match flight s with
  | Some (j, AwaitInsight) =>
      match queue s !! j with
      | Some job =>
          let historyRecord := createHistorySkeleton job running None insight now in
          let s := with_history (appendHistory historyRecord (history s)) s in
          with_flight (Some (j, AwaitEnvironment (settings s))) s
      | None => s
      end
  | _ => s
  end.

(** [runJob] resumed with the environment, up to the promise that the child's
    handlers settle. [babeldocPath] is [environment?.babeldocPath]. *)
Definition runJob_spawn (babeldocPath : option jsstring) (now : jsstring)
    (s : State) : State :=
  match flight s with
  | Some (j, AwaitEnvironment read) =>
      match queue s !! j with
      | Some job =>
          let dir := translationsDir s job in
          let args := babeldocArgs read job dir in
          let command := default (js "babeldoc") babeldocPath in
          let s := appendLog j (commandBanner command args) now s in
          with_flight (Some (j, ChildAlive)) s
      | None => s
      end
  | _ => s
  end.

Definition processNext (now : jsstring) (s : State) : State :=
  if processing s then s else
  match list_find (fun job => status job = queued) (queue s) with
  | None => with_processing false s
  | Some (i, _) => runJob_begin i now (with_processing true s)
  end.

(** What follows [await this.runJob(nextItem).catch(...)] once the promise of
    [runJob] is settled, either way. *)
Definition runJob_settled (now : jsstring) (s : State) : State :=
  processNext now (with_processing false (with_flight None s)).

(** [runJob] rejects at one of its awaits before the child exists (the
    environment cannot be resolved, say): nothing of [runJob] runs any more,
    the [catch] in [processNext] logs the error. *)
Definition runJob_rejected (now : jsstring) (s : State) : State :=
  match flight s with
  | Some (_, AwaitInsight) | Some (_, AwaitEnvironment _) => runJob_settled now s
  | _ => s
  end.

(** [resolve()] or [reject(...)] called in a handler of the child of job [j]:
    a promise is settled once, later calls do nothing. (A job is dispatched
    once, as long as ids are unique, so the awaited promise is the one of
    this child exactly when the awaited run is the run of [j] and its child
    is alive.) *)
Definition settle (j : nat) (now : jsstring) (s : State) : State :=
  match flight s with
  | Some (k, ChildAlive) => if bool_decide (k = j) then runJob_settled now s else s
  | _ => s
  end.

(** The [data] handlers of [child.stdout] and [child.stderr]. *)
Definition onData (j : nat) (chunk now : jsstring) (s : State) : State :=
  appendLog j (trim chunk) now s.

(** The text of [`BabelDOC 退出码 ${code}`]. *)
Definition exitMessage (code : option Z) : jsstring :=
  js "BabelDOC " ++ [36864; 20986; 30721]%N ++ js " "
  ++ match code with
     | Some c => of_Z c
     | None => js "null"
     end.

Definition fail_job (j : nat) (errorMessage now : jsstring) (s : State) : State :=
  match queue s !! j with
  | Some job =>
      let s := mutate j (fun job =>
                 set_updatedAt now
                   (set_error (Some errorMessage)
                      (set_progress 100 (set_status failed job)))) s in
      let s := emitStatus (id job) failed (Some 100) now s in
      let s := appendLog j errorMessage now s in
      let s :=
        match queue s !! j with
        | Some job =>
            persist (id job)
              {| p_status := Some failed; p_progress := Some 100;
                 p_logs := Some (logs job); p_translatedPath := None;
                 p_errorMessage := Some errorMessage; p_savePath := None |}
              now s
        | None => s
        end in
      emitCompleted (id job) false None (Some errorMessage) s
  | None => s
  end.

(** The branch [code === 0] of the [close] handler, up to [resolve()]. *)
Definition complete_job (j : nat) (now : jsstring) (s : State) : State :=
  match queue s !! j with
  | Some job =>
      let dir := translationsDir s job in
      let s := mutate j (fun job =>
                 set_updatedAt now
                   (set_error None
                      (set_outputDir (Some dir)
                         (set_progress 100 (set_status awaiting_user job))))) s in
      let s := emitStatus (id job) awaiting_user (Some 100) now s in
      let s :=
        match queue s !! j with
        | Some job =>
            persist (id job)
              {| p_status := Some awaiting_user; p_progress := Some 100;
                 p_logs := Some (logs job); p_translatedPath := Some dir;
                 p_errorMessage := None; p_savePath := None |} now s
        | None => s
        end in
      emitCompleted (id job) true (Some dir) None s
  | None => s
  end.

(** The [close] handler of the child of job [j]. (Only a job has a child: on
    an index that holds no job the handlers are the identity.) *)
Definition onClose (j : nat) (code : option Z) (now : jsstring) (s : State)
  : State :=
  match queue s !! j with
  | Some _ =>
      if bool_decide (code = Some 0) then settle j now (complete_job j now s)
      else settle j now (fail_job j (exitMessage code) now s)
  | None => s
  end.

(** The [error] handler of the child of job [j]. *)
Definition onError (j : nat) (message now : jsstring) (s : State) : State :=
  match queue s !! j with
  | Some _ => settle j now (fail_job j message now s)
  | None => s
  end.

(** *** The public methods *)

(** [enqueue]: the new state and the reference it returns; [uuid] is the
    result of [randomUUID()]. *)
Definition enqueue (jobInput : TranslationJobInput) (uuid now : jsstring)
    (s : State) : State * nat :=
  let item :=
    {| id := uuid;
       filePath := in_filePath jobInput;
       originalName := in_originalName jobInput;
       sourceType := in_sourceType jobInput;
       status := queued;
       progress := 0;
       logs := [];
       outputDir := None;
       savePath := None;
       error := None;
       downloadId := in_downloadId jobInput;
       createdAt := now;
       updatedAt := now |} in
  let ref := length (queue s) in
  let s := with_queue (queue s ++ [item]) s in
  let s := emitStatus uuid queued (Some 0) now s in
  (processNext now s, ref).

Definition getQueue (s : State) : list TranslationQueueItem := queue s.

(** [markJobSaved]: the new state and the reference it returns, [None] for
    [null]. *)
Definition markJobSaved (jobId savePath_ now : jsstring) (s : State)
  : State * option nat :=
  match find_job jobId s with
  | None => (s, None)
  | Some i =>
      let s := mutate i (fun job =>
                 set_updatedAt now
                   (set_error None
                      (set_savePath (Some savePath_)
                         (set_progress 100 (set_status success job))))) s in
      (emitStatus jobId success (Some 100) now s, Some i)
  end.

(** *** The manager as a transition system *)

(** What can happen to the manager, each with the time at which it happens:
    a call of a public method, the completion of one of the awaits of
    [runJob], or an event of the child process spawned for the job at queue
    index [j]. The events of a child are not restricted to the run being
    awaited: Node emits [close] after an [error] of the same child, and the
    handlers then run a second time. *)
Inductive Event :=
| Enqueue (jobInput : TranslationJobInput) (uuid : jsstring)
| MarkSaved (jobId savePath_ : jsstring)
| InsightReady (insight : DocumentInsight)
| EnvironmentReady (babeldocPath : option jsstring)
| SetupRejected
| Stdout (j : nat) (chunk : jsstring)
| Stderr (j : nat) (chunk : jsstring)
| Close (j : nat) (code : option Z)
| Error (j : nat) (message : jsstring).

Definition step (s : State) (te : jsstring * Event) : State :=
  let now := fst te in
  match snd te with
  | Enqueue jobInput uuid => fst (enqueue jobInput uuid now s)
  | MarkSaved jobId savePath_ => fst (markJobSaved jobId savePath_ now s)
  | InsightReady insight => runJob_insight insight now s
  | EnvironmentReady babeldocPath => runJob_spawn babeldocPath now s
  | SetupRejected => runJob_rejected now s
  | Stdout j chunk => onData j chunk now s
  | Stderr j chunk => onData j chunk now s
  | Close j code => onClose j code now s
  | Error j message => onError j message now s
  end.

Definition run (s : State) (trace : list (jsstring * Event)) : State :=
  foldl step s trace.

(** A manager just constructed, over a store that holds [h]. *)
Definition fresh (cfg : AppSettings) (dir : jsstring)
    (h : list TranslationRecord) : State :=
  {| queue := []; processing := false; history := h; settings := cfg;
     userData := dir; sink := []; flight := None |}.

(** The statuses of the queue, in queue order, and the number of jobs that are
    [running]. *)
Definition statuses (s : State) : list TranslationJobStatus :=
  status <$> queue s.

Definition running_jobs (s : State) : nat :=
  length (filter (fun job => status job = running) (queue s)).

(** Sample data for the worked examples. *)
Module Sample.

Definition cfg : AppSettings :=
  {| openaiBaseUrl := js "https://api.openai.com/v1";
     openaiApiKey := js "sk";
     openaiModel := js "gpt-4o-mini";
     babeldoc := {| bilingual := false; debug := true; extraFlags := js " --a  -b " |} |}.

Definition input (name : String.string) : TranslationJobInput :=
  {| in_filePath := js "/docs/" ++ js name;
     in_originalName := js name;
     in_sourceType := local;
     in_downloadId := None |}.

Definition insight : DocumentInsight :=
  {| i_title := js "A paper"; i_authors := None; i_abstractSnippet := js "Abstract" |}.

Definition t (n : Z) : jsstring := js "T" ++ of_Z n.

(** A manager just constructed over an empty history. *)
Abbreviation start := (fresh cfg (js "/data") []).

(** Job A is enqueued, then job B; the setup of A's run completes. *)
Definition trace : list (jsstring * Event) :=
  [ (t 1, Enqueue (input "a.pdf") (js "A"));
    (t 2, Enqueue (input "b.pdf") (js "B"));
    (t 3, InsightReady insight);
    (t 4, EnvironmentReady None) ].

(** Job A was enqueued and its child process is alive; job B is queued
    behind it. *)
Abbreviation two_jobs := (run start trace).

End Sample.

(** * Notions used in the statements *)

(** ** Numbers and lists *)

(** [p] is an integer nearest to the double [x], the larger one on a tie. *)
Definition nearest_integer (x : number) (p : Z) : Prop :=
  match x with
  | Finite m e =>
      if 0 <=? e then p = m * 2 ^ e
      else (2 * p - 1) * 2 ^ (- e) <= 2 * m < (2 * p + 1) * 2 ^ (- e)
  | _ => False
  end.

(** The last [n] elements of a list. *)
Definition lastn {A} (n : nat) (l : list A) : list A := drop (length l - n) l.

(** ** One job among the others *)

(** The ids of the jobs, in queue order. *)
Definition ids (s : State) : list jsstring := id <$> queue s.

(** The update [emitStatus] makes to the job it finds. *)
Definition status_update (st : TranslationJobStatus) (pr : option Z)
    (now : jsstring) (job : TranslationQueueItem) : TranslationQueueItem :=
  let job := set_status st job in
  let job := match pr with
             | Some p => set_progress p job
             | None => job
             end in
  set_updatedAt now job.

(** ** The interpreter and the buffer as functions *)

(** What the structured rule makes of the current progress and a line. *)
Definition structured_progress (cur : Z) (logLine : jsstring) : Z :=
  match match_overall_progress logLine with
  | Some group =>
      let overallProgress := Math_round (parseFloat group) in
      if gt overallProgress cur && le overallProgress 100
      then default cur (to_Z overallProgress) else cur
  | None => cur
  end.

(** What the stage table makes of the current progress and a line. *)
Definition heuristic_progress (cur : Z) (logLine : jsstring) : Z :=
  match matching_stage logLine with
  | Some stage => if cur <? snd stage then snd stage else cur
  | None => cur
  end.

(** A job without the fields that logging and the interpreter write. *)
Definition core (job : TranslationQueueItem) : TranslationQueueItem :=
  set_updatedAt [] (set_progress 0 (set_logs [] job)).

(** The buffer after one call of [appendLog]. *)
Definition logged (message : jsstring) (l : list jsstring) : list jsstring :=
  match trim message with
  | [] => l
  | trimmed => push_log trimmed l
  end.

(** The chunks of output of the child of job [j], each with the time of its
    [data] event, handled in order. *)
Definition feed (j : nat) (chunks : list (jsstring * jsstring)) (s : State)
  : State :=
  foldl (fun s c => onData j (fst c) (snd c) s) s chunks.

(** Messages passed to [appendLog] for job [j], each with its time, in
    order. *)
Definition append_all (j : nat) (messages : list (jsstring * jsstring))
    (s : State) : State :=
  foldl (fun s m => appendLog j (fst m) (snd m) s) s messages.

(** The messages that [appendLog] does not skip, as it stores them. *)
Definition kept (messages : list (jsstring * jsstring)) : list jsstring :=
  filter (fun t => t <> []) (trim <$> (fst <$> messages)).

(** ** The claims that fail, and their inputs *)

(** A line with a structured field worth 50 that also names the stage
    [Typesetting], on a job at progress 0. *)
Definition typesetting_at_50 : jsstring :=
  js "{'stage': 'Typesetting', 'overall_progress': 50.0}".

(** The claim that the interpreter stops at the first rule that applies:
    whenever the structured rule changes the progress, the progress after the
    line is the structured value. *)
Definition stops_at_first_applicable_rule : Prop :=
  forall (s : State) (j : nat) (job : TranslationQueueItem) (message now : jsstring),
    queue s !! j = Some job ->
    structured_progress (progress job) (trim message) <> progress job ->
    exists job', queue (appendLog j message now s) !! j = Some job'
                 /\ progress job' = structured_progress (progress job) (trim message).

(** A line whose structured field is worth 100.4, which is not in [0,100]. *)
Definition overall_100_4 : jsstring := js "'overall_progress': 100.4".

(** The claim that a structured value is applied only if the number parsed
    is in [0,100] (no parsed number is negative): a value above 100 leaves
    the progress as it was. *)
Definition applies_only_values_in_range : Prop :=
  forall (s : State) (j : nat) (job : TranslationQueueItem)
         (logLine now group : jsstring),
    queue s !! j = Some job ->
    match_overall_progress logLine = Some group ->
    le (parseFloat group) 100 = false ->
    exists job', queue (tryParseDebugProgress j logLine now s) !! j = Some job'
                 /\ progress job' = progress job.

(** The lines of a stream as the specification has them: a line is text
    ended by a newline, and text left at the end of the stream is a last
    line. [cur] is the line being read, in reverse. *)
Fixpoint spec_lines_from (cur s : jsstring) : list jsstring :=
  match s with
  | [] => match cur with
          | [] => []
          | _ => [reverse cur]
          end
  | c :: r =>
      if (c =? 10)%N then reverse cur :: spec_lines_from [] r
      else spec_lines_from (c :: cur) r
  end.

Definition spec_lines (stream : jsstring) : list jsstring :=
  spec_lines_from [] stream.

(** The claim that the output is logged line by line: after the chunks of a
    stream the buffer holds the lines of the stream. *)
Definition consumed_line_by_line : Prop :=
  forall (s : State) (j : nat) (job : TranslationQueueItem)
         (chunks : list (jsstring * jsstring)),
    queue s !! j = Some job ->
    exists job',
      queue (feed j chunks s) !! j = Some job'
      /\ logs job' = lastn 500 (logs job ++ spec_lines (concat (fst <$> chunks))).

(** One chunk that holds two lines. *)
Definition two_lines : jsstring := [102; 105; 114; 115; 116; 10;
                                    115; 101; 99; 111; 110; 100; 10]%N.

(** ** Frames *)

(** [s'] differs from [s] only in jobs' fields other than [id], in the
    history, and by events added to the sink. *)
Record quiet (s s' : State) : Prop := {
  q_processing : processing s' = processing s;
  q_flight : flight s' = flight s;
  q_settings : settings s' = settings s;
  q_userData : userData s' = userData s;
  q_ids : ids s' = ids s;
  q_sink : sink s `prefix_of` sink s'
}.

(** The state in which [appendLog] hands a line to the interpreter: the line
    is in the buffer, announced and persisted. *)
Definition log_stored (j : nat) (job : TranslationQueueItem)
    (trimmed now : jsstring) (s : State) : State :=
  let stored := push_log trimmed (logs job) in
  persist (id job)
    {| p_status := None; p_progress := None; p_logs := Some stored;
       p_translatedPath := None; p_errorMessage := None; p_savePath := None |}
    now
    (emitProgress (id job) trimmed
       (mutate j (fun job => set_updatedAt now (set_logs stored job)) s)).

(** Every record of the history with id [jid] carries the logs [l]. *)
Definition persisted (jid : jsstring) (l : list jsstring)
    (h : list TranslationRecord) : Prop :=
  Forall (fun record => r_id record = jid -> r_logs record = l) h.

(** No job other than the one behind [j] differs between [s] and [s']. *)
Definition others_kept (j : nat) (s s' : State) : Prop :=
  forall k, k <> j -> queue s' !! k = queue s !! k.

(** No job holds more than 500 log entries. *)
Definition logs_bounded (s : State) : Prop :=
  forall k job, queue s !! k = Some job -> (length (logs job) <= 500)%nat.

(** ** Failures and the dispatch invariant *)





(** The claim that the buffer holds the 500 most recent messages as soon as
    more than 500 messages have been appended (stored trimmed, as
    [appendLog] stores them). *)
Definition holds_500_after_more_than_500_messages : Prop :=
  forall (s : State) (j : nat) (job : TranslationQueueItem)
         (messages : list (jsstring * jsstring)),
    queue s !! j = Some job -> (length (logs job) <= 500)%nat ->
    (500 < length messages)%nat ->
    exists job',
      queue (append_all j messages s) !! j = Some job'
      /\ length (logs job') = 500%nat
      /\ logs job' = lastn 500 (trim <$> (fst <$> messages)).

(** 501 messages as the [data] handlers pass them on: 499 of them are empty,
    which is what [chunk.trim()] makes of a chunk of blank lines, and two
    hold text. *)
Definition mostly_blank : list (jsstring * jsstring) :=
  replicate 499 ([], js "T5") ++ [(js "one", js "T6"); (js "two", js "T7")].

(** The invariant behind the flag: ids are unique, an idle manager awaits no
    run, and a job that is [running] is the job of the run being awaited. *)
Record single_flight (s : State) : Prop := {
  sf_ids : NoDup (ids s);
  sf_idle : processing s = false -> flight s = None;
  sf_running :
    forall k job, queue s !! k = Some job -> status job = running ->
                  exists stage, flight s = Some (k, stage)
}.

(** An event the invariant is stated for: the id of a new job is fresh, and
    no awaited setup step of [runJob] is rejected. *)
Definition admissible (s : State) (e : Event) : Prop :=
  match e with
  | Enqueue _ uuid => uuid ∉ ids s
  | SetupRejected => False
  | _ => True
  end.

(** The states a manager reaches from [s0] through admissible events. *)
Inductive reachable (s0 : State) : State -> Prop :=
| reachable_start : reachable s0 s0
| reachable_step (s : State) (te : jsstring * Event) :
    reachable s0 s -> admissible s (snd te) -> reachable s0 (step s te).

(** Two jobs are enqueued one after the other; while the first is being set
    up, the environment cannot be resolved. *)
Definition rejected_setup : list (jsstring * Event) :=
  [ (Sample.t 1, Enqueue (Sample.input "a.pdf") (js "A"));
    (Sample.t 2, Enqueue (Sample.input "b.pdf") (js "B"));
    (Sample.t 3, InsightReady Sample.insight);
    (Sample.t 4, SetupRejected) ].

(** * The code around the manager

    The rest of the program that the manager works with: the settings half
    of [store.ts]; the end of the handler of [translation:save-output] in
    [index.ts], which marks a job as saved; the name helpers of
    [downloader.ts] and [llm.ts]; and the queue that the renderer keeps
    ([src/stores/app-store.ts]) with the listeners that feed it from the
    events of the manager ([useAppBootstrap]). The conventions are those of
    the manager: a handler runs to completion, and the time it reads is one
    of its inputs. *)

(** ** The settings half of the store ([store.ts]) *)

Module Settings.

Inductive ThemePreference := light | dark | system.

(** [AppSettings] of [types.ts] with all its fields (the manager reads four
    of them). *)
Record AppSettings := {
  openaiBaseUrl : jsstring;
  openaiApiKey : jsstring;
  openaiModel : jsstring;
  documentRoot : jsstring;
  theme : ThemePreference;
  babeldoc : BabeldocOptions;
  uvBinDir : jsstring
}.

(** A [Partial<AppSettings>]: a field is [Some] when the object has the
    key. *)
Record Partial := {
  p_openaiBaseUrl : option jsstring;
  p_openaiApiKey : option jsstring;
  p_openaiModel : option jsstring;
  p_documentRoot : option jsstring;
  p_theme : option ThemePreference;
  p_babeldoc : option BabeldocOptions;
  p_uvBinDir : option jsstring
}.

Definition empty : Partial :=
  {| p_openaiBaseUrl := None; p_openaiApiKey := None; p_openaiModel := None;
     p_documentRoot := None; p_theme := None; p_babeldoc := None;
     p_uvBinDir := None |}.

(** [defaultSettings]; [root] is [join(app.getPath("documents"), "BabelDOC")]. *)
Definition defaultSettings (root : jsstring) : AppSettings :=
  {| openaiBaseUrl := js "https://api.openai.com/v1";
     openaiApiKey := [];
     openaiModel := js "gpt-4o-mini";
     documentRoot := root;
     theme := system;
     babeldoc := {| bilingual := false; debug := false; extraFlags := [] |};
     uvBinDir := [] |}.

(** [getSettings] on the stored object: an empty [documentRoot] is replaced
    by the default one in the object returned. *)
Definition getSettings (root : jsstring) (stored : AppSettings) : AppSettings :=
  match documentRoot stored with
  | [] =>
      {| openaiBaseUrl := openaiBaseUrl stored;
         openaiApiKey := openaiApiKey stored;
         openaiModel := openaiModel stored;
         documentRoot := documentRoot (defaultSettings root);
         theme := theme stored;
         babeldoc := babeldoc stored;
         uvBinDir := uvBinDir stored |}
  | _ :: _ => stored
  end.

(** [{ ...settings, ...partial }] *)
Definition spread (settings : AppSettings) (partial : Partial) : AppSettings :=
  {| openaiBaseUrl := default (openaiBaseUrl settings) (p_openaiBaseUrl partial);
     openaiApiKey := default (openaiApiKey settings) (p_openaiApiKey partial);
     openaiModel := default (openaiModel settings) (p_openaiModel partial);
     documentRoot := default (documentRoot settings) (p_documentRoot partial);
     theme := default (theme settings) (p_theme partial);
     babeldoc := default (babeldoc settings) (p_babeldoc partial);
     uvBinDir := default (uvBinDir settings) (p_uvBinDir partial) |}.

(** [updateSettings]: the object that is stored, which is also the one
    returned. (The directory it creates is outside the model.) *)
Definition updateSettings (root : jsstring) (partial : Partial)
    (stored : AppSettings) : AppSettings :=
  spread (getSettings root stored) partial.

Definition updateTheme (root : jsstring) (t : ThemePreference)
    (stored : AppSettings) : AppSettings :=
  updateSettings root
    {| p_openaiBaseUrl := None; p_openaiApiKey := None; p_openaiModel := None;
       p_documentRoot := None; p_theme := Some t; p_babeldoc := None;
       p_uvBinDir := None |} stored.

Definition setUvBinDir (root : jsstring) (dir : jsstring)
    (stored : AppSettings) : AppSettings :=
  updateSettings root
    {| p_openaiBaseUrl := None; p_openaiApiKey := None; p_openaiModel := None;
       p_documentRoot := None; p_theme := None; p_babeldoc := None;
       p_uvBinDir := Some dir |} stored.

(** [{ ...first, ...second }] on two partial objects. *)
Definition overlay (first second : Partial) : Partial :=
  {| p_openaiBaseUrl :=
       match p_openaiBaseUrl second with Some v => Some v | None => p_openaiBaseUrl first end;
     p_openaiApiKey :=
       match p_openaiApiKey second with Some v => Some v | None => p_openaiApiKey first end;
     p_openaiModel :=
       match p_openaiModel second with Some v => Some v | None => p_openaiModel first end;
     p_documentRoot :=
       match p_documentRoot second with Some v => Some v | None => p_documentRoot first end;
     p_theme :=
       match p_theme second with Some v => Some v | None => p_theme first end;
     p_babeldoc :=
       match p_babeldoc second with Some v => Some v | None => p_babeldoc first end;
     p_uvBinDir :=
       match p_uvBinDir second with Some v => Some v | None => p_uvBinDir first end |}.

End Settings.

(** ** Saving a translation ([index.ts], handler of [translation:save-output]) *)

(** The code units that the handler removes from a title: the code units
    U+0000 to U+001F (the C0 control characters; U+007F and the C1 control
    characters U+0080 to U+009F are not in the class) and the nine characters
    that a file name on Windows may not hold (less-than, greater-than, colon,
    double quote, slash, backslash, bar, question mark, star). *)
Definition is_reserved (c : N) : bool :=
  ((c <=? 31) || (c =? 60) || (c =? 62) || (c =? 58) || (c =? 34) || (c =? 47)
   || (c =? 92) || (c =? 124) || (c =? 63) || (c =? 42))%N.

(** [s.replace(/\s+/g, r)]: every maximal run of white space becomes [r];
    [in_run] says that the previous code unit was white space. *)
Fixpoint replace_spaces (r : jsstring) (in_run : bool) (s : jsstring) : jsstring :=
  match s with
  | [] => []
  | c :: rest =>
      if is_space c then
        if in_run then replace_spaces r true rest
        else r ++ replace_spaces r true rest
      else c :: replace_spaces r false rest
  end.

(** The title with those code units removed, every run of white space that
    is left replaced by an underscore, cut to 200 code units
    ([.replace(...).replace(...).slice(0, 200)]). *)
Definition sanitizedTitle (title : jsstring) : jsstring :=
  take 200
    (replace_spaces (js "_") false
       (List.filter (fun c => negb (is_reserved c)) title)).

(** The end of the handler, once the files are copied: the history record is
    marked, then the job. The result is [updated]. *)
Definition save_output_commit (jobId pathToSave now : jsstring) (s : State)
  : State * option TranslationRecord :=
  let '(next, updated) :=
    updateHistoryRecord jobId
      {| p_status := Some success; p_progress := Some 100; p_logs := None;
         p_translatedPath := None; p_errorMessage := None;
         p_savePath := Some pathToSave |} now (history s) in
  let s := with_history next s in
  (fst (markJobSaved jobId pathToSave now s), updated).

(** ** Notions used in the statements about this code *)

(** A command-line flag: not empty, and without white space. *)
Definition is_flag (flag : jsstring) : Prop :=
  flag <> [] /\ Forall (fun c => is_space c = false) flag.

(** A code unit that the handler leaves in a title: not in U+0000 to U+001F,
    not one of the nine reserved characters, and not white space. *)
Definition filename_unit (c : N) : Prop :=
  is_reserved c = false /\ is_space c = false.

(** The fields of a job that the manager writes once, when it builds the
    job. *)
Definition identity (job : TranslationQueueItem)
  : jsstring * jsstring * jsstring * SourceType * option jsstring * jsstring :=
  (id job, filePath job, originalName job, sourceType job, downloadId job,
   createdAt job).

(** The object that [enqueue] builds. *)
Definition new_item (jobInput : TranslationJobInput) (uuid now : jsstring)
  : TranslationQueueItem :=
  {| id := uuid;
     filePath := in_filePath jobInput;
     originalName := in_originalName jobInput;
     sourceType := in_sourceType jobInput;
     status := queued;
     progress := 0;
     logs := [];
     outputDir := None;
     savePath := None;
     error := None;
     downloadId := in_downloadId jobInput;
     createdAt := now;
     updatedAt := now |}.

(** The jobs that the calls of [enqueue] in a trace build, in the order of
    the calls. *)
Definition enqueued (trace : list (jsstring * Event))
  : list TranslationQueueItem :=
  omap (fun te => match snd te with
                  | Enqueue jobInput uuid => Some (new_item jobInput uuid (fst te))
                  | _ => None
                  end) trace.

(** ** The life of a job *)

(** What one event may do to a job. [core] leaves out the log buffer, the
    progress and the time stamp, so an equation between cores says that every
    other field is as given.
    - [logs_on]: only the log buffer, the progress and the time stamp change,
      and the progress does not go down, nor above 100 if it was not there;
    - [starts]: a queued job becomes the running one, at progress 0 and with
      an empty log buffer;
    - [fails], [completes], [is_saved]: the job gets the status [failed] with
      an error message, [awaiting-user] with an output directory and no
      error, or [success] with a saved path and no error, at progress 100. *)
Inductive job_move (a b : TranslationQueueItem) : Prop :=
| logs_on :
    core b = core a ->
    progress a <= progress b <= Z.max (progress a) 100 ->
    job_move a b
| starts :
    status a = queued ->
    core b = core (set_status running a) ->
    progress b = 0 -> logs b = [] ->
    job_move a b
| fails (message : jsstring) :
    core b = core (set_error (Some message) (set_status failed a)) ->
    progress b = 100 ->
    job_move a b
| completes (dir : jsstring) :
    core b = core (set_error None (set_outputDir (Some dir)
                                     (set_status awaiting_user a))) ->
    progress b = 100 ->
    job_move a b
| is_saved (path : jsstring) :
    core b = core (set_error None (set_savePath (Some path)
                                     (set_status success a))) ->
    progress b = 100 ->
    job_move a b.

(** Every job of [s] is in [s'], at the same index, after one move. *)
Definition moves (s s' : State) : Prop :=
  forall k job, queue s !! k = Some job ->
    exists job', queue s' !! k = Some job' /\ job_move job job'.

(** Every job of [s] is in [s'], at the same index, as it was or started. *)
Definition dispatches (s s' : State) : Prop :=
  forall k job, queue s !! k = Some job ->
    exists job', queue s' !! k = Some job'
      /\ (job' = job
          \/ (status job = queued /\ core job' = core (set_status running job)
              /\ progress job' = 0 /\ logs job' = [])).

(** Every job of [s] is in [s'], at the same index, as it was or after a move
    that leaves it in a status other than [queued]. *)
Definition ends (s s' : State) : Prop :=
  forall k job, queue s !! k = Some job ->
    exists job', queue s' !! k = Some job'
      /\ (job' = job \/ (job_move job job' /\ status job' <> queued)).

(** The id that an event brings is new. *)
Definition fresh_uuid (s : State) (e : Event) : Prop :=
  match e with
  | Enqueue _ uuid => uuid ∉ ids s
  | _ => True
  end.

(** Every call of [enqueue] in the trace gets an id that no job has at the
    time of the call (as [randomUUID] provides). *)
Fixpoint fresh_uuids (s : State) (trace : list (jsstring * Event)) : Prop :=
  match trace with
  | [] => True
  | te :: rest => fresh_uuid s (snd te) /\ fresh_uuids (step s te) rest
  end.

(** The fields of a job fit its status. *)
Record job_sound (job : TranslationQueueItem) : Prop := {
  sound_progress : 0 <= progress job <= 100;
  sound_error : status job = failed <-> error job <> None;
  sound_outputDir : status job = awaiting_user -> outputDir job <> None;
  sound_savePath : status job = success -> savePath job <> None;
  sound_status : status job <> llm_path
}.

(** The job has been dispatched and its run is over. *)
Definition over (job : TranslationQueueItem) : Prop :=
  status job <> queued /\ status job <> running.

(** The manager is not idle while a job waits. *)
Definition never_idle (s : State) : Prop :=
  processing s = false -> forall job, job ∈ queue s -> status job <> queued.

(** A day of the sample manager: job A fails, job B completes and is
    saved. *)
Definition full_day : list (jsstring * Event) :=
  Sample.trace
  ++ [ (Sample.t 5, Stdout 0 (js "Parse Page Layout"));
       (Sample.t 6, Close 0 (Some 1));
       (Sample.t 7, InsightReady Sample.insight);
       (Sample.t 8, EnvironmentReady None);
       (Sample.t 9, Close 1 (Some 0));
       (Sample.t 10, MarkSaved (js "B") (js "/dest")) ].

(** The sample manager between two runs: the run of job A has just settled,
    and the continuation of [processNext] has cleared the flag. *)
Definition between_runs : State :=
  with_processing false (with_flight None Sample.two_jobs).

(** ** The history that the manager writes *)

(** The ids of the history records, in store order. *)
Definition recorded (s : State) : list jsstring := r_id <$> history s.

(** The history holds at most one record per id; the run that the manager
    awaits is the run of a job of the queue; and while that run waits for the
    insight of which it builds the record of its job, the history holds no
    record of the job. *)
Record one_record_per_job (s : State) : Prop := {
  orj_unique : NoDup (recorded s);
  orj_flight : forall j stage, flight s = Some (j, stage) -> is_Some (queue s !! j);
  orj_pending :
    forall j job, flight s = Some (j, AwaitInsight) -> queue s !! j = Some job ->
                  id job ∉ recorded s
}.

(** ** Lines of the debug output *)

(** A percentage with one decimal, as text: [percent_text 748] is the text
    of 74.8. *)
Definition percent_text (k : Z) : jsstring :=
  of_Z (k / 10) ++ js "." ++ of_Z (k mod 10).

(** A line of the debug output of BabelDOC that carries the overall
    progress [text]. *)
Definition progress_line (text : jsstring) : jsstring :=
  js "{'stage': 'Translate', 'overall_progress': " ++ text ++ js ", 'part': 1}".

(** ** The name of a downloaded file ([downloader.ts]) *)

(** [String.prototype.toLowerCase] on one code unit, for the ASCII range. The
    only use is the test for the suffix [.pdf] below; no code unit outside
    the ASCII range has a lower case that ends in one of the four characters
    of that suffix, so leaving those code units as they are does not change
    the result of the test. *)
Definition lower (c : N) : N :=
  if ((65 <=? c) && (c <=? 90))%N then (c + 32)%N else c.

(** [s.toLowerCase().endsWith(suffix)], for an ASCII [suffix] in lower
    case. *)
Definition endsWith_lower (suffix s : jsstring) : bool :=
  bool_decide (lastn (length suffix) (lower <$> s) = suffix).

Definition ensurePdfExtension (urlPath : jsstring) : jsstring :=
  if endsWith_lower (js ".pdf") urlPath then urlPath else urlPath ++ js ".pdf".

(** ** The text of a document insight ([llm.ts]) *)

(** [s.replace(/[\u0000-\u001F]+/g, r)]: every maximal run of code units
    from U+0000 to U+001F becomes [r]. *)
Fixpoint replace_controls (r : jsstring) (in_run : bool) (s : jsstring) : jsstring :=
  match s with
  | [] => []
  | c :: rest =>
      if (c <=? 31)%N then
        if in_run then replace_controls r true rest
        else r ++ replace_controls r true rest
      else c :: replace_controls r false rest
  end.

(** [text.replace(/\s+/g, " ").replace(/[\u0000-\u001F]+/g, " ").trim()] *)
Definition sanitizeText (text : jsstring) : jsstring :=
  trim (replace_controls (js " ") false (replace_spaces (js " ") false text)).

(** A code unit of a sanitized text: not below U+0020, and no white space
    other than the space. (U+007F and the C1 control characters U+0080 to
    U+009F satisfy this: the code does not touch them.) *)
Definition plain_unit (c : N) : Prop :=
  (32 <= c)%N /\ (is_space c = true -> c = 32%N).

(** ** The queue of the renderer ([src/stores/app-store.ts]) *)

Module AppStore.

(** [updateQueueStatus]; [now] is the time at which the action runs. *)
Definition updateQueueStatus (jid : jsstring) (st : TranslationJobStatus)
    (pr : option Z) (now : jsstring) (q : list TranslationQueueItem)
  : list TranslationQueueItem :=
  (fun item =>
     if bool_decide (id item = jid) then
       set_updatedAt now
         (set_progress (default (progress item) pr) (set_status st item))
     else item) <$> q.

(** [appendQueueLog]: [[...item.logs, message].slice(-500)] keeps the last
    500 entries. *)
Definition appendQueueLog (jid message now : jsstring)
    (q : list TranslationQueueItem) : list TranslationQueueItem :=
  (fun item =>
     if bool_decide (id item = jid) then
       set_updatedAt now (set_logs (lastn 500 (logs item ++ [message])) item)
     else item) <$> q.

(** The [Partial<TranslationQueueItem>] objects that are passed to
    [patchQueueItem]: a field is [Some] when the object has the key, and the
    value of an optional property may be [undefined]. *)
Record QueuePatch := {
  qp_status : option TranslationJobStatus;
  qp_progress : option Z;
  qp_outputDir : option (option jsstring);
  qp_error : option (option jsstring);
  qp_logs : option (list jsstring);
  qp_updatedAt : option jsstring
}.

(** [patchQueueItem]: the patch is laid over the item, except that the logs
    and the time stamp of the item are replaced only by ones that the patch
    defines. *)
Definition patchQueueItem (jid : jsstring) (patch : QueuePatch) (now : jsstring)
    (q : list TranslationQueueItem) : list TranslationQueueItem :=
  (fun item =>
     if bool_decide (id item = jid) then
       set_updatedAt (default now (qp_updatedAt patch))
         (set_logs (default (logs item) (qp_logs patch))
            (set_error (default (error item) (qp_error patch))
               (set_outputDir (default (outputDir item) (qp_outputDir patch))
                  (set_progress (default (progress item) (qp_progress patch))
                     (set_status (default (status item) (qp_status patch))
                        item)))))
     else item) <$> q.

(** The three listeners that the renderer registers on the channels of the
    manager ([useAppBootstrap]). *)
Definition receive (now : jsstring) (payload : Emitted)
    (q : list TranslationQueueItem) : list TranslationQueueItem :=
  match payload with
  | StatusPayload jid st pr => updateQueueStatus jid st pr now q
  | ProgressPayload jid message => appendQueueLog jid message now q
  | CompletedPayload jid ok dir err =>
      patchQueueItem jid
        {| qp_status := Some (if ok then awaiting_user else failed);
           qp_progress := Some 100;
           qp_outputDir := Some dir;
           qp_error := Some err;
           qp_logs := None;
           qp_updatedAt := None |} now q
  end.

(** The renderer receives events, each at its time, in order. *)
Definition replay (events : list (jsstring * Emitted))
    (q : list TranslationQueueItem) : list TranslationQueueItem :=
  foldl (fun q te => receive (fst te) (snd te) q) q events.

End AppStore.

(** The item that the renderer shows for a job is up to date: it has the
    status, the progress, the log entries and the error of the job. *)
Record shows (item job : TranslationQueueItem) : Prop := {
  shows_id : id item = id job;
  shows_status : status item = status job;
  shows_progress : progress item = progress job;
  shows_logs : logs item = logs job;
  shows_error : error item = error job
}.

(** The status event that goes with a change of the progress of a job. *)
Definition announced (job : TranslationQueueItem) (before after : Z)
  : list Emitted :=
  if bool_decide (after = before) then []
  else [StatusPayload (id job) (status job) (Some after)].

(** The events of one call of [appendLog] for a job: the message, then the
    progress that the structured rule sets, then the progress that the stage
    table sets. *)
Definition log_events (job : TranslationQueueItem) (message : jsstring)
  : list Emitted :=
  match trim message with
  | [] => []
  | trimmed =>
      let p1 := structured_progress (progress job) trimmed in
      let p2 := heuristic_progress p1 trimmed in
      ProgressPayload (id job) trimmed
      :: announced job (progress job) p1 ++ announced job p1 p2
  end.

(** The events of a run that ends well, and of a run that fails with the
    message [errorMessage] (which is logged, unless it is blank). *)
Definition completion_events (job : TranslationQueueItem) (dir : jsstring)
  : list Emitted :=
  [ StatusPayload (id job) awaiting_user (Some 100);
    CompletedPayload (id job) true (Some dir) None ].

Definition failure_events (job : TranslationQueueItem) (errorMessage : jsstring)
  : list Emitted :=
  StatusPayload (id job) failed (Some 100)
  :: match trim errorMessage with
     | [] => []
     | trimmed => [ProgressPayload (id job) trimmed]
     end
  ++ [CompletedPayload (id job) false None (Some errorMessage)].

(** The guard at the head of the handler of [translation:save-output]: the
    first history record of the job must exist and have a [translatedPath]
    that is not empty; the result is that directory, or [None] when the
    handler throws. *)
Definition save_output_source (jobId : jsstring) (s : State) : option jsstring :=
  match snd <$> list_find (fun item => r_id item = jobId) (history s) with
  | Some record =>
      match r_translatedPath record with
      | Some (c :: dir) => Some (c :: dir)
      | _ => None
      end
  | None => None
  end.

(** An id as [randomUUID] makes it: hexadecimal digits and hyphens. Such an
    id is a path segment that [join] leaves as it is. *)
Definition uuid_like (jid : jsstring) : Prop :=
  Forall (fun c => is_digit c = true \/ (97 <= c <= 102)%N \/ (65 <= c <= 70)%N
                   \/ c = 45%N) jid.

(** ** The order of the runs *)

(** The run that the manager awaits is the run of a job of the queue, and
    that job has been started: its status is not [queued]. *)
Definition awaited_is_started (s : State) : Prop :=
  forall j stage, flight s = Some (j, stage) ->
    exists job, queue s !! j = Some job /\ status job <> queued.

(** Job [k] waits in [s] and runs in [s']. *)
Definition started_between (s s' : State) (k : nat) : Prop :=
  exists job job', queue s !! k = Some job /\ status job = queued
                   /\ queue s' !! k = Some job' /\ status job' = running.

(** No job before job [k] waits. *)
Definition first_in_line (s : State) (k : nat) : Prop :=
  forall i job, (i < k)%nat -> queue s !! i = Some job -> status job <> queued.

(** Every job of [s] is in [s'], at the same index, in the status it had or
    in a status that ends it. *)
Definition stops (s s' : State) : Prop :=
  forall k job, queue s !! k = Some job ->
    exists job', queue s' !! k = Some job'
      /\ (status job' = status job
          \/ (status job' <> queued /\ status job' <> running)).

(** The morning of [full_day]: job A runs and has printed a line, job B
    waits. *)
Definition morning : list (jsstring * Event) :=
  Sample.trace ++ [ (Sample.t 5, Stdout 0 (js "Parse Page Layout")) ].

(** * Properties *)

(** A closed statement, or a conjunction of closed statements, that holds by
    evaluation. The conjunction is split with [conj] and not with [split],
    which would try to close an equation by unfolding both sides. *)
Ltac by_computation := repeat apply conj; vm_compute; reflexivity.

(** ** Strings and numbers *)

Lemma trimStart_idempotent (s : jsstring) : trimStart (trimStart s) = trimStart s.
Proof.
  induction s as [|c r IH]; [reflexivity|].
  simpl. destruct (is_space c) eqn:Hc; [exact IH|].
  simpl. rewrite Hc. reflexivity.
Qed.

Lemma trimStart_snoc (l : jsstring) (c : N) :
  is_space c = false -> exists l', trimStart (l ++ [c]) = l' ++ [c].
Proof.
  intros Hc. induction l as [|d l IH]; simpl.
  - rewrite Hc. exists []. reflexivity.
  - destruct (is_space d); [exact IH|]. exists (d :: l). reflexivity.
Qed.

Lemma trimEnd_keeps_head (c : N) (r : jsstring) :
  is_space c = false -> exists r', trimEnd (c :: r) = c :: r'.
Proof.
  intros Hc. unfold trimEnd. rewrite reverse_cons.
  destruct (trimStart_snoc (reverse r) c Hc) as [l' ->].
  rewrite reverse_snoc. eauto.
Qed.

Lemma trimEnd_nil : trimEnd [] = [].
Proof. reflexivity. Qed.

Lemma trimEnd_idempotent (s : jsstring) : trimEnd (trimEnd s) = trimEnd s.
Proof.
  unfold trimEnd. rewrite reverse_involutive, trimStart_idempotent. reflexivity.
Qed.

(** A trimmed string is empty or starts with a code unit that is not white
    space. *)
Lemma trim_head (s : jsstring) :
  trim s = [] \/ exists c r, trim s = c :: r /\ is_space c = false.
Proof.
  unfold trim.
  assert (trimStart s = [] \/ exists c r, trimStart s = c :: r /\ is_space c = false)
    as [->|(c & r & -> & Hc)].
  { induction s as [|c r IH]; [by left|]. simpl.
    destruct (is_space c) eqn:Hc; [exact IH|]. right. eauto. }
  - left. reflexivity.
  - right. destruct (trimEnd_keeps_head c r Hc) as [r' ->]. eauto.
Qed.

Lemma trim_idempotent (s : jsstring) : trim (trim s) = trim s.
Proof.
  destruct (trim_head s) as [->|(c & r & Hs & Hc)]; [reflexivity|].
  unfold trim at 1. rewrite Hs. simpl. rewrite Hc. rewrite <- Hs.
  unfold trim. apply trimEnd_idempotent.
Qed.

(** No number is both greater than [n] and at most [n]. *)
Lemma gt_le_exclusive (x : number) (n : Z) : gt x n && le x n = false.
Proof.
  destruct x as [| |m e]; simpl; try reflexivity.
  destruct (0 <=? e); apply andb_false_iff;
    rewrite Z.ltb_nlt, Z.leb_nle; lia.
Qed.

Lemma Math_round_nearest (x : number) (p : Z) :
  to_Z (Math_round x) = Some p -> nearest_integer x p.
Proof.
  destruct x as [| |m e]; simpl; try discriminate.
  destruct (0 <=? e) eqn:He; simpl; intros [= <-]; [reflexivity|].
  apply Z.leb_gt in He.
  assert (0 < 2 ^ (- e)) as Hpos by (apply Z.pow_pos_nonneg; lia).
  replace (1 - e) with (Z.succ (- e)) by lia.
  rewrite Z.pow_succ_r by lia.
  set (d := 2 ^ (- e)) in *.
  pose proof (Z.div_mod (2 * m + d) (2 * d) ltac:(lia)) as Hdm.
  pose proof (Z.mod_pos_bound (2 * m + d) (2 * d) ltac:(lia)) as Hb.
  set (q := (2 * m + d) / (2 * d)) in *.
  set (r := (2 * m + d) mod (2 * d)) in *.
  replace ((2 * q - 1) * d) with (2 * d * q - d) by ring.
  replace ((2 * q + 1) * d) with (2 * d * q + d) by ring.
  lia.
Qed.

(** What a rounded number that passes the guard of [tryParseDebugProgress]
    is. *)
Lemma rounded_in_range (x : number) (cur : Z) :
  gt (Math_round x) cur && le (Math_round x) 100 = true ->
  exists p, Math_round x = Finite p 0 /\ cur < p <= 100.
Proof.
  destruct x as [| |m e]; simpl; try discriminate.
  destruct (0 <=? e); simpl; rewrite andb_true_iff, Z.ltb_lt, Z.leb_le;
    intros [? ?]; eexists; (split; [reflexivity|lia]).
Qed.

(** ** The log buffer *)

Lemma push_log_lastn (t : jsstring) (l : list jsstring) :
  push_log t l = lastn 500 (l ++ [t]).
Proof.
  unfold push_log, lastn.
  destruct (500 <? length (l ++ [t]))%nat eqn:H; [reflexivity|].
  apply Nat.ltb_ge in H.
  replace (length (l ++ [t]) - 500)%nat with 0%nat by lia. reflexivity.
Qed.

Lemma length_lastn {A} (n : nat) (l : list A) :
  length (lastn n l) = Nat.min n (length l).
Proof. unfold lastn. rewrite length_drop. lia. Qed.

Lemma lastn_app_lastn {A} (n : nat) (l k : list A) :
  lastn n (lastn n l ++ k) = lastn n (l ++ k).
Proof.
  unfold lastn. rewrite !length_app, !drop_app, drop_drop, !length_drop.
  f_equal; f_equal; lia.
Qed.

Lemma lastn_all {A} (n : nat) (l : list A) :
  (length l <= n)%nat -> lastn n l = l.
Proof.
  intros H. unfold lastn. replace (length l - n)%nat with 0%nat by lia.
  reflexivity.
Qed.

Lemma lastn_app_long {A} (n : nat) (l k : list A) :
  (n <= length k)%nat -> lastn n (l ++ k) = lastn n k.
Proof.
  intros H. unfold lastn. rewrite length_app.
  rewrite drop_app_ge by lia. f_equal. lia.
Qed.

(** ** The history store *)

Lemma length_updateHistoryRecord (jid : jsstring) (data : Patch) (now : jsstring)
    (h : list TranslationRecord) :
  length (fst (updateHistoryRecord jid data now h)) = length h.
Proof. unfold updateHistoryRecord. simpl. apply length_fmap. Qed.

Lemma length_removeHistoryRecord (jid : jsstring) (h : list TranslationRecord) :
  (length (removeHistoryRecord jid h) <= length h)%nat.
Proof. unfold removeHistoryRecord. apply length_filter. Qed.

Lemma length_appendHistory (record : TranslationRecord)
    (h : list TranslationRecord) :
  length (appendHistory record h) = Nat.min 500 (S (length h)).
Proof. unfold appendHistory. rewrite length_take. reflexivity. Qed.

(** No operation of the store takes the history beyond 500 records. *)
Lemma apply_bounded (h : list TranslationRecord) (op : Op) :
  (length h <= 500)%nat -> (length (apply h op) <= 500)%nat.
Proof.
  intros H. destruct op as [record|jid data now|jid]; unfold apply.
  - rewrite length_appendHistory. lia.
  - rewrite length_updateHistoryRecord. exact H.
  - pose proof (length_removeHistoryRecord jid h). lia.
Qed.

Lemma foldl_apply_bounded (ops : list Op) (h : list TranslationRecord) :
  (length h <= 500)%nat -> (length (foldl apply h ops) <= 500)%nat.
Proof.
  revert h. induction ops as [|op ops IH]; intros h H; simpl; [exact H|].
  apply IH, apply_bounded, H.
Qed.

(** C10. [appendHistory] puts the new record first and keeps the 499 newest
    of the records it found, in their order, so the result has at most 500
    records; the older ones are dropped. Whatever is then done to the store,
    starting from its default (the empty history), it never holds more than
    500 records. *)
Theorem appendHistory_newest_first_bounded
    (record : TranslationRecord) (h : list TranslationRecord) :
  appendHistory record h = record :: take 499 h
  /\ length (appendHistory record h) = Nat.min 500 (S (length h))
  /\ (length (appendHistory record h) <= 500)%nat
  /\ forall ops : list Op, (length (foldl apply [] ops) <= 500)%nat.
Proof.
  split; [reflexivity|]. split; [apply length_appendHistory|]. split.
  - rewrite length_appendHistory. lia.
  - intros ops. apply foldl_apply_bounded. simpl. lia.
Qed.

(** ** Job references and ids *)

Lemma list_find_alter_fst {A} (P : A -> Prop) `{!forall x, Decision (P x)}
    (f : A -> A) (l : list A) (i : nat) :
  (forall x, P (f x) <-> P x) ->
  fst <$> list_find P (alter f i l) = fst <$> list_find P l.
Proof.
  intros Hf. revert i. induction l as [|x l IH]; intros i; [reflexivity|].
  destruct i as [|i]; simpl.
  - rewrite (decide_ext (P (f x)) (P x)) by apply Hf.
    destruct (decide (P x)); reflexivity.
  - destruct (decide (P x)); [reflexivity|].
    specialize (IH i). change (list_alter f i l) with (alter f i l).
    destruct (list_find P (alter f i l)) as [[? ?]|],
             (list_find P l) as [[? ?]|]; simpl in *; congruence.
Qed.

Lemma find_job_mutate (jid : jsstring) (i : nat)
    (f : TranslationQueueItem -> TranslationQueueItem) (s : State) :
  (forall job, id (f job) = id job) ->
  find_job jid (mutate i f s) = find_job jid s.
Proof.
  intros Hf. unfold find_job, mutate. simpl.
  apply list_find_alter_fst. intros job. rewrite Hf. reflexivity.
Qed.

Lemma find_job_Some (jid : jsstring) (s : State) (i : nat) :
  find_job jid s = Some i <->
  exists job, queue s !! i = Some job /\ id job = jid
    /\ forall k job', queue s !! k = Some job' -> (k < i)%nat -> id job' <> jid.
Proof.
  unfold find_job. split.
  - intros H. apply fmap_Some in H as [[i' job] [H ->]].
    apply list_find_Some in H. simpl. eauto.
  - intros (job & H). apply fmap_Some. exists (i, job).
    split; [apply list_find_Some; exact H|reflexivity].
Qed.

Lemma find_job_None (jid : jsstring) (s : State) :
  find_job jid s = None <-> forall job, job ∈ queue s -> id job <> jid.
Proof.
  unfold find_job. rewrite fmap_None, list_find_None, Forall_forall.
  reflexivity.
Qed.

(** With unique ids, looking a job up by its id gives the job back. *)
Lemma find_job_unique (s : State) (j : nat) (job : TranslationQueueItem) :
  NoDup (ids s) -> queue s !! j = Some job -> find_job (id job) s = Some j.
Proof.
  intros Hnd Hj. apply find_job_Some. exists job. split; [exact Hj|].
  split; [reflexivity|]. intros k job' Hk Hlt Heq.
  assert (k = j); [|lia].
  eapply (NoDup_lookup (ids s)); [exact Hnd| |].
  - unfold ids. rewrite list_lookup_fmap, Hk. simpl. rewrite Heq. reflexivity.
  - unfold ids. rewrite list_lookup_fmap, Hj. reflexivity.
Qed.

Lemma ids_mutate (i : nat) (f : TranslationQueueItem -> TranslationQueueItem)
    (s : State) :
  (forall job, id (f job) = id job) -> ids (mutate i f s) = ids s.
Proof.
  intros Hf. unfold ids, mutate. simpl.
  apply list_eq. intros k. rewrite !list_lookup_fmap.
  destruct (decide (i = k)) as [->|Hne].
  - rewrite list_lookup_alter_eq. destruct (queue s !! k); simpl; [|done].
    rewrite Hf. reflexivity.
  - rewrite list_lookup_alter_ne by done. reflexivity.
Qed.

Lemma status_update_id st pr now job : id (status_update st pr now job) = id job.
Proof. destruct pr; reflexivity. Qed.

Lemma queue_emitStatus (jid : jsstring) (st : TranslationJobStatus)
    (pr : option Z) (now : jsstring) (s : State) :
  queue (emitStatus jid st pr now s) =
  match find_job jid s with
  | Some i => alter (status_update st pr now) i (queue s)
  | None => queue s
  end.
Proof.
  unfold emitStatus.
  change (find_job jid (emit (StatusPayload jid st pr) s)) with (find_job jid s).
  destruct (find_job jid s); reflexivity.
Qed.

Lemma ids_emitStatus jid st pr now s : ids (emitStatus jid st pr now s) = ids s.
Proof.
  unfold ids. rewrite queue_emitStatus. destruct (find_job jid s) as [i|]; [|done].
  apply (ids_mutate i (status_update st pr now) s), status_update_id.
Qed.

(** What [emitStatus] does to the job behind a reference: it is either left
    alone or it is the job found, and updated. *)
Lemma emitStatus_at (jid : jsstring) (st : TranslationJobStatus) (pr : option Z)
    (now : jsstring) (s : State) (j : nat) (job : TranslationQueueItem) :
  queue s !! j = Some job ->
  queue (emitStatus jid st pr now s) !! j =
  Some (if bool_decide (find_job jid s = Some j)
        then status_update st pr now job else job).
Proof.
  intros Hj. rewrite queue_emitStatus.
  destruct (find_job jid s) as [i|] eqn:Hf.
  - destruct (decide (i = j)) as [->|Hne].
    + rewrite bool_decide_eq_true_2 by done.
      rewrite list_lookup_alter_eq, Hj. reflexivity.
    + rewrite bool_decide_eq_false_2 by congruence.
      rewrite list_lookup_alter_ne by done. exact Hj.
  - rewrite bool_decide_eq_false_2 by done. exact Hj.
Qed.

(** C8. [markJobSaved] on an id that some job of the queue has, whatever the
    status of that job: the job found is returned, and it then has status
    [success], the given [savePath], no [error] and progress 100. On an id
    that no job of the queue has, it returns [null] and changes nothing. *)
Theorem markJobSaved_marks_or_ignores
    (jobId savePath_ now : jsstring) (s : State) :
  (forall job, job ∈ queue s -> id job = jobId ->
     exists i job',
       snd (markJobSaved jobId savePath_ now s) = Some i
       /\ queue (fst (markJobSaved jobId savePath_ now s)) !! i = Some job'
       /\ id job' = jobId
       /\ status job' = success
       /\ savePath job' = Some savePath_
       /\ error job' = None
       /\ progress job' = 100)
  /\ ((forall job, job ∈ queue s -> id job <> jobId) ->
      markJobSaved jobId savePath_ now s = (s, None)).
Proof.
  split.
  - intros job Hin Hid. unfold markJobSaved.
    destruct (find_job jobId s) as [i|] eqn:Hf.
    + apply find_job_Some in Hf as Hi. destruct Hi as (found & Hi & Hfid & _).
      set (f := fun job0 : TranslationQueueItem =>
                  set_updatedAt now (set_error None (set_savePath (Some savePath_)
                    (set_progress 100 (set_status success job0))))).
      assert (queue (mutate i f s) !! i = Some (f found)) as Hi'.
      { unfold mutate. simpl. rewrite list_lookup_alter_eq, Hi. reflexivity. }
      exists i, (status_update success (Some 100) now (f found)).
      cbn [fst snd]. split; [reflexivity|]. split.
      * rewrite (emitStatus_at _ _ _ _ _ _ _ Hi').
        rewrite find_job_mutate by reflexivity.
        rewrite bool_decide_eq_true_2 by exact Hf. reflexivity.
      * simpl. repeat split; exact Hfid.
    + exfalso. eapply find_job_None in Hf; eauto.
  - intros Hnone. unfold markJobSaved.
    rewrite (proj2 (find_job_None jobId s) Hnone). reflexivity.
Qed.

(** The first job of the sample queue. *)
Lemma sample_first_job :
  exists job, queue Sample.two_jobs !! 0%nat = Some job /\ id job = js "A"
    /\ status job = running /\ length (logs job) = 1%nat.
Proof.
  eexists. split; [vm_compute; reflexivity|].
  split; [|split]; vm_compute; reflexivity.
Qed.

Lemma markJobSaved_marks_or_ignores_witness :
  (exists i job',
      snd (markJobSaved (js "A") (js "/dest") (js "T9") Sample.two_jobs) = Some i
      /\ queue (fst (markJobSaved (js "A") (js "/dest") (js "T9") Sample.two_jobs)) !! i
         = Some job'
      /\ id job' = js "A"
      /\ status job' = success
      /\ savePath job' = Some (js "/dest")
      /\ error job' = None
      /\ progress job' = 100)
  /\ markJobSaved (js "Z") (js "/dest") (js "T9") Sample.two_jobs
     = (Sample.two_jobs, None).
Proof.
  split.
  - destruct sample_first_job as (job & Hjob & Hid & _).
    apply (proj1 (markJobSaved_marks_or_ignores (js "A") (js "/dest") (js "T9")
                    Sample.two_jobs) job).
    + apply (list_elem_of_lookup_2 _ 0%nat), Hjob.
    + exact Hid.
  - apply (proj2 (markJobSaved_marks_or_ignores (js "Z") (js "/dest") (js "T9")
                    Sample.two_jobs)).
    apply find_job_None. vm_compute. reflexivity.
Defined.

(** ** The progress interpreter, seen from one job *)

Lemma core_fields (a b : TranslationQueueItem) :
  core a = core b ->
  id a = id b /\ status a = status b /\ error a = error b
  /\ outputDir a = outputDir b /\ savePath a = savePath b.
Proof.
  intros H.
  pose proof (f_equal id H). pose proof (f_equal status H).
  pose proof (f_equal error H). pose proof (f_equal outputDir H).
  pose proof (f_equal savePath H). auto.
Qed.

Lemma lookup_mutate_eq (j : nat) f (s : State) :
  queue (mutate j f s) !! j = f <$> queue s !! j.
Proof. unfold mutate. simpl. apply list_lookup_alter_eq. Qed.

Lemma lookup_mutate_ne (j k : nat) f (s : State) :
  j <> k -> queue (mutate j f s) !! k = queue s !! k.
Proof. intros H. unfold mutate. simpl. apply list_lookup_alter_ne, H. Qed.

Lemma structured_progress_ge (cur : Z) (logLine : jsstring) :
  cur <= structured_progress cur logLine <= Z.max cur 100.
Proof.
  unfold structured_progress.
  destruct (match_overall_progress logLine) as [group|]; [|lia].
  cbv zeta.
  destruct (gt _ cur && le _ 100) eqn:Hg; [|lia].
  apply rounded_in_range in Hg as (p & -> & Hp). simpl. lia.
Qed.

Lemma stage_bound (logLine : jsstring) (stage : jsstring * Z) :
  matching_stage logLine = Some stage -> 5 <= snd stage <= 98.
Proof.
  intros H. apply List.find_some in H as [Hin _].
  unfold progressStages in Hin. simpl in Hin.
  repeat (destruct Hin as [<-|Hin]; [simpl; lia|]). destruct Hin.
Qed.

Lemma heuristic_progress_ge (cur : Z) (logLine : jsstring) :
  cur <= heuristic_progress cur logLine <= Z.max cur 98.
Proof.
  unfold heuristic_progress.
  destruct (matching_stage logLine) as [stage|] eqn:Hm; [|lia].
  apply stage_bound in Hm.
  destruct (cur <? snd stage) eqn:Hlt; [apply Z.ltb_lt in Hlt|]; lia.
Qed.

(** The job behind [j] after an update of its progress to [p] followed by
    [emitStatus] with the job's own id and status. *)
Lemma raise_progress_at (j : nat) (job : TranslationQueueItem) (p : Z)
    (now : jsstring) (s : State) :
  queue s !! j = Some job ->
  exists job',
    queue (emitStatus (id job) (status job) (Some p) now
             (mutate j (set_progress p) s)) !! j = Some job'
    /\ core job' = core job /\ logs job' = logs job /\ progress job' = p.
Proof.
  intros Hj.
  assert (queue (mutate j (set_progress p) s) !! j = Some (set_progress p job)) as H1.
  { rewrite lookup_mutate_eq, Hj. reflexivity. }
  rewrite (emitStatus_at _ _ _ _ _ _ _ H1).
  eexists. split; [reflexivity|].
  destruct (bool_decide _); destruct job; repeat split; reflexivity.
Qed.

Lemma tryParseDebugProgress_at (j : nat) (job : TranslationQueueItem)
    (logLine now : jsstring) (s : State) :
  queue s !! j = Some job ->
  exists job',
    queue (tryParseDebugProgress j logLine now s) !! j = Some job'
    /\ core job' = core job /\ logs job' = logs job
    /\ progress job' = structured_progress (progress job) logLine.
Proof.
  intros Hj. unfold tryParseDebugProgress, structured_progress.
  destruct (match_overall_progress logLine) as [group|]; [|by eauto].
  cbv zeta. rewrite Hj.
  destruct (gt _ (progress job) && le _ 100) eqn:Hg; [|by eauto].
  apply rounded_in_range in Hg as (p & -> & Hp). simpl.
  apply raise_progress_at, Hj.
Qed.

Lemma tryUpdateProgressFromLog_at (j : nat) (job : TranslationQueueItem)
    (logLine now : jsstring) (s : State) :
  queue s !! j = Some job ->
  exists job',
    queue (tryUpdateProgressFromLog j logLine now s) !! j = Some job'
    /\ core job' = core job /\ logs job' = logs job
    /\ progress job' = heuristic_progress (progress job) logLine.
Proof.
  intros Hj. unfold tryUpdateProgressFromLog, heuristic_progress.
  destruct (matching_stage logLine) as [stage|]; [|by eauto].
  rewrite Hj. destruct (progress job <? snd stage); [|by eauto].
  apply raise_progress_at, Hj.
Qed.

Lemma appendLog_at (j : nat) (job : TranslationQueueItem)
    (message now : jsstring) (s : State) :
  queue s !! j = Some job ->
  exists job',
    queue (appendLog j message now s) !! j = Some job'
    /\ core job' = core job
    /\ logs job' = logged message (logs job)
    /\ progress job' =
       heuristic_progress (structured_progress (progress job) (trim message))
         (trim message).
Proof.
  intros Hj. unfold appendLog, logged.
  destruct (trim message) as [|c r] eqn:Ht.
  { exists job. split; [exact Hj|]. split; [reflexivity|].
    split; reflexivity. }
  rewrite Hj.
  set (s1 := mutate j (set_updatedAt now)
               (mutate j (fun job0 => set_logs (push_log (c :: r) (logs job0)) job0) s)).
  set (job1 := set_updatedAt now (set_logs (push_log (c :: r) (logs job)) job)).
  assert (queue s1 !! j = Some job1) as H1.
  { unfold s1. rewrite !lookup_mutate_eq, Hj. reflexivity. }
  change (queue (emitProgress (id job) (c :: r) s1) !! j) with (queue s1 !! j).
  rewrite H1.
  set (s2 := persist _ _ _ _).
  assert (queue s2 !! j = Some job1) as H2 by exact H1.
  destruct (tryParseDebugProgress_at j job1 (c :: r) now s2 H2)
    as (job3 & H3 & Hc3 & Hl3 & Hp3).
  destruct (tryUpdateProgressFromLog_at j job3 (c :: r) now _ H3)
    as (job4 & H4 & Hc4 & Hl4 & Hp4).
  exists job4. split; [exact H4|]. split; [|split].
  - rewrite Hc4, Hc3. destruct job; reflexivity.
  - rewrite Hl4, Hl3. reflexivity.
  - rewrite Hp4, Hp3. reflexivity.
Qed.

(** ** Progress over a run *)

Lemma feed_at (j : nat) (chunks : list (jsstring * jsstring)) :
  forall (s : State) (job : TranslationQueueItem),
    queue s !! j = Some job ->
    exists job', queue (feed j chunks s) !! j = Some job'
                 /\ progress job <= progress job'.
Proof.
  induction chunks as [|c chunks IH]; intros s job Hj; simpl.
  - exists job. split; [exact Hj|lia].
  - destruct (appendLog_at j job (trim (fst c)) (snd c) s Hj)
      as (job1 & H1 & _ & _ & Hp1).
    destruct (IH _ job1 H1) as (job' & H' & Hp').
    exists job'. split; [exact H'|].
    pose proof (structured_progress_ge (progress job) (trim (trim (fst c)))).
    pose proof (heuristic_progress_ge
                  (structured_progress (progress job) (trim (trim (fst c))))
                  (trim (trim (fst c)))).
    lia.
Qed.

(** C2. Progress never decreases while the output of a run is processed.
    Each of the two rules leaves the job with a progress that is at least
    what it was (a rule writes only a value that is strictly greater), and
    after any further chunks of output the progress is at least what it was
    after the earlier ones. *)
Theorem progress_never_decreases
    (s : State) (j : nat) (job : TranslationQueueItem)
    (chunks more : list (jsstring * jsstring)) :
  queue s !! j = Some job ->
  (forall logLine now, exists job',
      queue (tryParseDebugProgress j logLine now s) !! j = Some job'
      /\ (progress job' = progress job \/ progress job < progress job'))
  /\ (forall logLine now, exists job',
      queue (tryUpdateProgressFromLog j logLine now s) !! j = Some job'
      /\ (progress job' = progress job \/ progress job < progress job'))
  /\ exists job1 job2,
      queue (feed j chunks s) !! j = Some job1
      /\ queue (feed j (chunks ++ more) s) !! j = Some job2
      /\ progress job <= progress job1 <= progress job2.
Proof.
  intros Hj. split; [|split].
  - intros logLine now.
    destruct (tryParseDebugProgress_at j job logLine now s Hj)
      as (job' & H' & _ & _ & Hp).
    exists job'. split; [exact H'|].
    pose proof (structured_progress_ge (progress job) logLine). lia.
  - intros logLine now.
    destruct (tryUpdateProgressFromLog_at j job logLine now s Hj)
      as (job' & H' & _ & _ & Hp).
    exists job'. split; [exact H'|].
    pose proof (heuristic_progress_ge (progress job) logLine). lia.
  - destruct (feed_at j chunks s job Hj) as (job1 & H1 & Hp1).
    destruct (feed_at j more _ job1 H1) as (job2 & H2 & Hp2).
    exists job1, job2. split; [exact H1|]. split; [|lia].
    unfold feed in *. rewrite foldl_app. exact H2.
Qed.

Lemma progress_never_decreases_witness :
  exists job, queue Sample.two_jobs !! 0%nat = Some job
  /\ exists job1 job2,
      queue (feed 0 [(js "Parse Page Layout", js "T5")] Sample.two_jobs) !! 0%nat
        = Some job1
      /\ queue (feed 0 ([(js "Parse Page Layout", js "T5")]
                        ++ [(js "start to translate", js "T6")])
                  Sample.two_jobs) !! 0%nat = Some job2
      /\ progress job <= progress job1 <= progress job2.
Proof.
  destruct sample_first_job as (job & Hjob & _).
  exists job. split; [exact Hjob|].
  exact (proj2 (proj2 (progress_never_decreases Sample.two_jobs 0 job
                         [(js "Parse Page Layout", js "T5")]
                         [(js "start to translate", js "T6")] Hjob))).
Defined.

(** ** The log buffer over a run *)

Lemma logged_kept (m : jsstring * jsstring) (l : list jsstring) :
  logged (fst m) l = lastn 500 (l ++ kept [m]) \/
  (kept [m] = [] /\ logged (fst m) l = l).
Proof.
  unfold logged, kept. simpl.
  destruct (trim (fst m)) as [|c r] eqn:Ht.
  - right. split; reflexivity.
  - left. rewrite filter_cons_True by done. apply push_log_lastn.
Qed.

Lemma kept_cons (m : jsstring * jsstring) (ms : list (jsstring * jsstring)) :
  kept (m :: ms) = kept [m] ++ kept ms.
Proof.
  unfold kept. simpl. destruct (decide (trim (fst m) <> [])).
  - rewrite !filter_cons_True by done. reflexivity.
  - rewrite !filter_cons_False by done. reflexivity.
Qed.

Lemma append_all_at (j : nat) (messages : list (jsstring * jsstring)) :
  forall (s : State) (job : TranslationQueueItem),
    queue s !! j = Some job ->
    (length (logs job) <= 500)%nat ->
    exists job', queue (append_all j messages s) !! j = Some job'
                 /\ logs job' = lastn 500 (logs job ++ kept messages).
Proof.
  induction messages as [|m ms IH]; intros s job Hj Hlen; simpl.
  - exists job. split; [exact Hj|].
    unfold kept. simpl. rewrite filter_nil, app_nil_r, lastn_all; done.
  - destruct (appendLog_at j job (fst m) (snd m) s Hj)
      as (job1 & H1 & _ & Hl1 & _).
    rewrite kept_cons.
    destruct (logged_kept m (logs job)) as [Hk|[Hk Hsame]].
    + destruct (IH _ job1 H1) as (job' & H' & Hl').
      { rewrite Hl1, Hk, length_lastn. lia. }
      exists job'. split; [exact H'|].
      rewrite Hl', Hl1, Hk, lastn_app_lastn, app_assoc. reflexivity.
    + destruct (IH _ job1 H1) as (job' & H' & Hl').
      { rewrite Hl1, Hsame. exact Hlen. }
      exists job'. split; [exact H'|].
      rewrite Hl', Hl1, Hsame, Hk. reflexivity.
Qed.


(** ** The two rules of the interpreter *)

Lemma sink_emitStatus jid st pr now s :
  sink (emitStatus jid st pr now s) = sink s ++ [StatusPayload jid st pr].
Proof.
  unfold emitStatus.
  change (find_job jid (emit (StatusPayload jid st pr) s)) with (find_job jid s).
  destruct (find_job jid s); reflexivity.
Qed.

Lemma guard_of_integer (p cur : Z) :
  gt (Finite p 0) cur && le (Finite p 0) 100 = true <-> cur < p <= 100.
Proof.
  simpl. rewrite andb_true_iff, Z.ltb_lt, Z.leb_le. lia.
Qed.

Example typesetting_at_50_runs_both_rules :
  progress <$> queue Sample.two_jobs !! 0%nat = Some 0
  /\ structured_progress 0 typesetting_at_50 = 50
  /\ progress <$> queue (appendLog 0 typesetting_at_50 (js "T5") Sample.two_jobs) !! 0%nat
     = Some 90
  /\ drop 4 (sink (appendLog 0 typesetting_at_50 (js "T5") Sample.two_jobs))
     = [ ProgressPayload (js "A") typesetting_at_50;
         StatusPayload (js "A") running (Some 50);
         StatusPayload (js "A") running (Some 90) ].
Proof. by_computation. Qed.

(** C3, as stated, fails: on the line [typesetting_at_50] the structured rule
    sets the progress to 50 and the stage table then raises it to 90. *)
Lemma both_rules_applied_to_one_line : ~ stops_at_first_applicable_rule.
Proof.
  intros H.
  destruct typesetting_at_50_runs_both_rules as (H0 & H50 & H90 & _).
  destruct sample_first_job as (job & Hjob & _).
  rewrite Hjob in H0. injection H0 as H0.
  destruct (H Sample.two_jobs 0%nat job typesetting_at_50 (js "T5") Hjob)
    as (job' & Hj' & Hp').
  - rewrite H0.
    replace (trim typesetting_at_50) with typesetting_at_50
      by (vm_compute; reflexivity).
    rewrite H50. discriminate.
  - rewrite Hj' in H90. injection H90 as H90.
    rewrite H0 in Hp'.
    replace (trim typesetting_at_50) with typesetting_at_50 in Hp'
      by (vm_compute; reflexivity).
    rewrite H50 in Hp'. lia.
Qed.

(** C3, amended. [appendLog] runs both rules on every line it stores, the
    structured rule first and the stage table second, whether or not the
    first one changed the progress: the progress after the line is what the
    stage table makes of what the structured rule made of the old progress.
    So a line whose first matching stage has a milestone above the progress
    that the structured rule left ends at that milestone. *)
Theorem both_rules_run_in_order
    (s : State) (j : nat) (job : TranslationQueueItem) (message now : jsstring) :
  queue s !! j = Some job ->
  exists job',
    queue (appendLog j message now s) !! j = Some job'
    /\ progress job' =
       heuristic_progress (structured_progress (progress job) (trim message))
         (trim message)
    /\ forall stage,
         matching_stage (trim message) = Some stage ->
         structured_progress (progress job) (trim message) < snd stage ->
         progress job' = snd stage.
Proof.
  intros Hj.
  destruct (appendLog_at j job message now s Hj) as (job' & H' & _ & _ & Hp).
  exists job'. split; [exact H'|]. split; [exact Hp|].
  intros stage Hm Hlt. rewrite Hp. unfold heuristic_progress. rewrite Hm.
  apply Z.ltb_lt in Hlt. rewrite Hlt. reflexivity.
Qed.

Lemma both_rules_run_in_order_witness :
  exists job, queue Sample.two_jobs !! 0%nat = Some job
  /\ exists job',
    queue (appendLog 0 typesetting_at_50 (js "T5") Sample.two_jobs) !! 0%nat
      = Some job'
    /\ progress job' =
       heuristic_progress (structured_progress (progress job) (trim typesetting_at_50))
         (trim typesetting_at_50)
    /\ forall stage,
         matching_stage (trim typesetting_at_50) = Some stage ->
         structured_progress (progress job) (trim typesetting_at_50) < snd stage ->
         progress job' = snd stage.
Proof.
  destruct sample_first_job as (job & Hjob & _).
  exists job. split; [exact Hjob|].
  exact (both_rules_run_in_order Sample.two_jobs 0 job typesetting_at_50
           (js "T5") Hjob).
Defined.

Example overall_100_4_is_applied :
  match_overall_progress overall_100_4 = Some (js "100.4")
  /\ le (parseFloat (js "100.4")) 100 = false
  /\ progress <$> queue Sample.two_jobs !! 0%nat = Some 0
  /\ progress <$> queue (tryParseDebugProgress 0 overall_100_4 (js "T5")
                          Sample.two_jobs) !! 0%nat = Some 100.
Proof. by_computation. Qed.

(** C4, as stated, fails: 100.4 is above 100, it rounds to 100, and 100 is
    written to a job whose progress was 0. *)
Lemma value_above_100_is_applied : ~ applies_only_values_in_range.
Proof.
  intros H.
  destruct overall_100_4_is_applied as (Hm & Hle & H0 & H100).
  destruct sample_first_job as (job & Hjob & _).
  rewrite Hjob in H0. injection H0 as H0.
  destruct (H Sample.two_jobs 0%nat job overall_100_4 (js "T5") (js "100.4")
              Hjob Hm Hle) as (job' & Hj' & Hp').
  rewrite Hj' in H100. injection H100 as H100. lia.
Qed.

(** C4, amended. On a line with the structured field, the value is applied
    exactly when the parsed number, rounded to the nearest integer (the
    larger one on a tie), is at most 100 and strictly greater than the job's
    progress; the rounded value then becomes the progress and is announced on
    the status channel. Otherwise (the rounded value is above 100, is not
    strictly greater, or the text is no number) nothing at all changes. *)
Theorem structured_value_applied_iff_rounded_in_range
    (s : State) (j : nat) (job : TranslationQueueItem)
    (logLine now group : jsstring) :
  queue s !! j = Some job ->
  match_overall_progress logLine = Some group ->
  (forall p, to_Z (Math_round (parseFloat group)) = Some p ->
     progress job < p <= 100 ->
     nearest_integer (parseFloat group) p
     /\ (exists job',
           queue (tryParseDebugProgress j logLine now s) !! j = Some job'
           /\ progress job' = p)
     /\ sink (tryParseDebugProgress j logLine now s)
        = sink s ++ [StatusPayload (id job) (status job) (Some p)])
  /\ ((forall p, to_Z (Math_round (parseFloat group)) = Some p ->
         ~ (progress job < p <= 100)) ->
      tryParseDebugProgress j logLine now s = s).
Proof.
  intros Hj Hm. split.
  - intros p Hp Hrange. split; [apply Math_round_nearest, Hp|].
    assert (Math_round (parseFloat group) = Finite p 0) as Hx.
    { destruct (Math_round (parseFloat group)) as [| |m e]; try discriminate.
      simpl in Hp. destruct e; try discriminate. congruence. }
    split.
    + destruct (tryParseDebugProgress_at j job logLine now s Hj)
        as (job' & H' & _ & _ & Hp').
      exists job'. split; [exact H'|]. rewrite Hp'.
      unfold structured_progress. rewrite Hm. cbv zeta. rewrite Hx.
      rewrite (proj2 (guard_of_integer p (progress job)) Hrange). reflexivity.
    + unfold tryParseDebugProgress. rewrite Hm, Hj. cbv zeta. rewrite Hx.
      rewrite (proj2 (guard_of_integer p (progress job)) Hrange).
      cbn [to_Z]. rewrite sink_emitStatus. reflexivity.
  - intros Hnot. unfold tryParseDebugProgress. rewrite Hm, Hj. cbv zeta.
    destruct (gt _ (progress job) && le _ 100) eqn:Hg; [|reflexivity].
    apply rounded_in_range in Hg as (p & Hx & Hrange).
    exfalso. apply (Hnot p); [rewrite Hx; reflexivity|exact Hrange].
Qed.

Lemma structured_value_applied_iff_rounded_in_range_witness :
  exists job, queue Sample.two_jobs !! 0%nat = Some job
  /\ (nearest_integer (parseFloat (js "100.4")) 100
      /\ (exists job',
            queue (tryParseDebugProgress 0 overall_100_4 (js "T5")
                     Sample.two_jobs) !! 0%nat = Some job'
            /\ progress job' = 100)
      /\ sink (tryParseDebugProgress 0 overall_100_4 (js "T5") Sample.two_jobs)
         = sink Sample.two_jobs ++ [StatusPayload (id job) (status job) (Some 100)])
  /\ tryParseDebugProgress 0 (js "'overall_progress': 100.5") (js "T5")
       Sample.two_jobs = Sample.two_jobs.
Proof.
  destruct sample_first_job as (job & Hjob & _).
  assert (progress job = 0) as Hp0.
  { pose proof (proj1 (proj2 (proj2 overall_100_4_is_applied))) as H0.
    rewrite Hjob in H0. injection H0 as H0. exact H0. }
  exists job. split; [exact Hjob|]. split.
  - apply (proj1 (structured_value_applied_iff_rounded_in_range
                    Sample.two_jobs 0 job overall_100_4 (js "T5") (js "100.4")
                    Hjob ltac:(vm_compute; reflexivity)) 100).
    + vm_compute. reflexivity.
    + rewrite Hp0. lia.
  - apply (proj2 (structured_value_applied_iff_rounded_in_range
                    Sample.two_jobs 0 job (js "'overall_progress': 100.5")
                    (js "T5") (js "100.5")
                    Hjob ltac:(vm_compute; reflexivity))).
    intros p Hp. vm_compute in Hp. injection Hp as <-. lia.
Defined.

(** ** What logging leaves alone *)

Lemma quiet_refl (s : State) : quiet s s.
Proof. split; reflexivity. Qed.

Lemma quiet_trans (s1 s2 s3 : State) : quiet s1 s2 -> quiet s2 s3 -> quiet s1 s3.
Proof.
  intros [] []. split; try congruence. etrans; eassumption.
Qed.

Lemma quiet_mutate (j : nat) f (s : State) :
  (forall job, id (f job) = id job) -> quiet s (mutate j f s).
Proof. intros Hf. split; try reflexivity. apply ids_mutate, Hf. Qed.

Lemma quiet_emit (e : Emitted) (s : State) : quiet s (emit e s).
Proof. split; try reflexivity. simpl. apply prefix_app_r. reflexivity. Qed.

Lemma quiet_persist jid data now (s : State) : quiet s (persist jid data now s).
Proof. split; reflexivity. Qed.

Lemma quiet_emitStatus jid st pr now (s : State) :
  quiet s (emitStatus jid st pr now s).
Proof.
  split; try (unfold emitStatus;
    change (find_job jid (emit (StatusPayload jid st pr) s)) with (find_job jid s);
    destruct (find_job jid s); reflexivity).
  - apply ids_emitStatus.
  - rewrite sink_emitStatus. apply prefix_app_r. reflexivity.
Qed.

Lemma quiet_tryParseDebugProgress j logLine now (s : State) :
  quiet s (tryParseDebugProgress j logLine now s).
Proof.
  unfold tryParseDebugProgress.
  destruct (match_overall_progress logLine); [|apply quiet_refl].
  cbv zeta. destruct (queue s !! j) as [job|]; [|apply quiet_refl].
  destruct (gt _ _ && le _ _); [|apply quiet_refl].
  destruct (to_Z _) as [p|]; [|apply quiet_refl].
  eapply quiet_trans; [apply (quiet_mutate j (set_progress p)); reflexivity|].
  apply quiet_emitStatus.
Qed.

Lemma quiet_tryUpdateProgressFromLog j logLine now (s : State) :
  quiet s (tryUpdateProgressFromLog j logLine now s).
Proof.
  unfold tryUpdateProgressFromLog.
  destruct (matching_stage logLine) as [stage|]; [|apply quiet_refl].
  destruct (queue s !! j) as [job|]; [|apply quiet_refl].
  destruct (progress job <? snd stage); [|apply quiet_refl].
  eapply quiet_trans;
    [apply (quiet_mutate j (set_progress (snd stage))); reflexivity|].
  apply quiet_emitStatus.
Qed.

Lemma appendLog_unfold (j : nat) (job : TranslationQueueItem)
    (message now : jsstring) (s : State) :
  queue s !! j = Some job ->
  trim message <> [] ->
  appendLog j message now s =
  tryUpdateProgressFromLog j (trim message) now
    (tryParseDebugProgress j (trim message) now
       (log_stored j job (trim message) now s)).
Proof.
  intros Hj Ht. unfold appendLog, log_stored.
  destruct (trim message) as [|c r]; [done|].
  rewrite Hj.
  set (store := fun job0 : TranslationQueueItem =>
                  set_logs (push_log (c :: r) (logs job0)) job0).
  assert (mutate j (set_updatedAt now) (mutate j store s)
          = mutate j (fun job0 => set_updatedAt now
                        (set_logs (push_log (c :: r) (logs job)) job0)) s) as ->.
  { unfold mutate, with_queue.
    cbn [queue processing history settings userData sink flight]. f_equal.
    apply list_eq. intros k. destruct (decide (j = k)) as [->|Hne].
    - rewrite !list_lookup_alter_eq, Hj. reflexivity.
    - rewrite !list_lookup_alter_ne by done. reflexivity. }
  cbv zeta.
  change (queue (emitProgress (id job) (c :: r) ?x) !! j) with (queue x !! j).
  rewrite lookup_mutate_eq, Hj. reflexivity.
Qed.

Lemma quiet_log_stored j job trimmed now (s : State) :
  quiet s (log_stored j job trimmed now s).
Proof.
  unfold log_stored. cbv zeta.
  eapply quiet_trans; [|apply quiet_persist].
  eapply quiet_trans; [|apply quiet_emit].
  apply quiet_mutate. reflexivity.
Qed.

Lemma quiet_appendLog j message now (s : State) :
  quiet s (appendLog j message now s).
Proof.
  destruct (decide (trim message = [])) as [Ht|Ht].
  { unfold appendLog. rewrite Ht. apply quiet_refl. }
  destruct (queue s !! j) as [job|] eqn:Hj.
  - rewrite (appendLog_unfold j job message now s Hj Ht).
    eapply quiet_trans; [|apply quiet_tryUpdateProgressFromLog].
    eapply quiet_trans; [|apply quiet_tryParseDebugProgress].
    apply quiet_log_stored.
  - unfold appendLog. rewrite Hj. destruct (trim message); apply quiet_refl.
Qed.

(** ** Output of the child process *)

Lemma persisted_update_logs jid data now l h :
  p_logs data = Some l ->
  persisted jid l (fst (updateHistoryRecord jid data now h)).
Proof.
  intros Hl. unfold persisted, updateHistoryRecord. simpl.
  apply Forall_fmap, Forall_forall. intros record _. simpl.
  case_bool_decide as Hid; [|done].
  intros _. simpl. rewrite Hl. reflexivity.
Qed.

Lemma persisted_update_other jid jid' data now l h :
  p_logs data = None ->
  persisted jid l h ->
  persisted jid l (fst (updateHistoryRecord jid' data now h)).
Proof.
  intros Hl H. unfold persisted, updateHistoryRecord in *. simpl.
  apply Forall_fmap. eapply Forall_impl; [exact H|].
  intros record Hr. simpl. case_bool_decide; [|exact Hr].
  simpl. rewrite Hl. exact Hr.
Qed.

Lemma history_emitStatus jid st pr now (s : State) :
  history (emitStatus jid st pr now s) =
  fst (updateHistoryRecord jid
         {| p_status := Some st; p_progress := pr; p_logs := None;
            p_translatedPath := None; p_errorMessage := None;
            p_savePath := None |} now (history s)).
Proof.
  unfold emitStatus.
  change (find_job jid (emit (StatusPayload jid st pr) s)) with (find_job jid s).
  destruct (find_job jid s); reflexivity.
Qed.

Lemma persisted_tryParseDebugProgress jid l j logLine now (s : State) :
  persisted jid l (history s) ->
  persisted jid l (history (tryParseDebugProgress j logLine now s)).
Proof.
  intros H. unfold tryParseDebugProgress.
  destruct (match_overall_progress logLine); [|exact H].
  cbv zeta. destruct (queue s !! j) as [job|]; [|exact H].
  destruct (gt _ _ && le _ _); [|exact H].
  destruct (to_Z _) as [p|]; [|exact H].
  rewrite history_emitStatus. apply persisted_update_other; [reflexivity|exact H].
Qed.

Lemma persisted_tryUpdateProgressFromLog jid l j logLine now (s : State) :
  persisted jid l (history s) ->
  persisted jid l (history (tryUpdateProgressFromLog j logLine now s)).
Proof.
  intros H. unfold tryUpdateProgressFromLog.
  destruct (matching_stage logLine) as [stage|]; [|exact H].
  destruct (queue s !! j) as [job|]; [|exact H].
  destruct (progress job <? snd stage); [|exact H].
  rewrite history_emitStatus. apply persisted_update_other; [reflexivity|exact H].
Qed.

Example two_lines_are_one_entry :
  spec_lines two_lines = [js "first"; js "second"]
  /\ drop 1 <$> (logs <$> queue (feed 0 [(two_lines, js "T5")] Sample.two_jobs) !! 0%nat)
     = Some [[102; 105; 114; 115; 116; 10; 115; 101; 99; 111; 110; 100]%N].
Proof. by_computation. Qed.

(** C9, as stated, fails: a chunk with two lines becomes one entry of the
    buffer, not two. *)
Lemma chunk_is_not_split_into_lines : ~ consumed_line_by_line.
Proof.
  intros H.
  destruct sample_first_job as (job & Hjob & _ & _ & Hlen).
  destruct (H Sample.two_jobs 0%nat job [(two_lines, js "T5")] Hjob)
    as (job' & Hj' & Hl').
  destruct two_lines_are_one_entry as (Hspec & Hcode).
  rewrite Hj' in Hcode. simpl in Hcode. injection Hcode as Hcode.
  apply (f_equal length) in Hl', Hcode.
  rewrite length_drop in Hcode.
  rewrite length_lastn, length_app in Hl'.
  replace (concat (fst <$> [(two_lines, js "T5")])) with two_lines in Hl'
    by (vm_compute; reflexivity).
  rewrite Hspec, Hlen in Hl'. simpl in Hl', Hcode. lia.
Qed.

(** C9, amended. The output of the child is taken chunk by chunk, as the
    [data] events of stdout and stderr deliver it, not line by line. A
    chunk that is blank changes nothing. Any other chunk is trimmed and then,
    as one message: appended to the job's buffer, which keeps its last 500
    entries; persisted, so that every history record of the job carries the
    buffer; sent on the progress channel; and given to both rules of the
    interpreter. *)
Theorem data_chunk_is_one_message
    (s : State) (j : nat) (job : TranslationQueueItem) (chunk now : jsstring) :
  queue s !! j = Some job ->
  (trim chunk = [] -> onData j chunk now s = s)
  /\ (trim chunk <> [] ->
      exists job' rest,
        queue (onData j chunk now s) !! j = Some job'
        /\ logs job' = lastn 500 (logs job ++ [trim chunk])
        /\ persisted (id job) (logs job') (history (onData j chunk now s))
        /\ sink (onData j chunk now s)
           = sink s ++ ProgressPayload (id job) (trim chunk) :: rest
        /\ onData j chunk now s =
           tryUpdateProgressFromLog j (trim chunk) now
             (tryParseDebugProgress j (trim chunk) now
                (log_stored j job (trim chunk) now s))).
Proof.
  intros Hj. unfold onData. split.
  - intros Ht. unfold appendLog. rewrite Ht. reflexivity.
  - intros Ht.
    assert (trim (trim chunk) <> []) as Ht' by (rewrite trim_idempotent; exact Ht).
    pose proof (appendLog_unfold j job (trim chunk) now s Hj Ht') as Hun.
    rewrite trim_idempotent in Hun.
    destruct (appendLog_at j job (trim chunk) now s Hj)
      as (job' & H' & _ & Hl' & _).
    assert (logs job' = push_log (trim chunk) (logs job)) as Hlogs.
    { rewrite Hl'. unfold logged. rewrite trim_idempotent.
      destruct (trim chunk); [done|reflexivity]. }
    pose proof (quiet_trans _ _ _
                  (quiet_tryParseDebugProgress j (trim chunk) now
                     (log_stored j job (trim chunk) now s))
                  (quiet_tryUpdateProgressFromLog j (trim chunk) now _)) as Hq.
    destruct (q_sink _ _ Hq) as [rest Hrest].
    exists job', rest. split; [exact H'|]. split.
    { rewrite Hlogs. apply push_log_lastn. }
    split; [|split; [|exact Hun]].
    + rewrite Hun, Hlogs.
      apply persisted_tryUpdateProgressFromLog, persisted_tryParseDebugProgress.
      unfold log_stored. cbv zeta.
      apply persisted_update_logs. reflexivity.
    + rewrite Hun, Hrest. unfold log_stored. cbv zeta. simpl.
      rewrite <- app_assoc. reflexivity.
Qed.

Lemma data_chunk_is_one_message_witness :
  exists job, queue Sample.two_jobs !! 0%nat = Some job
  /\ onData 0 (js "  ") (js "T5") Sample.two_jobs = Sample.two_jobs
  /\ exists job' rest,
        queue (onData 0 two_lines (js "T5") Sample.two_jobs) !! 0%nat = Some job'
        /\ logs job' = lastn 500 (logs job ++ [trim two_lines])
        /\ persisted (id job) (logs job')
             (history (onData 0 two_lines (js "T5") Sample.two_jobs))
        /\ sink (onData 0 two_lines (js "T5") Sample.two_jobs)
           = sink Sample.two_jobs
             ++ ProgressPayload (id job) (trim two_lines) :: rest
        /\ onData 0 two_lines (js "T5") Sample.two_jobs =
           tryUpdateProgressFromLog 0 (trim two_lines) (js "T5")
             (tryParseDebugProgress 0 (trim two_lines) (js "T5")
                (log_stored 0 job (trim two_lines) (js "T5") Sample.two_jobs)).
Proof.
  destruct sample_first_job as (job & Hjob & _).
  exists job. split; [exact Hjob|]. split.
  - apply (proj1 (data_chunk_is_one_message Sample.two_jobs 0 job (js "  ")
                    (js "T5") Hjob)).
    vm_compute. reflexivity.
  - apply (proj2 (data_chunk_is_one_message Sample.two_jobs 0 job two_lines
                    (js "T5") Hjob)).
    vm_compute. discriminate.
Defined.

(** ** Unique ids: a handler touches its own job only *)

Lemma others_kept_refl j s : others_kept j s s.
Proof. intros k _. reflexivity. Qed.

Lemma others_kept_trans j s1 s2 s3 :
  others_kept j s1 s2 -> others_kept j s2 s3 -> others_kept j s1 s3.
Proof. intros H12 H23 k Hk. rewrite H23, H12; done. Qed.

Lemma others_kept_mutate j f s : others_kept j s (mutate j f s).
Proof. intros k Hk. apply lookup_mutate_ne. congruence. Qed.

Lemma emitStatus_own (s : State) (j : nat) (job : TranslationQueueItem) st pr now :
  NoDup (ids s) -> queue s !! j = Some job ->
  queue (emitStatus (id job) st pr now s)
  = alter (status_update st pr now) j (queue s).
Proof.
  intros Hnd Hj. rewrite queue_emitStatus, (find_job_unique s j job Hnd Hj).
  reflexivity.
Qed.

Lemma others_kept_emitStatus (s : State) (j : nat) (job : TranslationQueueItem)
    st pr now :
  NoDup (ids s) -> queue s !! j = Some job ->
  others_kept j s (emitStatus (id job) st pr now s).
Proof.
  intros Hnd Hj k Hk. rewrite (emitStatus_own s j job st pr now Hnd Hj).
  apply list_lookup_alter_ne. congruence.
Qed.

(** The progress of the job behind [j] is set to [p] and announced. *)
Lemma others_kept_raise (s : State) (j : nat) (job : TranslationQueueItem) p now :
  NoDup (ids s) -> queue s !! j = Some job ->
  others_kept j s
    (emitStatus (id job) (status job) (Some p) now (mutate j (set_progress p) s)).
Proof.
  intros Hnd Hj.
  eapply others_kept_trans; [apply (others_kept_mutate j (set_progress p))|].
  apply (others_kept_emitStatus _ j (set_progress p job)).
  - rewrite ids_mutate by reflexivity. exact Hnd.
  - rewrite lookup_mutate_eq, Hj. reflexivity.
Qed.

Lemma others_kept_tryParseDebugProgress j logLine now (s : State) :
  NoDup (ids s) -> others_kept j s (tryParseDebugProgress j logLine now s).
Proof.
  intros Hnd. unfold tryParseDebugProgress.
  destruct (match_overall_progress logLine); [|apply others_kept_refl].
  cbv zeta. destruct (queue s !! j) as [job|] eqn:Hj; [|apply others_kept_refl].
  destruct (gt _ _ && le _ _); [|apply others_kept_refl].
  destruct (to_Z _) as [p|]; [|apply others_kept_refl].
  apply others_kept_raise; assumption.
Qed.

Lemma others_kept_tryUpdateProgressFromLog j logLine now (s : State) :
  NoDup (ids s) -> others_kept j s (tryUpdateProgressFromLog j logLine now s).
Proof.
  intros Hnd. unfold tryUpdateProgressFromLog.
  destruct (matching_stage logLine) as [stage|]; [|apply others_kept_refl].
  destruct (queue s !! j) as [job|] eqn:Hj; [|apply others_kept_refl].
  destruct (progress job <? snd stage); [|apply others_kept_refl].
  apply others_kept_raise; assumption.
Qed.

Lemma others_kept_appendLog j message now (s : State) :
  NoDup (ids s) -> others_kept j s (appendLog j message now s).
Proof.
  intros Hnd.
  destruct (decide (trim message = [])) as [Ht|Ht].
  { unfold appendLog. rewrite Ht. apply others_kept_refl. }
  destruct (queue s !! j) as [job|] eqn:Hj.
  - rewrite (appendLog_unfold j job message now s Hj Ht).
    pose proof (quiet_log_stored j job (trim message) now s) as Hq1.
    pose proof (quiet_tryParseDebugProgress j (trim message) now
                  (log_stored j job (trim message) now s)) as Hq2.
    eapply others_kept_trans; [|apply others_kept_tryUpdateProgressFromLog].
    + eapply others_kept_trans; [|apply others_kept_tryParseDebugProgress].
      * unfold log_stored. cbv zeta. apply others_kept_mutate.
      * rewrite (q_ids _ _ Hq1). exact Hnd.
    + rewrite (q_ids _ _ Hq2), (q_ids _ _ Hq1). exact Hnd.
  - unfold appendLog. rewrite Hj. destruct (trim message); apply others_kept_refl.
Qed.

(** *** A failed run *)

Lemma fail_job_quiet j errorMessage now (s : State) :
  quiet s (fail_job j errorMessage now s).
Proof.
  unfold fail_job. destruct (queue s !! j) as [job|]; [|apply quiet_refl].
  eapply quiet_trans; [|apply quiet_emit].
  eapply quiet_trans;
    [|destruct (queue _ !! j); [apply quiet_persist|apply quiet_refl]].
  eapply quiet_trans; [|apply quiet_appendLog].
  eapply quiet_trans; [|apply quiet_emitStatus].
  apply quiet_mutate. reflexivity.
Qed.

Lemma fail_job_others j errorMessage now (s : State) :
  NoDup (ids s) -> others_kept j s (fail_job j errorMessage now s).
Proof.
  intros Hnd. unfold fail_job.
  destruct (queue s !! j) as [job|] eqn:Hj; [|apply others_kept_refl].
  set (f := fun job0 : TranslationQueueItem =>
              set_updatedAt now (set_error (Some errorMessage)
                (set_progress 100 (set_status failed job0)))).
  assert (NoDup (ids (mutate j f s))) as Hnd1
    by (rewrite ids_mutate by reflexivity; exact Hnd).
  assert (queue (mutate j f s) !! j = Some (f job)) as Hj1
    by (rewrite lookup_mutate_eq, Hj; reflexivity).
  intros k Hk.
  change (queue (emitCompleted ?a ?b ?c ?d ?x) !! k) with (queue x !! k).
  transitivity (queue (appendLog j errorMessage now
                  (emitStatus (id job) failed (Some 100) now (mutate j f s))) !! k).
  { destruct (queue (appendLog _ _ _ _) !! j); reflexivity. }
  rewrite others_kept_appendLog;
    [|rewrite ids_emitStatus; exact Hnd1|exact Hk].
  etrans;
    [exact (others_kept_emitStatus _ j (f job) failed (Some 100) now Hnd1 Hj1 k Hk)|].
  apply lookup_mutate_ne. congruence.
Qed.

Lemma fail_job_at (j : nat) (job : TranslationQueueItem)
    (errorMessage now : jsstring) (s : State) :
  queue s !! j = Some job ->
  exists job',
    queue (fail_job j errorMessage now s) !! j = Some job'
    /\ id job' = id job /\ status job' = failed /\ progress job' = 100
    /\ error job' = Some errorMessage
    /\ exists pre,
         sink (fail_job j errorMessage now s)
         = sink s ++ pre
           ++ [CompletedPayload (id job) false None (Some errorMessage)].
Proof.
  intros Hj. unfold fail_job. rewrite Hj.
  set (f := fun job0 : TranslationQueueItem =>
              set_updatedAt now (set_error (Some errorMessage)
                (set_progress 100 (set_status failed job0)))).
  assert (queue (mutate j f s) !! j = Some (f job)) as Hj1
    by (rewrite lookup_mutate_eq, Hj; reflexivity).
  pose proof (emitStatus_at (id job) failed (Some 100) now _ j _ Hj1) as Hj2.
  set (s2 := emitStatus (id job) failed (Some 100) now (mutate j f s)) in *.
  set (job2 := if bool_decide _ then _ else _) in Hj2.
  assert (id job2 = id job /\ status job2 = failed /\ progress job2 = 100
          /\ error job2 = Some errorMessage) as (Hi2 & Hs2 & Hp2 & He2).
  { unfold job2. destruct (bool_decide _); repeat split; reflexivity. }
  destruct (appendLog_at j job2 errorMessage now s2 Hj2)
    as (job3 & Hj3 & Hc3 & _ & Hp3).
  apply core_fields in Hc3 as (Hi3 & Hs3 & He3 & _).
  exists job3. split.
  { change (queue (emitCompleted ?a ?b ?c ?d ?x) !! j) with (queue x !! j).
    rewrite Hj3. exact Hj3. }
  split; [congruence|]. split; [congruence|]. split.
  { rewrite Hp3, Hp2.
    pose proof (structured_progress_ge 100 (trim errorMessage)).
    pose proof (heuristic_progress_ge
                  (structured_progress 100 (trim errorMessage))
                  (trim errorMessage)). lia. }
  split; [congruence|].
  assert (quiet s (appendLog j errorMessage now s2)) as Hq.
  { eapply quiet_trans; [|apply quiet_appendLog].
    eapply quiet_trans; [|apply quiet_emitStatus].
    apply (quiet_mutate j f). reflexivity. }
  destruct (q_sink _ _ Hq) as [pre Hpre]. exists pre.
  rewrite Hj3. simpl. rewrite Hpre, <- app_assoc. reflexivity.
Qed.

(** *** The dispatch step *)

Lemma runJob_begin_spec (i : nat) (next : TranslationQueueItem)
    (now : jsstring) (s : State) :
  NoDup (ids s) -> queue s !! i = Some next ->
  processing (runJob_begin i now s) = processing s
  /\ (exists stage, flight (runJob_begin i now s) = Some (i, stage))
  /\ ids (runJob_begin i now s) = ids s
  /\ sink s `prefix_of` sink (runJob_begin i now s)
  /\ others_kept i s (runJob_begin i now s)
  /\ exists next',
       queue (runJob_begin i now s) !! i = Some next'
       /\ id next' = id next /\ status next' = running
       /\ progress next' = 0 /\ logs next' = [].
Proof.
  intros Hnd Hi.
  set (g := fun job0 : TranslationQueueItem =>
              set_updatedAt now (set_logs [] (set_status running job0))).
  set (s2 := emitStatus (id next) running (Some 0) now (mutate i g s)).
  assert (quiet s s2) as Hq.
  { eapply quiet_trans; [apply (quiet_mutate i g); reflexivity|].
    apply quiet_emitStatus. }
  assert (NoDup (ids (mutate i g s))) as Hnd1
    by (rewrite ids_mutate by reflexivity; exact Hnd).
  assert (queue (mutate i g s) !! i = Some (g next)) as Hi1
    by (rewrite lookup_mutate_eq, Hi; reflexivity).
  assert (others_kept i s s2) as Ho.
  { eapply others_kept_trans; [apply (others_kept_mutate i g)|].
    exact (others_kept_emitStatus _ i (g next) running (Some 0) now Hnd1 Hi1). }
  assert (queue s2 !! i = Some (status_update running (Some 0) now (g next))) as Hi2.
  { unfold s2.
    rewrite (emitStatus_at (id next) running (Some 0) now _ i _ Hi1).
    pose proof (find_job_unique _ i (g next) Hnd1 Hi1) as Hfound.
    change (id (g next)) with (id next) in Hfound.
    rewrite Hfound, bool_decide_eq_true_2 by done. reflexivity. }
  assert (exists h stage,
            runJob_begin i now s = with_flight (Some (i, stage)) (with_history h s2))
    as (h & stage & ->).
  { unfold runJob_begin. rewrite Hi. fold g. fold s2.
    unfold updateHistoryRecord.
    destruct (snd <$> list_find _ _); eauto. }
  split; [exact (q_processing _ _ Hq)|].
  split; [eauto|].
  split; [exact (q_ids _ _ Hq)|].
  split; [exact (q_sink _ _ Hq)|].
  split; [exact Ho|].
  eexists. split; [exact Hi2|]. repeat split; reflexivity.
Qed.

Lemma processNext_busy (now : jsstring) (s : State) :
  processing s = true -> processNext now s = s.
Proof. intros H. unfold processNext. rewrite H. reflexivity. Qed.

(** The dispatch step of an idle manager: it starts the first job whose
    status is [queued] and touches no other job; without such a job it only
    clears the flag. *)
Lemma processNext_idle (now : jsstring) (s : State) :
  NoDup (ids s) -> processing s = false ->
  ids (processNext now s) = ids s
  /\ sink s `prefix_of` sink (processNext now s)
  /\ match list_find (fun job => status job = queued) (queue s) with
     | None =>
         processing (processNext now s) = false
         /\ flight (processNext now s) = flight s
         /\ queue (processNext now s) = queue s
     | Some (i, next) =>
         processing (processNext now s) = true
         /\ (exists stage, flight (processNext now s) = Some (i, stage))
         /\ others_kept i s (processNext now s)
         /\ exists next',
              queue (processNext now s) !! i = Some next'
              /\ id next' = id next /\ status next' = running
              /\ progress next' = 0 /\ logs next' = []
     end.
Proof.
  intros Hnd Hidle. unfold processNext. rewrite Hidle.
  destruct (list_find _ (queue s)) as [[i next]|] eqn:Hfind.
  - apply list_find_Some in Hfind as (Hi & _ & _).
    destruct (runJob_begin_spec i next now (with_processing true s) Hnd Hi)
      as (Hp & Hf & Hids & Hsink & Ho & Hn).
    split; [exact Hids|]. split; [exact Hsink|].
    split; [exact Hp|]. split; [exact Hf|]. split; [exact Ho|]. exact Hn.
  - repeat split; reflexivity.
Qed.



(** *** A completed run *)

Lemma complete_job_quiet j now (s : State) : quiet s (complete_job j now s).
Proof.
  unfold complete_job. destruct (queue s !! j) as [job|]; [|apply quiet_refl].
  cbv zeta.
  eapply quiet_trans; [|apply quiet_emit].
  eapply quiet_trans;
    [|destruct (queue _ !! j); [apply quiet_persist|apply quiet_refl]].
  eapply quiet_trans; [|apply quiet_emitStatus].
  apply quiet_mutate. reflexivity.
Qed.

Lemma complete_job_others j now (s : State) :
  NoDup (ids s) -> others_kept j s (complete_job j now s).
Proof.
  intros Hnd. unfold complete_job.
  destruct (queue s !! j) as [job|] eqn:Hj; [|apply others_kept_refl].
  cbv zeta.
  set (f := fun job0 : TranslationQueueItem =>
              set_updatedAt now (set_error None
                (set_outputDir (Some (translationsDir s job))
                   (set_progress 100 (set_status awaiting_user job0))))).
  assert (NoDup (ids (mutate j f s))) as Hnd1
    by (rewrite ids_mutate by reflexivity; exact Hnd).
  assert (queue (mutate j f s) !! j = Some (f job)) as Hj1
    by (rewrite lookup_mutate_eq, Hj; reflexivity).
  intros k Hk.
  transitivity (queue (emitStatus (id job) awaiting_user (Some 100) now
                         (mutate j f s)) !! k).
  { destruct (queue (emitStatus _ _ _ _ _) !! j); reflexivity. }
  etrans;
    [exact (others_kept_emitStatus _ j (f job) awaiting_user (Some 100) now
              Hnd1 Hj1 k Hk)|].
  apply lookup_mutate_ne. congruence.
Qed.

Lemma complete_job_at (j : nat) (job : TranslationQueueItem) (now : jsstring)
    (s : State) :
  queue s !! j = Some job ->
  exists job',
    queue (complete_job j now s) !! j = Some job'
    /\ id job' = id job /\ status job' = awaiting_user /\ progress job' = 100
    /\ outputDir job' = Some (translationsDir s job) /\ error job' = None
    /\ sink (complete_job j now s)
       = sink s
         ++ [ StatusPayload (id job) awaiting_user (Some 100);
              CompletedPayload (id job) true (Some (translationsDir s job)) None ].
Proof.
  intros Hj. unfold complete_job. rewrite Hj. cbv zeta.
  set (dir := translationsDir s job).
  set (f := fun job0 : TranslationQueueItem =>
              set_updatedAt now (set_error None (set_outputDir (Some dir)
                (set_progress 100 (set_status awaiting_user job0))))).
  assert (queue (mutate j f s) !! j = Some (f job)) as Hj1
    by (rewrite lookup_mutate_eq, Hj; reflexivity).
  pose proof (emitStatus_at (id job) awaiting_user (Some 100) now _ j _ Hj1) as Hj2.
  set (s2 := emitStatus (id job) awaiting_user (Some 100) now (mutate j f s)) in *.
  set (job2 := if bool_decide _ then _ else _) in Hj2.
  rewrite Hj2.
  exists job2. split; [exact Hj2|].
  assert (id job2 = id job /\ status job2 = awaiting_user /\ progress job2 = 100
          /\ outputDir job2 = Some dir /\ error job2 = None)
    as (Hi & Hs & Hp & Ho & He).
  { unfold job2. destruct (bool_decide _); repeat split; reflexivity. }
  repeat (split; [assumption|]).
  unfold emitCompleted, emit, persist, with_history. cbn [sink].
  unfold s2. rewrite sink_emitStatus.
  unfold mutate, with_queue. cbn [sink].
  rewrite <- app_assoc. reflexivity.
Qed.

(** ** The end of a run *)


Lemma sample_ids_unique : NoDup (ids Sample.two_jobs).
Proof.
  apply (bool_decide_unpack (NoDup (ids Sample.two_jobs))).
  vm_compute. exact I.
Qed.



Lemma exitMessage_shape (code : option Z) :
  exitMessage code <> []
  /\ match code with
     | Some c => of_Z c
     | None => js "null"
     end `suffix_of` exitMessage code.
Proof.
  split; [discriminate|]. unfold exitMessage.
  rewrite !app_assoc. apply suffix_app_r. reflexivity.
Qed.





(** ** One job at a time *)

Lemma single_flight_quiet (s s' : State) :
  single_flight s -> quiet s s' ->
  (forall k job', queue s' !! k = Some job' -> status job' = running ->
                  exists job, queue s !! k = Some job /\ status job = running) ->
  single_flight s'.
Proof.
  intros [Hnd Hidle Hrun] Hq Hback. split.
  - rewrite (q_ids _ _ Hq). exact Hnd.
  - rewrite (q_processing _ _ Hq), (q_flight _ _ Hq). exact Hidle.
  - intros k job' Hk Hst. destruct (Hback k job' Hk Hst) as (job & Hk0 & Hst0).
    rewrite (q_flight _ _ Hq). eauto.
Qed.

(** The stage of the awaited run moves on. *)
Lemma single_flight_restage (s s' : State) (j : nat) (st st' : Stage) :
  single_flight s -> flight s = Some (j, st) ->
  queue s' = queue s -> processing s' = processing s ->
  flight s' = Some (j, st') ->
  single_flight s'.
Proof.
  intros [Hnd Hidle Hrun] Hfl Hq Hp Hfl'. split.
  - unfold ids. rewrite Hq. exact Hnd.
  - rewrite Hp. intros H. apply Hidle in H. congruence.
  - intros k job Hk Hst. rewrite Hq in Hk.
    destruct (Hrun k job Hk Hst) as [stage Hstage].
    rewrite Hfl' . exists st'. congruence.
Qed.

(** An idle manager that awaits nothing and has no running job dispatches
    into a state with the invariant. *)
Lemma single_flight_dispatch (now : jsstring) (s : State) :
  NoDup (ids s) -> processing s = false -> flight s = None ->
  (forall k job, queue s !! k = Some job -> status job <> running) ->
  single_flight (processNext now s).
Proof.
  intros Hnd Hidle Hfl Hnone.
  destruct (processNext_idle now s Hnd Hidle) as (Hids & _ & Hcase).
  destruct (list_find _ (queue s)) as [[i next]|].
  - destruct Hcase as (Hp & [stage Hst] & Ho & next' & Hn & _).
    split.
    + rewrite Hids. exact Hnd.
    + rewrite Hp. discriminate.
    + intros k job Hk Hrun. destruct (decide (k = i)) as [->|Hne]; [eauto|].
      rewrite Ho in Hk by exact Hne. destruct (Hnone k job Hk Hrun).
  - destruct Hcase as (Hp & Hfl' & Hq). split.
    + rewrite Hids. exact Hnd.
    + intros _. rewrite Hfl'. exact Hfl.
    + intros k job Hk Hrun. rewrite Hq in Hk. destruct (Hnone k job Hk Hrun).
Qed.

Lemma single_flight_settle (j : nat) (now : jsstring) (s : State) :
  single_flight s ->
  (forall job, queue s !! j = Some job -> status job <> running) ->
  single_flight (settle j now s).
Proof.
  intros Hsf Hj. unfold settle.
  destruct (flight s) as [[k [| |]]|] eqn:Hfl; try exact Hsf.
  case_bool_decide as Hk; [subst k|exact Hsf].
  unfold runJob_settled. apply single_flight_dispatch; try reflexivity.
  - exact (sf_ids _ Hsf).
  - intros k job Hkq Hrun.
    destruct (sf_running _ Hsf k job Hkq Hrun) as [stage Hstage].
    rewrite Hfl in Hstage. injection Hstage as -> _.
    exact (Hj job Hkq Hrun).
Qed.

Lemma appendLog_absent j message now (s : State) :
  queue s !! j = None -> appendLog j message now s = s.
Proof.
  intros H. unfold appendLog. rewrite H. destruct (trim message); reflexivity.
Qed.

Lemma single_flight_appendLog j message now (s : State) :
  single_flight s -> single_flight (appendLog j message now s).
Proof.
  intros Hsf. destruct (queue s !! j) as [job|] eqn:Hj.
  - apply (single_flight_quiet s); [exact Hsf|apply quiet_appendLog|].
    intros k job' Hk Hrun. destruct (decide (k = j)) as [->|Hne].
    + destruct (appendLog_at j job message now s Hj) as (job'' & H'' & Hc & _).
      rewrite H'' in Hk. injection Hk as <-.
      apply core_fields in Hc as (_ & Hst & _). exists job. split; congruence.
    + rewrite (others_kept_appendLog j message now s (sf_ids _ Hsf)) in Hk
        by exact Hne. eauto.
  - rewrite appendLog_absent by exact Hj. exact Hsf.
Qed.

Lemma single_flight_fail_job j errorMessage now (s : State) :
  single_flight s ->
  single_flight (fail_job j errorMessage now s)
  /\ forall job, queue (fail_job j errorMessage now s) !! j = Some job ->
                 status job <> running.
Proof.
  intros Hsf. destruct (queue s !! j) as [job|] eqn:Hj.
  - destruct (fail_job_at j job errorMessage now s Hj)
      as (job5 & Hj5 & _ & Hs5 & _).
    split.
    + apply (single_flight_quiet s); [exact Hsf|apply fail_job_quiet|].
      intros k job' Hk Hrun. destruct (decide (k = j)) as [->|Hne].
      * rewrite Hj5 in Hk. injection Hk as <-. congruence.
      * rewrite (fail_job_others j errorMessage now s (sf_ids _ Hsf)) in Hk
          by exact Hne. eauto.
    + intros job' Hk. rewrite Hj5 in Hk. injection Hk as <-.
      rewrite Hs5. discriminate.
  - unfold fail_job. rewrite Hj. split; [exact Hsf|]. intros job. congruence.
Qed.

Lemma single_flight_complete_job j now (s : State) :
  single_flight s ->
  single_flight (complete_job j now s)
  /\ forall job, queue (complete_job j now s) !! j = Some job ->
                 status job <> running.
Proof.
  intros Hsf. destruct (queue s !! j) as [job|] eqn:Hj.
  - destruct (complete_job_at j job now s Hj) as (job4 & Hj4 & _ & Hs4 & _).
    split.
    + apply (single_flight_quiet s); [exact Hsf|apply complete_job_quiet|].
      intros k job' Hk Hrun. destruct (decide (k = j)) as [->|Hne].
      * rewrite Hj4 in Hk. injection Hk as <-. congruence.
      * rewrite (complete_job_others j now s (sf_ids _ Hsf)) in Hk
          by exact Hne. eauto.
    + intros job' Hk. rewrite Hj4 in Hk. injection Hk as <-.
      rewrite Hs4. discriminate.
  - unfold complete_job. rewrite Hj. split; [exact Hsf|]. intros job. congruence.
Qed.

Lemma single_flight_markJobSaved jobId savePath_ now (s : State) :
  single_flight s -> single_flight (fst (markJobSaved jobId savePath_ now s)).
Proof.
  intros Hsf. unfold markJobSaved.
  destruct (find_job jobId s) as [i|]; [|exact Hsf]. cbn [fst].
  set (f := fun job0 : TranslationQueueItem =>
              set_updatedAt now (set_error None (set_savePath (Some savePath_)
                (set_progress 100 (set_status success job0))))).
  apply (single_flight_quiet s); [exact Hsf| |].
  { eapply quiet_trans; [apply (quiet_mutate i f); reflexivity|].
    apply quiet_emitStatus. }
  intros k job' Hk Hrun.
  destruct (queue (mutate i f s) !! k) as [job1|] eqn:Hk1.
  - rewrite (emitStatus_at _ _ _ _ _ _ _ Hk1) in Hk. injection Hk as <-.
    destruct (bool_decide _); [discriminate Hrun|].
    destruct (decide (i = k)) as [->|Hne].
    + rewrite lookup_mutate_eq in Hk1.
      destruct (queue s !! k); [|discriminate].
      injection Hk1 as <-. discriminate Hrun.
    + rewrite lookup_mutate_ne in Hk1 by exact Hne. eauto.
  - rewrite queue_emitStatus in Hk.
    destruct (find_job jobId (mutate i f s)) as [i'|].
    + destruct (decide (i' = k)) as [->|Hne].
      * rewrite list_lookup_alter_eq, Hk1 in Hk. discriminate.
      * rewrite list_lookup_alter_ne, Hk1 in Hk by exact Hne. discriminate.
    + rewrite Hk1 in Hk. discriminate.
Qed.

Lemma single_flight_enqueue jobInput uuid now (s : State) :
  single_flight s -> uuid ∉ ids s ->
  single_flight (fst (enqueue jobInput uuid now s)).
Proof.
  intros Hsf Hfresh. unfold enqueue. cbv zeta. cbn [fst].
  set (item := {| id := uuid; status := queued |}).
  set (s1 := with_queue (queue s ++ [item]) s).
  assert (single_flight s1) as Hsf1.
  { split.
    - unfold ids, s1. cbn [queue with_queue]. rewrite fmap_app.
      apply NoDup_app. split; [exact (sf_ids _ Hsf)|]. split.
      + intros x Hx Hin. apply list_elem_of_singleton in Hin. subst x.
        exact (Hfresh Hx).
      + apply NoDup_singleton.
    - exact (sf_idle _ Hsf).
    - intros k job Hk Hrun. unfold s1 in Hk. cbn [queue with_queue] in Hk.
      apply lookup_app_Some in Hk as [Hk|[_ Hk]].
      + exact (sf_running _ Hsf k job Hk Hrun).
      + apply list_lookup_singleton_Some in Hk as [_ <-]. discriminate Hrun. }
  set (s2 := emitStatus uuid queued (Some 0) now s1).
  assert (single_flight s2) as Hsf2.
  { apply (single_flight_quiet s1); [exact Hsf1|apply quiet_emitStatus|].
    intros k job' Hk Hrun.
    destruct (queue s1 !! k) as [job1|] eqn:Hk1.
    - unfold s2 in Hk. rewrite (emitStatus_at _ _ _ _ _ _ _ Hk1) in Hk.
      injection Hk as <-. destruct (bool_decide _); [discriminate Hrun|eauto].
    - unfold s2 in Hk. rewrite queue_emitStatus in Hk.
      destruct (find_job uuid s1) as [i'|].
      + destruct (decide (i' = k)) as [->|Hne].
        * rewrite list_lookup_alter_eq, Hk1 in Hk. discriminate.
        * rewrite list_lookup_alter_ne, Hk1 in Hk by exact Hne. discriminate.
      + rewrite Hk1 in Hk. discriminate. }
  destruct (processing s2) eqn:Hp.
  - rewrite processNext_busy by exact Hp. exact Hsf2.
  - apply single_flight_dispatch.
    + exact (sf_ids _ Hsf2).
    + exact Hp.
    + exact (sf_idle _ Hsf2 Hp).
    + intros k job Hk Hrun.
      destruct (sf_running _ Hsf2 k job Hk Hrun) as [stage Hstage].
      rewrite (sf_idle _ Hsf2 Hp) in Hstage. discriminate.
Qed.

Lemma single_flight_step (s : State) (te : jsstring * Event) :
  single_flight s -> admissible s (snd te) -> single_flight (step s te).
Proof.
  intros Hsf Hadm. destruct te as [now e]. unfold step. cbn [fst snd] in *.
  destruct e as [jobInput uuid|jobId savePath_|insight|babeldocPath|
                 |j chunk|j chunk|j code|j message].
  - apply single_flight_enqueue; assumption.
  - apply single_flight_markJobSaved, Hsf.
  - unfold runJob_insight.
    destruct (flight s) as [[j [| |]]|] eqn:Hfl; try exact Hsf.
    destruct (queue s !! j); [|exact Hsf].
    eapply (single_flight_restage s); [exact Hsf|exact Hfl|reflexivity..].
  - unfold runJob_spawn.
    destruct (flight s) as [[j [|read|]]|] eqn:Hfl; try exact Hsf.
    destruct (queue s !! j) as [job|]; [|exact Hsf]. cbv zeta.
    set (s1 := appendLog j _ now s).
    assert (quiet s s1) as Hq by apply quiet_appendLog.
    eapply (single_flight_restage s1);
      [apply single_flight_appendLog, Hsf
      |rewrite (q_flight _ _ Hq); exact Hfl|reflexivity..].
  - destruct Hadm.
  - apply single_flight_appendLog, Hsf.
  - apply single_flight_appendLog, Hsf.
  - unfold onClose. destruct (queue s !! j); [|exact Hsf].
    case_bool_decide.
    + destruct (single_flight_complete_job j now s Hsf) as [H1 H2].
      apply single_flight_settle; assumption.
    + destruct (single_flight_fail_job j (exitMessage code) now s Hsf) as [H1 H2].
      apply single_flight_settle; assumption.
  - unfold onError. destruct (queue s !! j); [|exact Hsf].
    destruct (single_flight_fail_job j message now s Hsf) as [H1 H2].
    apply single_flight_settle; assumption.
Qed.

Lemma filter_none {A} (P : A -> Prop) `{!forall x, Decision (P x)} (l : list A) :
  Forall (fun x => ~ P x) l -> filter P l = [].
Proof.
  induction 1 as [|x l Hx _ IH]; [reflexivity|].
  rewrite filter_cons_False by exact Hx. exact IH.
Qed.

Lemma at_most_one_satisfies {A} (P : A -> Prop) `{!forall x, Decision (P x)}
    (l : list A) :
  (forall i j x y, l !! i = Some x -> l !! j = Some y -> P x -> P y -> i = j) ->
  (length (filter P l) <= 1)%nat.
Proof.
  induction l as [|a l IH]; intros Huniq; [simpl; lia|].
  destruct (decide (P a)) as [Ha|Ha].
  - rewrite filter_cons_True by exact Ha.
    rewrite filter_none; [simpl; lia|].
    apply Forall_lookup. intros j y Hj Hy.
    discriminate (Huniq 0%nat (S j) a y eq_refl Hj Ha Hy).
  - rewrite filter_cons_False by exact Ha. apply IH.
    intros i j x y Hi Hj Hx Hy.
    pose proof (Huniq (S i) (S j) x y Hi Hj Hx Hy). lia.
Qed.

(** Single flight. From a manager just constructed, through any events in
    which the ids of new jobs are fresh and no setup step of a run is
    rejected, the invariant holds, and so at most one job is [running]. *)
Lemma single_flight_reachable (cfg : AppSettings) (dir : jsstring)
    (h : list TranslationRecord) (s : State) :
  reachable (fresh cfg dir h) s ->
  single_flight s /\ (running_jobs s <= 1)%nat.
Proof.
  intros Hreach.
  assert (single_flight s) as Hsf.
  { induction Hreach as [|s te _ IH Hadm].
    - split; [apply NoDup_nil_2|reflexivity|].
      intros k job Hk. discriminate Hk.
    - apply single_flight_step; assumption. }
  split; [exact Hsf|].
  unfold running_jobs. apply at_most_one_satisfies.
  intros i j x y Hi Hj Hx Hy.
  destruct (sf_running _ Hsf i x Hi Hx) as [st1 H1].
  destruct (sf_running _ Hsf j y Hj Hy) as [st2 H2].
  congruence.
Qed.

(** C1. The claim is that at most one job is [running] at any instant. After
    the events of [rejected_setup] the first job still has status [running]
    (nothing on the path of a rejected setup sets it to [failed]), the flag
    has been cleared, and the second job has been dispatched: two jobs are
    [running]. Up to the rejection the dispatch is as claimed: one job runs,
    the first one, and the second waits. *)
Theorem rejected_setup_leaves_two_running :
  statuses (run Sample.start (take 3 rejected_setup)) = [running; queued]
  /\ running_jobs (run Sample.start (take 3 rejected_setup)) = 1%nat
  /\ statuses (run Sample.start rejected_setup) = [running; running]
  /\ running_jobs (run Sample.start rejected_setup) = 2%nat
  /\ error <$> queue (run Sample.start rejected_setup) = [None; None]
  /\ processing (run Sample.start rejected_setup) = true
  /\ flight (run Sample.start rejected_setup) = Some (1%nat, AwaitInsight).
Proof.
  split; [|split].
  - (* before the rejection: the first job runs, the second waits *)
    vm_compute. reflexivity.
  - vm_compute. reflexivity.
  - (* after it: both have status [running], and neither is marked *)
    repeat apply conj; vm_compute; reflexivity.
Qed.

(** ** The log bound in every reachable state *)

Lemma length_push_log (t : jsstring) (l : list jsstring) :
  (length (push_log t l) <= 500)%nat.
Proof. rewrite push_log_lastn, length_lastn. lia. Qed.

Lemma logs_bounded_same (s s' : State) :
  queue s' = queue s -> logs_bounded s -> logs_bounded s'.
Proof. intros Hq H k job Hk. rewrite Hq in Hk. exact (H k job Hk). Qed.

Lemma logs_bounded_mutate j f (s : State) :
  (forall job, (length (logs job) <= 500)%nat ->
               (length (logs (f job)) <= 500)%nat) ->
  logs_bounded s -> logs_bounded (mutate j f s).
Proof.
  intros Hf H k job Hk. destruct (decide (j = k)) as [->|Hne].
  - rewrite lookup_mutate_eq in Hk.
    destruct (queue s !! k) as [job0|] eqn:Hk0; [|discriminate].
    injection Hk as <-. exact (Hf job0 (H k job0 Hk0)).
  - rewrite lookup_mutate_ne in Hk by exact Hne. exact (H k job Hk).
Qed.

Lemma logs_bounded_emitStatus jid st pr now (s : State) :
  logs_bounded s -> logs_bounded (emitStatus jid st pr now s).
Proof.
  intros H k job Hk. rewrite queue_emitStatus in Hk.
  destruct (find_job jid s) as [i|]; [|exact (H k job Hk)].
  apply (logs_bounded_mutate i (status_update st pr now) s) with (k := k);
    [|exact H|exact Hk].
  intros job0 Hb. destruct pr; exact Hb.
Qed.

Lemma logs_bounded_tryParseDebugProgress j logLine now (s : State) :
  logs_bounded s -> logs_bounded (tryParseDebugProgress j logLine now s).
Proof.
  intros H. unfold tryParseDebugProgress.
  destruct (match_overall_progress logLine); [|exact H].
  cbv zeta. destruct (queue s !! j) as [job|]; [|exact H].
  destruct (gt _ _ && le _ _); [|exact H].
  destruct (to_Z _) as [p|]; [|exact H].
  apply logs_bounded_emitStatus, logs_bounded_mutate; [|exact H].
  intros job0 Hb. exact Hb.
Qed.

Lemma logs_bounded_tryUpdateProgressFromLog j logLine now (s : State) :
  logs_bounded s -> logs_bounded (tryUpdateProgressFromLog j logLine now s).
Proof.
  intros H. unfold tryUpdateProgressFromLog.
  destruct (matching_stage logLine) as [stage|]; [|exact H].
  destruct (queue s !! j) as [job|]; [|exact H].
  destruct (progress job <? snd stage); [|exact H].
  apply logs_bounded_emitStatus, logs_bounded_mutate; [|exact H].
  intros job0 Hb. exact Hb.
Qed.

Lemma logs_bounded_appendLog j message now (s : State) :
  logs_bounded s -> logs_bounded (appendLog j message now s).
Proof.
  intros H. destruct (decide (trim message = [])) as [Ht|Ht].
  { unfold appendLog. rewrite Ht. exact H. }
  destruct (queue s !! j) as [job|] eqn:Hj.
  - rewrite (appendLog_unfold j job message now s Hj Ht).
    apply logs_bounded_tryUpdateProgressFromLog,
          logs_bounded_tryParseDebugProgress.
    unfold log_stored. cbv zeta.
    eapply logs_bounded_same;
      [|apply (logs_bounded_mutate j
                 (fun job0 => set_updatedAt now
                    (set_logs (push_log (trim message) (logs job)) job0)) s);
        [|exact H]].
    + reflexivity.
    + intros job0 _. apply length_push_log.
  - rewrite appendLog_absent by exact Hj. exact H.
Qed.

Lemma logs_bounded_fail_job j errorMessage now (s : State) :
  logs_bounded s -> logs_bounded (fail_job j errorMessage now s).
Proof.
  intros H. unfold fail_job. destruct (queue s !! j) as [job|]; [|exact H].
  cbv zeta.
  set (s3 := appendLog j errorMessage now _).
  assert (logs_bounded s3) as H3.
  { apply logs_bounded_appendLog, logs_bounded_emitStatus, logs_bounded_mutate;
      [|exact H].
    intros job0 Hb. exact Hb. }
  apply (logs_bounded_same s3); [|exact H3].
  destruct (queue s3 !! j); reflexivity.
Qed.

Lemma logs_bounded_complete_job j now (s : State) :
  logs_bounded s -> logs_bounded (complete_job j now s).
Proof.
  intros H. unfold complete_job. destruct (queue s !! j) as [job|]; [|exact H].
  cbv zeta.
  set (s2 := emitStatus (id job) awaiting_user (Some 100) now _).
  assert (logs_bounded s2) as H2.
  { apply logs_bounded_emitStatus, logs_bounded_mutate; [|exact H].
    intros job0 Hb. exact Hb. }
  apply (logs_bounded_same s2); [|exact H2].
  destruct (queue s2 !! j); reflexivity.
Qed.

Lemma logs_bounded_runJob_begin i now (s : State) :
  logs_bounded s -> logs_bounded (runJob_begin i now s).
Proof.
  intros H. unfold runJob_begin. destruct (queue s !! i) as [job|]; [|exact H].
  cbv zeta.
  set (s2 := emitStatus (id job) running (Some 0) now _).
  assert (logs_bounded s2) as H2.
  { apply logs_bounded_emitStatus, logs_bounded_mutate; [|exact H].
    intros job0 _. simpl. lia. }
  unfold updateHistoryRecord.
  apply (logs_bounded_same s2); [|exact H2].
  destruct (snd <$> list_find _ _); reflexivity.
Qed.

Lemma logs_bounded_processNext now (s : State) :
  logs_bounded s -> logs_bounded (processNext now s).
Proof.
  intros H. unfold processNext. destruct (processing s); [exact H|].
  destruct (list_find _ (queue s)) as [[i next]|]; [|exact H].
  apply logs_bounded_runJob_begin. exact H.
Qed.

Lemma logs_bounded_settle j now (s : State) :
  logs_bounded s -> logs_bounded (settle j now s).
Proof.
  intros H. unfold settle.
  destruct (flight s) as [[k [| |]]|]; try exact H.
  destruct (bool_decide (k = j)); [|exact H].
  apply logs_bounded_processNext. exact H.
Qed.

Lemma logs_bounded_step (s : State) (te : jsstring * Event) :
  logs_bounded s -> logs_bounded (step s te).
Proof.
  intros H. destruct te as [now e]. unfold step. cbn [fst snd].
  destruct e as [jobInput uuid|jobId savePath_|insight|babeldocPath|
                 |j chunk|j chunk|j code|j message].
  - unfold enqueue. cbv zeta. cbn [fst].
    apply logs_bounded_processNext, logs_bounded_emitStatus.
    intros k job Hk. cbn [queue with_queue] in Hk.
    apply lookup_app_Some in Hk as [Hk|[_ Hk]]; [exact (H k job Hk)|].
    apply list_lookup_singleton_Some in Hk as [_ <-]. apply Nat.le_0_l.
  - unfold markJobSaved. destruct (find_job jobId s) as [i|]; [|exact H].
    cbn [fst]. apply logs_bounded_emitStatus, logs_bounded_mutate; [|exact H].
    intros job0 Hb. exact Hb.
  - unfold runJob_insight.
    destruct (flight s) as [[j [| |]]|]; try exact H.
    destruct (queue s !! j); exact H.
  - unfold runJob_spawn.
    destruct (flight s) as [[j [|read|]]|]; try exact H.
    destruct (queue s !! j) as [job|]; [|exact H]. cbv zeta.
    eapply logs_bounded_same; [|apply logs_bounded_appendLog; exact H].
    reflexivity.
  - unfold runJob_rejected.
    destruct (flight s) as [[j [| |]]|]; try exact H;
      apply logs_bounded_processNext; exact H.
  - apply logs_bounded_appendLog. exact H.
  - apply logs_bounded_appendLog. exact H.
  - unfold onClose. destruct (queue s !! j); [|exact H].
    destruct (bool_decide _); apply logs_bounded_settle.
    + apply logs_bounded_complete_job. exact H.
    + apply logs_bounded_fail_job. exact H.
  - unfold onError. destruct (queue s !! j); [|exact H].
    apply logs_bounded_settle, logs_bounded_fail_job. exact H.
Qed.

(** Whatever happens to a manager, in whatever order, no job of its queue ever
    holds more than 500 log entries. *)
Lemma logs_bounded_run (cfg : AppSettings) (dir : jsstring)
    (h : list TranslationRecord) (trace : list (jsstring * Event)) :
  logs_bounded (run (fresh cfg dir h) trace).
Proof.
  unfold run.
  assert (logs_bounded (fresh cfg dir h)) as H0.
  { intros k job Hk. discriminate Hk. }
  revert H0. generalize (fresh cfg dir h).
  induction trace as [|te trace IH]; intros s H; simpl; [exact H|].
  apply IH, logs_bounded_step, H.
Qed.

Example mostly_blank_leaves_three_entries :
  length mostly_blank = 501%nat
  /\ (fun job => length (logs job))
       <$> queue (append_all 0 mostly_blank Sample.two_jobs) !! 0%nat
     = Some 3%nat.
Proof. by_computation. Qed.

(** C7, as stated, fails: a message that is empty after trimming is not
    stored, so after 501 messages of which 499 are empty the buffer holds
    three entries (the command line and the two texts), not 500. *)
Lemma blank_messages_do_not_fill_the_buffer :
  ~ holds_500_after_more_than_500_messages.
Proof.
  intros H.
  destruct sample_first_job as (job & Hjob & _ & _ & Hlen).
  destruct mostly_blank_leaves_three_entries as (Hmany & Hrun).
  destruct (H Sample.two_jobs 0%nat job mostly_blank Hjob)
    as (job' & Hj' & Hfull & _).
  - rewrite Hlen. lia.
  - rewrite Hmany. lia.
  - rewrite Hj' in Hrun. cbn in Hrun. injection Hrun as Hrun.
    rewrite Hfull in Hrun. discriminate Hrun.
Qed.

(** C7, amended. In every state a manager can be in, every job holds at most
    500 log entries. A message that is empty after trimming is not stored and
    does not count; the others are stored trimmed. However many messages are
    then appended to a job, its buffer afterwards is the last 500 entries of
    the old buffer followed by the messages stored, in the order of the
    calls; so it holds the smaller of 500 and the number of old entries and
    stored messages, and once more than 500 messages have been stored it
    holds exactly the 500 most recent of them. *)
Theorem logs_keep_the_last_500
    (cfg : AppSettings) (dir : jsstring) (h : list TranslationRecord)
    (trace : list (jsstring * Event))
    (j : nat) (job : TranslationQueueItem)
    (messages : list (jsstring * jsstring)) :
  queue (run (fresh cfg dir h) trace) !! j = Some job ->
  (length (logs job) <= 500)%nat
  /\ exists job',
      queue (append_all j messages (run (fresh cfg dir h) trace)) !! j = Some job'
      /\ logs job' = lastn 500 (logs job ++ kept messages)
      /\ length (logs job')
         = Nat.min 500 (length (logs job) + length (kept messages))
      /\ (length (logs job') <= 500)%nat
      /\ ((500 < length (kept messages))%nat ->
          length (logs job') = 500%nat /\ logs job' = lastn 500 (kept messages)).
Proof.
  intros Hj.
  pose proof (logs_bounded_run cfg dir h trace j job Hj) as Hlen.
  split; [exact Hlen|].
  destruct (append_all_at j messages _ job Hj Hlen) as (job' & H' & Hl').
  exists job'. split; [exact H'|]. split; [exact Hl'|]. split; [|split].
  - rewrite Hl', length_lastn, length_app. reflexivity.
  - rewrite Hl', length_lastn. lia.
  - intros Hmany. split.
    + rewrite Hl', length_lastn, length_app. lia.
    + rewrite Hl'. apply lastn_app_long. lia.
Qed.

Lemma logs_keep_the_last_500_witness :
  exists job, queue Sample.two_jobs !! 0%nat = Some job
  /\ (length (logs job) <= 500)%nat
  /\ exists job',
    let messages := [(js "one", js "T5"); (js "  ", js "T6"); (js " two ", js "T7")] in
    queue (append_all 0 messages Sample.two_jobs) !! 0%nat = Some job'
    /\ logs job' = lastn 500 (logs job ++ kept messages)
    /\ length (logs job')
       = Nat.min 500 (length (logs job) + length (kept messages))
    /\ (length (logs job') <= 500)%nat
    /\ ((500 < length (kept messages))%nat ->
        length (logs job') = 500%nat /\ logs job' = lastn 500 (kept messages)).
Proof.
  destruct sample_first_job as (job & Hjob & _).
  exists job. split; [exact Hjob|].
  exact (logs_keep_the_last_500 Sample.cfg (js "/data") [] Sample.trace
           0%nat job
           [(js "one", js "T5"); (js "  ", js "T6"); (js " two ", js "T7")]
           Hjob).
Defined.

(** ** The scenarios of the specification *)

(** A structured value of 74.8 followed by a stage line worth 60 leaves the
    progress at 75. *)
Example structured_75_then_stage_60 :
  progress <$> queue (feed 0 [ (js "{'overall_progress': 74.8}", js "T5");
                              (js "Translate Paragraphs (1/9)", js "T6") ]
                        Sample.two_jobs) !! 0%nat = Some 75.
Proof. by_computation. Qed.

(** Exit code 0, then [markJobSaved]: the job awaits the user and is then a
    success with the path given; a second call leaves the jobs as they
    are. *)
Example exit_0_then_saved :
  let s1 := onClose 0 (Some 0) (js "T5") Sample.two_jobs in
  let s2 := fst (markJobSaved (js "A") (js "/dest") (js "T6") s1) in
  (fun job => (status job, progress job, outputDir job, error job))
    <$> queue s1 !! 0%nat
  = Some (awaiting_user, 100, Some (js "/data/translations/A"), None)
  /\ (fun job => (status job, progress job, savePath job, error job))
       <$> queue s2 !! 0%nat
     = Some (success, 100, Some (js "/dest"), None)
  /\ queue (fst (markJobSaved (js "A") (js "/dest") (js "T6") s2)) = queue s2.
Proof. cbv zeta. by_computation. Qed.

(** Job A exits with code 1: it has failed with an error that names the
    code, and job B is running. *)
Example exit_1_then_next :
  let s1 := onClose 0 (Some 1) (js "T5") Sample.two_jobs in
  statuses s1 = [failed; running]
  /\ error <$> queue s1 !! 0%nat = Some (Some (exitMessage (Some 1)))
  /\ of_Z 1 `suffix_of` exitMessage (Some 1).
Proof.
  cbv zeta. repeat apply conj; try (vm_compute; reflexivity).
  apply exitMessage_shape.
Qed.

(** 501 messages on a buffer that holds the command line: the buffer then
    holds the last 500 of the messages. *)
Example buffer_after_501_messages :
  let messages := (fun n => (js "line " ++ of_Z n, js "T5")) <$> seqZ 1 501 in
  logs <$> queue (append_all 0 messages Sample.two_jobs) !! 0%nat
  = Some (fst <$> drop 1 messages).
Proof. by_computation. Qed.

(** * The code around the manager: properties *)

(** ** The history store *)

Lemma ids_updateHistoryRecord (jid : jsstring) (data : Patch) (now : jsstring)
    (h : list TranslationRecord) :
  r_id <$> fst (updateHistoryRecord jid data now h) = r_id <$> h.
Proof.
  unfold updateHistoryRecord; cbn [fst].
  rewrite <- list_fmap_compose. apply list_fmap_ext.
  intros i record _. cbn. case_bool_decide; reflexivity.
Qed.

Lemma updateHistoryRecord_absent (jid : jsstring) (data : Patch) (now : jsstring)
    (h : list TranslationRecord) :
  jid ∉ r_id <$> h -> updateHistoryRecord jid data now h = (h, None).
Proof.
  intros Habsent.
  assert (Hsame : (fun record => if bool_decide (r_id record = jid)
                                 then merge record data now else record) <$> h = h).
  { induction h as [|record h IH]; [reflexivity|].
    cbn. rewrite fmap_cons in Habsent.
    apply not_elem_of_cons in Habsent as [Hne Hrest].
    rewrite bool_decide_false by congruence.
    f_equal. exact (IH Hrest). }
  unfold updateHistoryRecord. rewrite Hsame. f_equal.
  destruct (list_find _ h) as [[i record]|] eqn:Hfind; [|reflexivity].
  apply list_find_Some in Hfind as (Hi & Hid & _).
  exfalso. apply Habsent. rewrite <- Hid.
  apply list_elem_of_fmap_2, (list_elem_of_lookup_2 _ i), Hi.
Qed.

Lemma updateHistoryRecord_lookup (jid : jsstring) (data : Patch) (now : jsstring)
    (h : list TranslationRecord) (i : nat) :
  fst (updateHistoryRecord jid data now h) !! i
  = (fun record => if bool_decide (r_id record = jid)
                   then merge record data now else record) <$> h !! i.
Proof. unfold updateHistoryRecord; cbn [fst]. apply list_lookup_fmap. Qed.

Lemma updateHistoryRecord_result (jid : jsstring) (data : Patch) (now : jsstring)
    (h : list TranslationRecord) :
  snd (updateHistoryRecord jid data now h)
  = (fun record => merge record data now)
      <$> (snd <$> list_find (fun record => r_id record = jid) h).
Proof.
  unfold updateHistoryRecord; cbn [snd].
  rewrite list_find_fmap.
  rewrite (list_find_ext _ (fun record => r_id record = jid)).
  2:{ intros record. cbn. case_bool_decide; cbn; [tauto | tauto]. }
  destruct (list_find _ h) as [[i record]|] eqn:Hfind; [|reflexivity].
  apply list_find_Some in Hfind as (_ & Hid & _).
  cbn. rewrite bool_decide_true by exact Hid. reflexivity.
Qed.

(** X1. [updateHistoryRecord] never adds, drops or reorders a record: the ids
    of the store stay as they are, a record with another id is not touched,
    and on an id that the store does not hold the store is unchanged and the
    result is [null]; on an id that it holds the result is the first record
    of that id with the patch laid over it. *)
Theorem updateHistoryRecord_updates_in_place (jid : jsstring) (data : Patch)
    (now : jsstring) (h : list TranslationRecord) :
  r_id <$> fst (updateHistoryRecord jid data now h) = r_id <$> h
  /\ (forall i record, h !! i = Some record -> r_id record <> jid ->
        fst (updateHistoryRecord jid data now h) !! i = Some record)
  /\ (forall i record, h !! i = Some record -> r_id record = jid ->
        fst (updateHistoryRecord jid data now h) !! i
        = Some (merge record data now))
  /\ (jid ∉ r_id <$> h -> updateHistoryRecord jid data now h = (h, None))
  /\ (forall i record,
        list_find (fun record => r_id record = jid) h = Some (i, record) ->
        snd (updateHistoryRecord jid data now h) = Some (merge record data now)).
Proof.
  split; [apply ids_updateHistoryRecord|].
  split.
  { intros i record Hi Hne. rewrite updateHistoryRecord_lookup, Hi. cbn.
    rewrite bool_decide_false by exact Hne. reflexivity. }
  split.
  { intros i record Hi Heq. rewrite updateHistoryRecord_lookup, Hi. cbn.
    rewrite bool_decide_true by exact Heq. reflexivity. }
  split; [apply updateHistoryRecord_absent|].
  intros i record Hfind. rewrite updateHistoryRecord_result, Hfind. reflexivity.
Qed.

(** X2. [removeHistoryRecord] removes every record of the id and nothing
    else: what is left are the records of other ids in their order; removing
    an id that the store does not hold changes nothing, and so does removing
    the same id again. *)
Theorem removeHistoryRecord_removes_the_id (jid : jsstring)
    (h : list TranslationRecord) :
  (jid ∉ r_id <$> removeHistoryRecord jid h)
  /\ (forall record, record ∈ removeHistoryRecord jid h
                     <-> record ∈ h /\ r_id record <> jid)
  /\ (removeHistoryRecord jid h) `sublist_of` h
  /\ (jid ∉ r_id <$> h -> removeHistoryRecord jid h = h)
  /\ removeHistoryRecord jid (removeHistoryRecord jid h) = removeHistoryRecord jid h.
Proof.
  unfold removeHistoryRecord.
  split.
  { intros Hin. apply list_elem_of_fmap in Hin as (record & Hid & Hin).
    apply list_elem_of_filter in Hin as [Hne _]. congruence. }
  split.
  { intros record. rewrite list_elem_of_filter. tauto. }
  split; [apply sublist_filter|].
  split.
  { intros Habsent. induction h as [|record h IH]; [reflexivity|].
    rewrite fmap_cons in Habsent.
    apply not_elem_of_cons in Habsent as [Hne Hrest].
    rewrite filter_cons_True by congruence. f_equal. exact (IH Hrest). }
  induction h as [|record h IH]; [reflexivity|].
  destruct (decide (r_id record = jid)) as [Heq|Hne].
  - rewrite (filter_cons_False _ record h) by tauto. exact IH.
  - rewrite (filter_cons_True _ record h) by exact Hne.
    rewrite filter_cons_True by exact Hne. f_equal. exact IH.
Qed.

(** X3. A record that was just appended is the one that an update of its id
    finds and that a removal of its id removes: the update returns the
    appended record with the patch laid over it, and after the removal the
    store holds what it held before the append, without the records of that
    id, cut to 499 records. *)
Theorem appendHistory_then_update_or_remove (record : TranslationRecord)
    (data : Patch) (now : jsstring) (h : list TranslationRecord) :
  snd (updateHistoryRecord (r_id record) data now (appendHistory record h))
  = Some (merge record data now)
  /\ removeHistoryRecord (r_id record) (appendHistory record h)
     = removeHistoryRecord (r_id record) (take 499 h).
Proof.
  split.
  - rewrite updateHistoryRecord_result.
    unfold appendHistory. cbn [take].
    change (take 500 (record :: h)) with (record :: take 499 h).
    cbn [list_find]. rewrite decide_True by reflexivity. reflexivity.
  - unfold removeHistoryRecord, appendHistory.
    change (take 500 (record :: h)) with (record :: take 499 h).
    rewrite filter_cons_False by tauto. reflexivity.
Qed.

(** ** The settings *)

Section SettingsProperties.
Import Settings.

Lemma getSettings_idempotent (root : jsstring) (stored : AppSettings) :
  getSettings root (getSettings root stored) = getSettings root stored.
Proof.
  unfold getSettings.
  destruct (documentRoot stored) as [|c r] eqn:Hroot; cbn.
  - destruct root; reflexivity.
  - rewrite Hroot. reflexivity.
Qed.

(** X4. Updates of the settings compose key by key: read through
    [getSettings], two updates in a row give what one update with the second
    patch laid over the first gives, and an update with no key gives what
    [getSettings] returns. Whatever is stored, [getSettings] returns a
    non-empty [documentRoot]; [updateTheme] and [setUvBinDir] commute. *)
Theorem updateSettings_composes (root : jsstring) (first second : Partial)
    (stored : AppSettings) (t : ThemePreference) (dir : jsstring) :
  root <> [] ->
  documentRoot (getSettings root (updateSettings root first stored)) <> []
  /\ getSettings root (updateSettings root second (updateSettings root first stored))
     = getSettings root (updateSettings root (overlay first second) stored)
  /\ updateSettings root empty stored = getSettings root stored
  /\ updateTheme root t (setUvBinDir root dir stored)
     = setUvBinDir root dir (updateTheme root t stored).
Proof.
  intros Hroot. split.
  { unfold getSettings.
    destruct (documentRoot (updateSettings root first stored)) eqn:Hd.
    - exact Hroot.
    - intros Hnil. rewrite Hnil in Hd. discriminate. }
  split.
  { unfold updateSettings.
    destruct first as [a1 b1 c1 d1 e1 f1 g1], second as [a2 b2 c2 d2 e2 f2 g2],
             stored as [a b c d e f g].
    unfold getSettings, spread, overlay, default; cbn.
    destruct d1 as [[|? ?]|], d2 as [[|? ?]|], d, root; cbn;
      f_equal;
      repeat match goal with
             | |- context [match ?x with _ => _ end] => is_var x; destruct x
             end; reflexivity. }
  split.
  { unfold updateSettings, spread, empty; cbn.
    destruct (getSettings root stored); reflexivity. }
  unfold updateTheme, setUvBinDir, updateSettings.
  destruct stored as [a b c d e f g].
  unfold getSettings, spread; cbn.
  destruct d; cbn; [destruct root|]; reflexivity.
Qed.

Lemma updateSettings_composes_witness :
  documentRoot (getSettings (js "/home/u/Documents/BabelDOC")
    (updateSettings (js "/home/u/Documents/BabelDOC")
       {| p_openaiBaseUrl := None; p_openaiApiKey := None;
          p_openaiModel := None; p_documentRoot := Some [];
          p_theme := None; p_babeldoc := None; p_uvBinDir := None |}
       (defaultSettings (js "/home/u/Documents/BabelDOC")))) <> [].
Proof.
  exact (proj1 (updateSettings_composes (js "/home/u/Documents/BabelDOC")
                  {| p_openaiBaseUrl := None; p_openaiApiKey := None;
                     p_openaiModel := None; p_documentRoot := Some [];
                     p_theme := None; p_babeldoc := None; p_uvBinDir := None |}
                  empty (defaultSettings (js "/home/u/Documents/BabelDOC"))
                  dark [] ltac:(discriminate))).
Defined.

End SettingsProperties.

(** ** Flags and file names *)

Lemma trimStart_no_space (s : jsstring) :
  Forall (fun c => is_space c = false) s -> trimStart s = s.
Proof.
  destruct s as [|c r]; [reflexivity|].
  intros Hs. apply Forall_cons in Hs as [Hc _]. cbn. rewrite Hc. reflexivity.
Qed.

Lemma trim_no_space (s : jsstring) :
  Forall (fun c => is_space c = false) s -> trim s = s.
Proof.
  intros Hs. unfold trim, trimEnd.
  rewrite (trimStart_no_space s Hs).
  rewrite trimStart_no_space by (apply Forall_reverse; exact Hs).
  apply reverse_involutive.
Qed.

Lemma split_spaces_pieces (s : jsstring) : forall (in_sep : bool) (cur : jsstring),
  Forall (fun c => is_space c = false) cur ->
  Forall (Forall (fun c => is_space c = false)) (split_spaces in_sep cur s).
Proof.
  induction s as [|c r IH]; intros in_sep cur Hcur; cbn.
  - apply Forall_singleton, Forall_reverse, Hcur.
  - destruct (is_space c) eqn:Hc.
    + destruct in_sep.
      * apply IH, Hcur.
      * apply Forall_cons. split; [apply Forall_reverse, Hcur|].
        apply IH, Forall_nil_2.
    + apply IH. apply Forall_cons. split; [exact Hc | exact Hcur].
Qed.

Lemma split_spaces_concat (s : jsstring) : forall (in_sep : bool) (cur : jsstring),
  concat (split_spaces in_sep cur s)
  = reverse cur ++ List.filter (fun c => negb (is_space c)) s.
Proof.
  induction s as [|c r IH]; intros in_sep cur;
    cbn [split_spaces List.filter].
  - cbn. rewrite !app_nil_r. reflexivity.
  - destruct (is_space c) eqn:Hc; cbn [negb].
    + destruct in_sep; [apply IH|].
      rewrite concat_cons, IH. reflexivity.
    + rewrite IH, reverse_cons, <- app_assoc. reflexivity.
Qed.

Lemma split_spaces_token (t : jsstring) : forall (cur rest : jsstring),
  Forall (fun c => is_space c = false) t ->
  split_spaces false cur (t ++ rest) = split_spaces false (reverse t ++ cur) rest.
Proof.
  induction t as [|c r IH]; intros cur rest Ht; [reflexivity|].
  apply Forall_cons in Ht as [Hc Hr].
  change ((c :: r) ++ rest) with (c :: (r ++ rest)).
  cbn [split_spaces]. rewrite Hc, (IH _ _ Hr), reverse_cons, <- app_assoc.
  reflexivity.
Qed.

Lemma split_spaces_starts (in_sep : bool) (s : jsstring) (c : N) :
  is_space c = false ->
  split_spaces in_sep [] (c :: s) = split_spaces false [] (c :: s).
Proof. intros Hc. cbn. rewrite Hc. reflexivity. Qed.

Lemma split_spaces_join (parts : list jsstring) : forall in_sep : bool,
  Forall is_flag parts -> parts <> [] ->
  split_spaces in_sep [] (join_space parts) = parts.
Proof.
  induction parts as [|t rest IH]; intros in_sep Hparts Hne; [congruence|].
  apply Forall_cons in Hparts as [[Ht Hspace] Hrest].
  assert (Hhead : forall s, split_spaces in_sep [] (t ++ s)
                            = split_spaces false (reverse t) s).
  { intros s. destruct t as [|c r]; [congruence|].
    change ((c :: r) ++ s) with (c :: (r ++ s)).
    rewrite split_spaces_starts by (apply Forall_cons in Hspace; tauto).
    change (c :: (r ++ s)) with ((c :: r) ++ s).
    rewrite (split_spaces_token (c :: r) [] s Hspace), app_nil_r. reflexivity. }
  destruct rest as [|t2 rest].
  - cbn [join_space]. rewrite <- (app_nil_r t) at 1. rewrite Hhead.
    cbn. rewrite reverse_involutive. reflexivity.
  - change (join_space (t :: t2 :: rest))
      with (t ++ js " " ++ join_space (t2 :: rest)).
    rewrite Hhead.
    change (js " " ++ join_space (t2 :: rest))
      with (32%N :: join_space (t2 :: rest)).
    cbn [split_spaces]. change (is_space 32) with true. cbn iota.
    rewrite reverse_involutive. f_equal.
    apply IH; [exact Hrest | discriminate].
Qed.

Lemma filter_flags (parts : list jsstring) :
  Forall (fun flag => flag <> []) parts ->
  List.filter (fun flag => negb (bool_decide (flag = []))) parts = parts.
Proof.
  induction 1 as [|flag rest Hflag _ IH]; [reflexivity|].
  cbn. rewrite bool_decide_false by exact Hflag. cbn. f_equal. exact IH.
Qed.

Lemma concat_filter_flags (parts : list jsstring) :
  concat (List.filter (fun flag => negb (bool_decide (flag = []))) parts)
  = concat parts.
Proof.
  induction parts as [|flag rest IH]; [reflexivity|].
  cbn. case_bool_decide as Hflag; cbn; rewrite IH; [rewrite Hflag|]; reflexivity.
Qed.

Lemma parseExtraFlags_pieces (flags : jsstring) :
  parseExtraFlags flags
  = List.filter (fun flag => negb (bool_decide (flag = [])))
      (split_spaces false [] flags).
Proof.
  unfold parseExtraFlags. f_equal.
  pose proof (split_spaces_pieces flags false [] (Forall_nil_2 _)) as Hpieces.
  induction Hpieces as [|piece rest Hpiece _ IH]; [reflexivity|].
  rewrite fmap_cons, IH, (trim_no_space piece Hpiece). reflexivity.
Qed.

(** X5. The flags that [parseExtraFlags] returns are the words of the text:
    each is non-empty and free of white space, together they hold every code
    unit of the text that is not white space, in order; and a list of such
    words joined with single spaces parses back into the same list. *)
Theorem parseExtraFlags_words (flags : jsstring) (parts : list jsstring) :
  Forall is_flag parts ->
  Forall is_flag (parseExtraFlags flags)
  /\ concat (parseExtraFlags flags)
     = List.filter (fun c => negb (is_space c)) flags
  /\ parseExtraFlags (join_space parts) = parts.
Proof.
  intros Hparts. split; [|split].
  - rewrite parseExtraFlags_pieces.
    pose proof (split_spaces_pieces flags false [] (Forall_nil_2 _)) as Hpieces.
    induction Hpieces as [|piece rest Hpiece _ IH]; [apply Forall_nil_2|].
    cbn. case_bool_decide as Hempty; cbn; [exact IH|].
    apply Forall_cons. split; [split; assumption | exact IH].
  - rewrite parseExtraFlags_pieces, concat_filter_flags, split_spaces_concat.
    reflexivity.
  - rewrite parseExtraFlags_pieces.
    destruct parts as [|t rest]; [reflexivity|].
    rewrite split_spaces_join by (exact Hparts || discriminate).
    apply filter_flags. eapply Forall_impl; [exact Hparts|].
    intros flag [Hflag _]. exact Hflag.
Qed.

Lemma parseExtraFlags_words_witness :
  Forall is_flag (parseExtraFlags (js " --a  -b "))
  /\ concat (parseExtraFlags (js " --a  -b "))
     = List.filter (fun c => negb (is_space c)) (js " --a  -b ")
  /\ parseExtraFlags (join_space [js "--a"; js "-b"]) = [js "--a"; js "-b"].
Proof.
  apply (parseExtraFlags_words (js " --a  -b ") [js "--a"; js "-b"]).
  repeat (apply Forall_cons; split; [split; [discriminate|] |]);
    repeat (apply Forall_cons; split; [reflexivity|]); apply Forall_nil_2.
Defined.

Lemma replace_spaces_units (s : jsstring) : forall in_run : bool,
  Forall (fun c => is_reserved c = false) s ->
  Forall filename_unit (replace_spaces (js "_") in_run s).
Proof.
  induction s as [|c r IH]; intros in_run Hs; cbn; [apply Forall_nil_2|].
  apply Forall_cons in Hs as [Hc Hr].
  destruct (is_space c) eqn:Hspace.
  - destruct in_run; [apply IH, Hr|].
    apply Forall_cons. split; [split; reflexivity | apply IH, Hr].
  - apply Forall_cons. split; [split; assumption | apply IH, Hr].
Qed.

Lemma replace_spaces_clean (r s : jsstring) (in_run : bool) :
  Forall (fun c => is_space c = false) s -> replace_spaces r in_run s = s.
Proof.
  intros Hs. revert in_run.
  induction Hs as [|c rest Hc _ IH]; intros in_run; [reflexivity|].
  cbn. rewrite Hc. f_equal. apply IH.
Qed.

Lemma filter_reserved_clean (s : jsstring) :
  Forall (fun c => is_reserved c = false) s ->
  List.filter (fun c => negb (is_reserved c)) s = s.
Proof.
  induction 1 as [|c rest Hc _ IH]; [reflexivity|].
  cbn. rewrite Hc. cbn. f_equal. exact IH.
Qed.

(** A code unit from U+007F to U+009F (delete and the C1 control
    characters) is none that the handler removes or replaces. *)
Lemma filename_unit_delete_and_C1 (c : N) :
  (127 <= c <= 159)%N -> filename_unit c.
Proof.
  intros Hc. unfold filename_unit, is_reserved, is_space.
  split;
    repeat match goal with
           | |- (_ || _)%bool = false => apply orb_false_intro
           | |- (_ && _)%bool = false =>
               first [ apply andb_false_intro1; apply N.leb_gt; lia
                     | apply andb_false_intro2; apply N.leb_gt; lia ]
           | |- (_ <=? _)%N = false => apply N.leb_gt; lia
           | |- (_ =? _)%N = false => apply N.eqb_neq; lia
           end.
Qed.

(** X6. The title that the save handler puts into file names holds at most
    200 code units, none of them a code unit from U+0000 to U+001F (the C0
    control characters), one of the nine characters reserved in file names,
    or white space; a title that is already so is kept as it is. Delete
    (U+007F) and the C1 control characters (U+0080 to U+009F) are not
    removed: a title made of them is kept as it is. *)
Theorem sanitizedTitle_is_a_file_name (title : jsstring) :
  (length (sanitizedTitle title) <= 200)%nat
  /\ Forall filename_unit (sanitizedTitle title)
  /\ Forall (fun c => (32 <= c)%N) (sanitizedTitle title)
  /\ (Forall filename_unit title -> (length title <= 200)%nat ->
      sanitizedTitle title = title)
  /\ (Forall (fun c => (127 <= c <= 159)%N) title -> (length title <= 200)%nat ->
      sanitizedTitle title = title).
Proof.
  assert (forall t, Forall filename_unit t -> (length t <= 200)%nat ->
                    sanitizedTitle t = t) as Hfix.
  { intros t Hclean Hlen. unfold sanitizedTitle.
    rewrite filter_reserved_clean
      by (eapply Forall_impl; [exact Hclean | intros c [Hc _]; exact Hc]).
    rewrite replace_spaces_clean
      by (eapply Forall_impl; [exact Hclean | intros c [_ Hc]; exact Hc]).
    apply take_ge. exact Hlen. }
  assert (Forall filename_unit (sanitizedTitle title)) as Hunits.
  { unfold sanitizedTitle. apply Forall_take, replace_spaces_units.
    induction title as [|c r IH]; [apply Forall_nil_2|].
    cbn. destruct (is_reserved c) eqn:Hc; cbn; [exact IH|].
    apply Forall_cons. split; [exact Hc | exact IH]. }
  split; [|split; [|split; [|split]]].
  - unfold sanitizedTitle. rewrite length_take. apply Nat.le_min_l.
  - exact Hunits.
  - eapply Forall_impl; [exact Hunits|]. intros c [Hc _].
    unfold is_reserved in Hc.
    destruct (c <=? 31)%N eqn:Hlow; [discriminate Hc|].
    apply N.leb_gt in Hlow. lia.
  - apply Hfix.
  - intros Hc1. apply Hfix.
    eapply Forall_impl; [exact Hc1 | apply filename_unit_delete_and_C1].
Qed.

(** ** Status events and the history *)

Lemma find_job_emitStatus (jid' jid : jsstring) st pr now (s : State) :
  find_job jid' (emitStatus jid st pr now s) = find_job jid' s.
Proof.
  unfold find_job at 1. rewrite queue_emitStatus.
  destruct (find_job jid s) as [i|]; [|reflexivity].
  apply list_find_alter_fst. intros job. rewrite status_update_id. tauto.
Qed.

Lemma processing_emitStatus jid st pr now (s : State) :
  processing (emitStatus jid st pr now s) = processing s.
Proof. apply (q_processing _ _ (quiet_emitStatus jid st pr now s)). Qed.

Lemma flight_emitStatus jid st pr now (s : State) :
  flight (emitStatus jid st pr now s) = flight s.
Proof. apply (q_flight _ _ (quiet_emitStatus jid st pr now s)). Qed.

(** The patch that [emitStatus] lays over the records of the id. *)
Lemma merge_status (record : TranslationRecord) st pr now :
  let record' :=
    merge record {| p_status := Some st; p_progress := pr; p_logs := None;
                    p_translatedPath := None; p_errorMessage := None;
                    p_savePath := None |} now in
  r_id record' = r_id record /\ r_status record' = st
  /\ (forall p, pr = Some p -> r_progress record' = Some p)
  /\ r_updatedAt record' = now /\ r_logs record' = r_logs record
  /\ r_savePath record' = r_savePath record
  /\ r_translatedPath record' = r_translatedPath record
  /\ r_errorMessage record' = r_errorMessage record.
Proof.
  cbn. repeat split. intros p ->. reflexivity.
Qed.

(** X7. [emitStatus] announces the status once and mirrors it: the first job
    of the id and every history record of the id take the status (and the
    progress, if one is given) and the time; jobs and records of other ids,
    the flag [processing] and the awaited run are left as they are. *)
Theorem emitStatus_mirrors_the_status (jid : jsstring)
    (st : TranslationJobStatus) (pr : option Z) (now : jsstring) (s : State) :
  sink (emitStatus jid st pr now s) = sink s ++ [StatusPayload jid st pr]
  /\ (forall i job, queue s !! i = Some job -> find_job jid s = Some i ->
        queue (emitStatus jid st pr now s) !! i
        = Some (status_update st pr now job))
  /\ (forall k job, queue s !! k = Some job -> id job <> jid ->
        queue (emitStatus jid st pr now s) !! k = Some job)
  /\ (forall record, record ∈ history (emitStatus jid st pr now s) ->
        r_id record = jid ->
        r_status record = st /\ r_updatedAt record = now
        /\ forall p, pr = Some p -> r_progress record = Some p)
  /\ (forall i record, history s !! i = Some record -> r_id record <> jid ->
        history (emitStatus jid st pr now s) !! i = Some record)
  /\ r_id <$> history (emitStatus jid st pr now s) = r_id <$> history s
  /\ processing (emitStatus jid st pr now s) = processing s
  /\ flight (emitStatus jid st pr now s) = flight s.
Proof.
  split; [apply sink_emitStatus|].
  split.
  { intros i job Hi Hfind. rewrite (emitStatus_at _ _ _ _ _ _ _ Hi).
    rewrite bool_decide_true by exact Hfind. reflexivity. }
  split.
  { intros k job Hk Hne. rewrite (emitStatus_at _ _ _ _ _ _ _ Hk).
    case_bool_decide as Hfind; [|reflexivity].
    apply find_job_Some in Hfind as (job' & Hk' & Hid & _).
    rewrite Hk in Hk'. injection Hk' as <-. contradiction. }
  rewrite history_emitStatus.
  split.
  { intros record Hin Hid.
    apply list_elem_of_lookup in Hin as [i Hi].
    rewrite updateHistoryRecord_lookup in Hi.
    destruct (history s !! i) as [record0|]; [|discriminate].
    cbn in Hi. injection Hi as <-.
    case_bool_decide as Hid0; [|contradiction].
    destruct (merge_status record0 st pr now) as (_ & Hst & Hpr & Hnow & _).
    repeat split; assumption. }
  split.
  { intros i record Hi Hne. rewrite updateHistoryRecord_lookup, Hi. cbn.
    rewrite bool_decide_false by exact Hne. reflexivity. }
  split; [apply ids_updateHistoryRecord|].
  split; [apply processing_emitStatus | apply flight_emitStatus].
Qed.

(** ** Dispatch *)

Lemma processing_runJob_begin (i : nat) (now : jsstring) (s : State) :
  processing (runJob_begin i now s) = processing s.
Proof.
  unfold runJob_begin.
  destruct (queue s !! i) as [job|]; [|reflexivity].
  destruct (updateHistoryRecord _ _ _ _) as [next [existing|]];
    cbn [processing with_flight with_history];
    rewrite processing_emitStatus; reflexivity.
Qed.

(** A second call of [processNext] does nothing: either a run was
    started, and the flag [processing] stops the second call, or no job is
    queued, and the second call finds none either. *)
Lemma processNext_twice (now now' : jsstring) (s : State) :
  processNext now' (processNext now s) = processNext now s.
Proof.
  unfold processNext at 2 3.
  destruct (processing s) eqn:Hbusy.
  - apply processNext_busy, Hbusy.
  - destruct (list_find _ (queue s)) as [[i next]|] eqn:Hfind.
    + apply processNext_busy. rewrite processing_runJob_begin. reflexivity.
    + unfold processNext. cbn [processing with_processing queue].
      rewrite Hfind. reflexivity.
Qed.

(** ** Marking a job as saved *)

(** The update [markJobSaved] makes to the job it finds, before it calls
    [emitStatus]. *)
Lemma queue_markJobSaved (jobId savePath_ now : jsstring) (s : State) :
  queue (fst (markJobSaved jobId savePath_ now s))
  = match find_job jobId s with
    | Some i =>
        alter (fun job =>
                 status_update success (Some 100) now
                   (set_updatedAt now
                      (set_error None
                         (set_savePath (Some savePath_)
                            (set_progress 100 (set_status success job))))))
              i (queue s)
    | None => queue s
    end.
Proof.
  unfold markJobSaved.
  destruct (find_job jobId s) as [i|] eqn:Hfind; [|reflexivity].
  cbn [fst]. rewrite queue_emitStatus.
  rewrite find_job_mutate by reflexivity. rewrite Hfind.
  unfold mutate; cbn [queue with_queue].
  apply list_alter_alter_eq.
Qed.

Lemma history_markJobSaved (jobId savePath_ now : jsstring) (s : State) :
  history (fst (markJobSaved jobId savePath_ now s))
  = match find_job jobId s with
    | Some _ =>
        fst (updateHistoryRecord jobId
               {| p_status := Some success; p_progress := Some 100;
                  p_logs := None; p_translatedPath := None;
                  p_errorMessage := None; p_savePath := None |} now (history s))
    | None => history s
    end.
Proof.
  unfold markJobSaved.
  destruct (find_job jobId s) as [i|]; [|reflexivity].
  cbn [fst]. rewrite history_emitStatus. reflexivity.
Qed.

Lemma find_job_markJobSaved (jid jobId savePath_ now : jsstring) (s : State) :
  find_job jid (fst (markJobSaved jobId savePath_ now s)) = find_job jid s.
Proof.
  unfold markJobSaved.
  destruct (find_job jobId s) as [i|]; [|reflexivity].
  cbn [fst]. rewrite find_job_emitStatus. apply find_job_mutate. reflexivity.
Qed.

Lemma markJobSaved_frame (jobId savePath_ now : jsstring) (s : State) :
  processing (fst (markJobSaved jobId savePath_ now s)) = processing s
  /\ flight (fst (markJobSaved jobId savePath_ now s)) = flight s.
Proof.
  unfold markJobSaved.
  destruct (find_job jobId s) as [i|]; [|split; reflexivity].
  cbn [fst]. rewrite processing_emitStatus, flight_emitStatus.
  split; reflexivity.
Qed.

(** X9. Marking a job as saved a second time changes the time stamps only:
    the queue and the history are those of a single call made at the second
    time, and the same job is returned. A call never touches a job of another
    id, the flag [processing] or the awaited run. *)
Theorem markJobSaved_again (jobId savePath_ now now' : jsstring) (s : State) :
  let once := markJobSaved jobId savePath_ now s in
  let twice := markJobSaved jobId savePath_ now' (fst once) in
  snd twice = snd once
  /\ queue (fst twice) = queue (fst (markJobSaved jobId savePath_ now' s))
  /\ history (fst twice) = history (fst (markJobSaved jobId savePath_ now' s))
  /\ (forall k job, queue s !! k = Some job -> id job <> jobId ->
        queue (fst once) !! k = Some job)
  /\ processing (fst once) = processing s
  /\ flight (fst once) = flight s.
Proof.
  cbn zeta.
  split.
  { unfold markJobSaved at 1 3.
    rewrite find_job_markJobSaved.
    destruct (find_job jobId s) as [i|]; reflexivity. }
  split.
  { rewrite (queue_markJobSaved jobId savePath_ now'
               (fst (markJobSaved jobId savePath_ now s))).
    rewrite find_job_markJobSaved.
    rewrite (queue_markJobSaved jobId savePath_ now' s).
    destruct (find_job jobId s) as [i|] eqn:Hfind.
    - rewrite queue_markJobSaved, Hfind.
      rewrite list_alter_alter_eq.
      apply list_alter_ext; [|reflexivity]. intros job _. reflexivity.
    - unfold markJobSaved. rewrite Hfind. reflexivity. }
  split.
  { rewrite (history_markJobSaved jobId savePath_ now'
               (fst (markJobSaved jobId savePath_ now s))).
    rewrite find_job_markJobSaved.
    rewrite (history_markJobSaved jobId savePath_ now' s).
    destruct (find_job jobId s) as [i|] eqn:Hfind.
    - rewrite history_markJobSaved, Hfind.
      unfold updateHistoryRecord; cbn [fst].
      rewrite <- list_fmap_compose. apply list_fmap_ext.
      intros k record _. cbn.
      destruct (decide (r_id record = jobId)) as [Hid|Hid].
      + rewrite (bool_decide_true (r_id record = jobId)) by exact Hid. cbn.
        rewrite bool_decide_true by exact Hid. reflexivity.
      + rewrite (bool_decide_false (r_id record = jobId)) by exact Hid.
        rewrite bool_decide_false by exact Hid. reflexivity.
    - unfold markJobSaved. rewrite Hfind. reflexivity. }
  split.
  { intros k job Hk Hne. rewrite queue_markJobSaved.
    destruct (find_job jobId s) as [i|] eqn:Hfind; [|exact Hk].
    rewrite list_lookup_alter_ne; [exact Hk|].
    intros <-. apply find_job_Some in Hfind as (job' & Hi & Hid & _).
    rewrite Hk in Hi. injection Hi as <-. contradiction. }
  apply markJobSaved_frame.
Qed.

(** ** Saving a translation *)

Lemma save_output_commit_unfold (jobId pathToSave now : jsstring) (s : State) :
  save_output_commit jobId pathToSave now s
  = let marked :=
      updateHistoryRecord jobId
        {| p_status := Some success; p_progress := Some 100; p_logs := None;
           p_translatedPath := None; p_errorMessage := None;
           p_savePath := Some pathToSave |} now (history s) in
    (fst (markJobSaved jobId pathToSave now (with_history (fst marked) s)),
     snd marked).
Proof.
  unfold save_output_commit.
  destruct (updateHistoryRecord _ _ _ _) as [next updated]. reflexivity.
Qed.

(** X10. When the save handler has copied the files, the history and the
    queue agree on the outcome: every history record of the job has the
    status [success], the saved path and the progress 100, and so has the job,
    if the queue holds it, whose error is cleared. No record is added or
    dropped; the handler returns the first record of the job as updated, or
    [null] when the history holds none. *)
Theorem save_output_commit_marks_record_and_job (jobId pathToSave now : jsstring)
    (s : State) :
  let saved := save_output_commit jobId pathToSave now s in
  (forall record, record ∈ history (fst saved) -> r_id record = jobId ->
     r_status record = success /\ r_savePath record = Some pathToSave
     /\ r_progress record = Some 100)
  /\ (forall i, find_job jobId s = Some i ->
        exists job, queue (fst saved) !! i = Some job /\ id job = jobId
                    /\ status job = success /\ savePath job = Some pathToSave
                    /\ progress job = 100 /\ error job = None)
  /\ r_id <$> history (fst saved) = r_id <$> history s
  /\ (forall i record,
        list_find (fun record => r_id record = jobId) (history s)
        = Some (i, record) ->
        exists record', snd saved = Some record'
                        /\ r_id record' = jobId /\ r_status record' = success
                        /\ r_savePath record' = Some pathToSave)
  /\ (jobId ∉ r_id <$> history s -> snd saved = None).
Proof.
  cbn zeta. rewrite save_output_commit_unfold. cbn zeta. cbn [fst snd].
  set (marked := fst (updateHistoryRecord jobId _ now (history s))).
  assert (Hmarked : forall record, record ∈ marked -> r_id record = jobId ->
            r_status record = success /\ r_savePath record = Some pathToSave
            /\ r_progress record = Some 100).
  { intros record Hin Hid. apply list_elem_of_lookup in Hin as [i Hi].
    unfold marked in Hi. rewrite updateHistoryRecord_lookup in Hi.
    destruct (history s !! i) as [record0|]; [|discriminate].
    cbn in Hi. injection Hi as <-.
    case_bool_decide as Hid0; [|contradiction].
    repeat split. }
  split.
  { intros record. rewrite history_markJobSaved.
    change (find_job jobId (with_history marked s)) with (find_job jobId s).
    cbn [history with_history].
    destruct (find_job jobId s) as [i|]; [|apply Hmarked].
    intros Hin Hid. apply list_elem_of_lookup in Hin as [k Hk].
    rewrite updateHistoryRecord_lookup in Hk.
    destruct (marked !! k) as [record0|] eqn:Hk0; [|discriminate].
    cbn in Hk. injection Hk as <-.
    case_bool_decide as Hid0; [|contradiction].
    destruct (Hmarked record0 (list_elem_of_lookup_2 _ _ _ Hk0) Hid0)
      as (Hst & Hpath & Hpr).
    cbn. repeat split. exact Hpath. }
  split.
  { intros i Hfind. rewrite queue_markJobSaved.
    change (find_job jobId (with_history marked s)) with (find_job jobId s).
    rewrite Hfind. cbn [queue with_history].
    apply find_job_Some in Hfind as (job & Hi & Hid & _).
    rewrite list_lookup_alter_eq, Hi. cbn [fmap option_fmap option_map].
    eexists. split; [reflexivity|]. cbn. repeat split. exact Hid. }
  split.
  { rewrite history_markJobSaved.
    change (find_job jobId (with_history marked s)) with (find_job jobId s).
    cbn [history with_history].
    destruct (find_job jobId s) as [i|];
      [rewrite ids_updateHistoryRecord|]; apply ids_updateHistoryRecord. }
  split.
  { intros i record Hfind. rewrite updateHistoryRecord_result, Hfind.
    eexists. split; [reflexivity|].
    apply list_find_Some in Hfind as (_ & Hid & _).
    cbn. repeat split. exact Hid. }
  intros Habsent. rewrite updateHistoryRecord_absent by exact Habsent.
  reflexivity.
Qed.

(** ** What no event changes *)

Lemma enqueued_cons (te : jsstring * Event) (rest : list (jsstring * Event)) :
  enqueued (te :: rest) = enqueued [te] ++ enqueued rest.
Proof.
  unfold enqueued; cbn [omap list_omap].
  destruct (match snd te with Enqueue _ _ => _ | _ => _ end); reflexivity.
Qed.

(** A view of the jobs that no setter of a mutable field changes is the same
    after every operation of the manager. *)
Section Projection.

Context {A : Type} (proj : TranslationQueueItem -> A).
Hypothesis proj_status : forall st job, proj (set_status st job) = proj job.
Hypothesis proj_progress : forall p job, proj (set_progress p job) = proj job.
Hypothesis proj_logs : forall l job, proj (set_logs l job) = proj job.
Hypothesis proj_outputDir : forall d job, proj (set_outputDir d job) = proj job.
Hypothesis proj_savePath : forall d job, proj (set_savePath d job) = proj job.
Hypothesis proj_error : forall e job, proj (set_error e job) = proj job.
Hypothesis proj_updatedAt : forall t job, proj (set_updatedAt t job) = proj job.

Local Abbreviation view s := (proj <$> queue s).

Lemma view_mutate (i : nat) (f : TranslationQueueItem -> TranslationQueueItem)
    (s : State) :
  (forall job, proj (f job) = proj job) -> view (mutate i f s) = view s.
Proof.
  intros Hf. unfold mutate; cbn [queue with_queue].
  apply list_eq. intros k. rewrite !list_lookup_fmap.
  destruct (decide (i = k)) as [->|Hne].
  - rewrite list_lookup_alter_eq. destruct (queue s !! k); cbn; [|done].
    rewrite Hf. reflexivity.
  - rewrite list_lookup_alter_ne by done. reflexivity.
Qed.

Lemma proj_status_update st pr now job :
  proj (status_update st pr now job) = proj job.
Proof.
  unfold status_update. rewrite proj_updatedAt.
  destruct pr; [rewrite proj_progress|]; apply proj_status.
Qed.

Lemma view_emitStatus jid st pr now (s : State) :
  view (emitStatus jid st pr now s) = view s.
Proof.
  rewrite queue_emitStatus. destruct (find_job jid s) as [i|]; [|done].
  apply (view_mutate i (status_update st pr now) s), proj_status_update.
Qed.

Lemma view_tryParseDebugProgress j logLine now (s : State) :
  view (tryParseDebugProgress j logLine now s) = view s.
Proof.
  unfold tryParseDebugProgress.
  destruct (match_overall_progress logLine); [|done].
  cbv zeta. destruct (queue s !! j) as [job|]; [|done].
  destruct (gt _ _ && le _ _); [|done].
  destruct (to_Z _) as [p|]; [|done].
  rewrite view_emitStatus. apply view_mutate, proj_progress.
Qed.

Lemma view_tryUpdateProgressFromLog j logLine now (s : State) :
  view (tryUpdateProgressFromLog j logLine now s) = view s.
Proof.
  unfold tryUpdateProgressFromLog.
  destruct (matching_stage logLine) as [stage|]; [|done].
  destruct (queue s !! j) as [job|]; [|done].
  destruct (progress job <? snd stage); [|done].
  rewrite view_emitStatus. apply view_mutate, proj_progress.
Qed.

Lemma view_appendLog j message now (s : State) :
  view (appendLog j message now s) = view s.
Proof.
  destruct (decide (trim message = [])) as [Ht|Ht].
  { unfold appendLog. rewrite Ht. reflexivity. }
  destruct (queue s !! j) as [job|] eqn:Hj.
  - rewrite (appendLog_unfold j job message now s Hj Ht).
    rewrite view_tryUpdateProgressFromLog, view_tryParseDebugProgress.
    unfold log_stored, persist, emitProgress, emit; cbn [queue with_history].
    apply (view_mutate j). intros job0. rewrite proj_updatedAt. apply proj_logs.
  - unfold appendLog. rewrite Hj. destruct (trim message); reflexivity.
Qed.

Lemma view_fail_job j errorMessage now (s : State) :
  view (fail_job j errorMessage now s) = view s.
Proof.
  unfold fail_job. destruct (queue s !! j) as [job|]; [|done].
  unfold emitCompleted, emit; cbn [queue].
  match goal with
  | |- context [match ?x with Some _ => _ | None => _ end] =>
      transitivity (view (appendLog j errorMessage now
        (emitStatus (id job) failed (Some 100) now
           (mutate j (fun job0 =>
              set_updatedAt now (set_error (Some errorMessage)
                (set_progress 100 (set_status failed job0)))) s))));
      [destruct x; reflexivity|]
  end.
  rewrite view_appendLog, view_emitStatus. apply view_mutate.
  intros job0.
  rewrite proj_updatedAt, proj_error, proj_progress. apply proj_status.
Qed.

Lemma view_complete_job j now (s : State) :
  view (complete_job j now s) = view s.
Proof.
  unfold complete_job. destruct (queue s !! j) as [job|]; [|done].
  unfold emitCompleted, emit; cbn [queue].
  match goal with
  | |- context [match ?x with Some _ => _ | None => _ end] =>
      transitivity (view (emitStatus (id job) awaiting_user (Some 100) now
           (mutate j (fun job0 =>
              set_updatedAt now (set_error None
                (set_outputDir (Some (translationsDir s job))
                   (set_progress 100 (set_status awaiting_user job0))))) s)));
      [destruct x; reflexivity|]
  end.
  rewrite view_emitStatus. apply view_mutate.
  intros job0.
  rewrite proj_updatedAt, proj_error, proj_outputDir, proj_progress.
  apply proj_status.
Qed.

Lemma view_runJob_begin i now (s : State) :
  view (runJob_begin i now s) = view s.
Proof.
  unfold runJob_begin. destruct (queue s !! i) as [job|]; [|done].
  destruct (updateHistoryRecord _ _ _ _) as [next [existing|]];
    cbn [queue with_flight with_history];
    rewrite view_emitStatus; apply view_mutate; intros job0;
    rewrite proj_updatedAt, proj_logs; apply proj_status.
Qed.

Lemma view_processNext now (s : State) :
  view (processNext now s) = view s.
Proof.
  unfold processNext. destruct (processing s); [done|].
  destruct (list_find _ _) as [[i next]|]; [|done].
  apply (view_runJob_begin i now (with_processing true s)).
Qed.

Lemma view_runJob_settled now (s : State) :
  view (runJob_settled now s) = view s.
Proof.
  unfold runJob_settled.
  apply (view_processNext now (with_processing false (with_flight None s))).
Qed.

Lemma view_settle j now (s : State) : view (settle j now s) = view s.
Proof.
  unfold settle. destruct (flight s) as [[k [| |]]|]; try done.
  case_bool_decide; [apply view_runJob_settled | done].
Qed.

Lemma view_markJobSaved jobId savePath_ now (s : State) :
  view (fst (markJobSaved jobId savePath_ now s)) = view s.
Proof.
  unfold markJobSaved. destruct (find_job jobId s) as [i|]; [|done].
  cbn [fst]. rewrite view_emitStatus. apply view_mutate. intros job0.
  rewrite proj_updatedAt, proj_error, proj_savePath, proj_progress.
  apply proj_status.
Qed.

Lemma view_enqueue jobInput uuid now (s : State) :
  view (fst (enqueue jobInput uuid now s))
  = view s ++ [proj (new_item jobInput uuid now)].
Proof.
  unfold enqueue; cbn [fst].
  rewrite view_processNext, view_emitStatus. cbn [queue with_queue].
  rewrite fmap_app. reflexivity.
Qed.

Lemma view_step (s : State) (te : jsstring * Event) :
  view (step s te) = view s ++ (proj <$> enqueued [te]).
Proof.
  destruct te as [now e]. unfold step, enqueued; cbn [fst snd omap list_omap].
  destruct e; cbn [fmap list_fmap]; rewrite ?app_nil_r.
  - apply view_enqueue.
  - apply view_markJobSaved.
  - unfold runJob_insight.
    destruct (flight s) as [[j [| |]]|]; try done.
    destruct (queue s !! j); done.
  - unfold runJob_spawn.
    destruct (flight s) as [[j [| |]]|]; try done.
    destruct (queue s !! j); [|done].
    cbn [queue with_flight]. apply view_appendLog.
  - unfold runJob_rejected.
    destruct (flight s) as [[j [| |]]|]; try done; apply view_runJob_settled.
  - apply view_appendLog.
  - apply view_appendLog.
  - unfold onClose. destruct (queue s !! j); [|done].
    case_bool_decide; rewrite view_settle;
      [apply view_complete_job | apply view_fail_job].
  - unfold onError. destruct (queue s !! j); [|done].
    rewrite view_settle. apply view_fail_job.
Qed.

Lemma view_run (trace : list (jsstring * Event)) : forall s : State,
  view (run s trace) = view s ++ (proj <$> enqueued trace).
Proof.
  induction trace as [|te rest IH]; intros s.
  - cbn. rewrite app_nil_r. reflexivity.
  - change (run s (te :: rest)) with (run (step s te) rest).
    rewrite IH, view_step, <- app_assoc, <- fmap_app, <- enqueued_cons.
    reflexivity.
Qed.

End Projection.

(** X11. The queue is a log of the calls of [enqueue]: after any events it
    holds the jobs it held, in their order, followed by one job for each call,
    in the order of the calls; and each job still has the id, the file path,
    the name, the source type, the download id and the creation time it was
    built with. No event removes or reorders a job. *)
Theorem queue_is_the_log_of_enqueue (s : State) (trace : list (jsstring * Event)) :
  identity <$> queue (run s trace)
  = (identity <$> queue s) ++ (identity <$> enqueued trace)
  /\ length (queue (run s trace)) = (length (queue s) + length (enqueued trace))%nat.
Proof.
  assert (identity <$> queue (run s trace)
          = (identity <$> queue s) ++ (identity <$> enqueued trace)) as Hview
    by (apply view_run; reflexivity).
  split; [exact Hview|].
  apply (f_equal length) in Hview.
  rewrite length_app, !length_fmap in Hview. exact Hview.
Qed.

(** ** The moves of a job *)

Lemma job_move_refl (a : TranslationQueueItem) : job_move a a.
Proof. apply logs_on; [reflexivity | lia]. Qed.

Lemma moves_of_dispatches (s s' : State) : dispatches s s' -> moves s s'.
Proof.
  intros Hd k job Hk. destruct (Hd k job Hk) as (job' & Hk' & Hmove).
  exists job'. split; [exact Hk'|].
  destruct Hmove as [->|(Hq & Hcore & Hp & Hl)];
    [apply job_move_refl | apply starts; assumption].
Qed.

Lemma moves_of_ends (s s' : State) : ends s s' -> moves s s'.
Proof.
  intros He k job Hk. destruct (He k job Hk) as (job' & Hk' & Hmove).
  exists job'. split; [exact Hk'|].
  destruct Hmove as [->|[Hmove _]]; [apply job_move_refl | exact Hmove].
Qed.

Lemma ends_then_dispatches (s s1 s2 : State) :
  ends s s1 -> dispatches s1 s2 -> moves s s2.
Proof.
  intros He Hd k job Hk.
  destruct (He k job Hk) as (job1 & Hk1 & Hmove1).
  destruct (Hd k job1 Hk1) as (job2 & Hk2 & Hmove2).
  exists job2. split; [exact Hk2|].
  destruct Hmove1 as [->|[Hmove1 Hstatus]].
  - destruct Hmove2 as [->|(Hq & Hcore & Hp & Hl)];
      [apply job_move_refl | apply starts; assumption].
  - destruct Hmove2 as [->|(Hq & _)]; [exact Hmove1 | contradiction].
Qed.

Lemma dispatches_refl (s s' : State) : queue s' = queue s -> dispatches s s'.
Proof.
  intros Hq k job Hk. exists job. rewrite Hq. split; [exact Hk | left; reflexivity].
Qed.

Lemma queue_runJob_begin (i : nat) (next : TranslationQueueItem)
    (now : jsstring) (s : State) :
  NoDup (ids s) -> queue s !! i = Some next ->
  queue (runJob_begin i now s)
  = alter (fun job =>
             status_update running (Some 0) now
               (set_updatedAt now (set_logs [] (set_status running job))))
          i (queue s).
Proof.
  intros Hnd Hi. unfold runJob_begin. rewrite Hi.
  set (f := fun job0 : TranslationQueueItem =>
              set_updatedAt now (set_logs [] (set_status running job0))).
  assert (NoDup (ids (mutate i f s))) as Hnd1
    by (rewrite ids_mutate by reflexivity; exact Hnd).
  assert (queue (mutate i f s) !! i = Some (f next)) as Hi1
    by (rewrite lookup_mutate_eq, Hi; reflexivity).
  pose proof (emitStatus_own (mutate i f s) i (f next) running (Some 0) now
                Hnd1 Hi1) as Hq.
  change (id (f next)) with (id next) in Hq.
  destruct (updateHistoryRecord _ _ _ _) as [next' [existing|]];
    cbn [queue with_flight with_history];
    rewrite Hq; unfold mutate; cbn [queue with_queue];
    apply list_alter_alter_eq.
Qed.

Lemma dispatches_processNext (now : jsstring) (s : State) :
  NoDup (ids s) -> dispatches s (processNext now s).
Proof.
  intros Hnd. unfold processNext.
  destruct (processing s); [apply dispatches_refl; reflexivity|].
  destruct (list_find _ _) as [[i next]|] eqn:Hfind;
    [|apply dispatches_refl; reflexivity].
  apply list_find_Some in Hfind as (Hi & Hq & _).
  intros k job Hk.
  rewrite (queue_runJob_begin i next now (with_processing true s) Hnd Hi).
  cbn [queue with_processing].
  destruct (decide (k = i)) as [->|Hne].
  - rewrite list_lookup_alter_eq, Hk. cbn [fmap option_fmap option_map].
    eexists. split; [reflexivity|]. right.
    rewrite Hk in Hi. injection Hi as ->.
    repeat split. exact Hq.
  - rewrite list_lookup_alter_ne by congruence.
    exists job. split; [exact Hk | left; reflexivity].
Qed.

Lemma dispatches_runJob_settled (now : jsstring) (s : State) :
  NoDup (ids s) -> dispatches s (runJob_settled now s).
Proof.
  intros Hnd. unfold runJob_settled.
  apply (dispatches_processNext now (with_processing false (with_flight None s))),
        Hnd.
Qed.

Lemma dispatches_settle (j : nat) (now : jsstring) (s : State) :
  NoDup (ids s) -> dispatches s (settle j now s).
Proof.
  intros Hnd. unfold settle.
  destruct (flight s) as [[k [| |]]|]; try (apply dispatches_refl; reflexivity).
  case_bool_decide;
    [apply dispatches_runJob_settled, Hnd | apply dispatches_refl; reflexivity].
Qed.

Lemma dispatches_runJob_rejected (now : jsstring) (s : State) :
  NoDup (ids s) -> dispatches s (runJob_rejected now s).
Proof.
  intros Hnd. unfold runJob_rejected.
  destruct (flight s) as [[k [| |]]|];
    try (apply dispatches_refl; reflexivity);
    apply dispatches_runJob_settled, Hnd.
Qed.

Lemma moves_appendLog (j : nat) (message now : jsstring) (s : State) :
  NoDup (ids s) -> moves s (appendLog j message now s).
Proof.
  intros Hnd k job Hk. destruct (decide (k = j)) as [->|Hne].
  - destruct (appendLog_at j job message now s Hk)
      as (job' & Hj' & Hcore & _ & Hp).
    exists job'. split; [exact Hj'|]. apply logs_on; [exact Hcore|].
    rewrite Hp.
    pose proof (structured_progress_ge (progress job) (trim message)).
    pose proof (heuristic_progress_ge
                  (structured_progress (progress job) (trim message))
                  (trim message)). lia.
  - exists job. split; [|apply job_move_refl].
    rewrite (others_kept_appendLog j message now s Hnd k Hne). exact Hk.
Qed.

Lemma fail_job_core (j : nat) (job : TranslationQueueItem)
    (errorMessage now : jsstring) (s : State) :
  queue s !! j = Some job ->
  exists job',
    queue (fail_job j errorMessage now s) !! j = Some job'
    /\ core job' = core (set_error (Some errorMessage) (set_status failed job))
    /\ progress job' = 100.
Proof.
  intros Hj. unfold fail_job. rewrite Hj.
  set (f := fun job0 : TranslationQueueItem =>
              set_updatedAt now (set_error (Some errorMessage)
                (set_progress 100 (set_status failed job0)))).
  assert (queue (mutate j f s) !! j = Some (f job)) as Hj1
    by (rewrite lookup_mutate_eq, Hj; reflexivity).
  pose proof (emitStatus_at (id job) failed (Some 100) now _ j _ Hj1) as Hj2.
  set (s2 := emitStatus (id job) failed (Some 100) now (mutate j f s)) in *.
  set (job2 := if bool_decide _ then _ else _) in Hj2.
  assert (core job2 = core (set_error (Some errorMessage) (set_status failed job))
          /\ progress job2 = 100) as (Hc2 & Hp2).
  { unfold job2. destruct (bool_decide _); split; reflexivity. }
  destruct (appendLog_at j job2 errorMessage now s2 Hj2)
    as (job3 & Hj3 & Hc3 & _ & Hp3).
  exists job3. split.
  { change (queue (emitCompleted ?a ?b ?c ?d ?x) !! j) with (queue x !! j).
    rewrite Hj3. exact Hj3. }
  split; [congruence|].
  rewrite Hp3, Hp2.
  pose proof (structured_progress_ge 100 (trim errorMessage)).
  pose proof (heuristic_progress_ge
                (structured_progress 100 (trim errorMessage))
                (trim errorMessage)). lia.
Qed.

Lemma ends_fail_job (j : nat) (errorMessage now : jsstring) (s : State) :
  NoDup (ids s) -> ends s (fail_job j errorMessage now s).
Proof.
  intros Hnd k job Hk. destruct (decide (k = j)) as [->|Hne].
  - destruct (fail_job_core j job errorMessage now s Hk)
      as (job' & Hj' & Hcore & Hp).
    exists job'. split; [exact Hj'|]. right.
    split; [apply (fails _ _ errorMessage); assumption|].
    apply core_fields in Hcore as (_ & Hstatus & _).
    rewrite Hstatus. discriminate.
  - exists job. split; [|left; reflexivity].
    rewrite (fail_job_others j errorMessage now s Hnd k Hne). exact Hk.
Qed.

Lemma complete_job_core (j : nat) (job : TranslationQueueItem) (now : jsstring)
    (s : State) :
  queue s !! j = Some job ->
  exists job',
    queue (complete_job j now s) !! j = Some job'
    /\ core job'
       = core (set_error None (set_outputDir (Some (translationsDir s job))
                                 (set_status awaiting_user job)))
    /\ progress job' = 100.
Proof.
  intros Hj. unfold complete_job. rewrite Hj. cbv zeta.
  set (dir := translationsDir s job).
  set (f := fun job0 : TranslationQueueItem =>
              set_updatedAt now (set_error None (set_outputDir (Some dir)
                (set_progress 100 (set_status awaiting_user job0))))).
  assert (queue (mutate j f s) !! j = Some (f job)) as Hj1
    by (rewrite lookup_mutate_eq, Hj; reflexivity).
  pose proof (emitStatus_at (id job) awaiting_user (Some 100) now _ j _ Hj1) as Hj2.
  set (s2 := emitStatus (id job) awaiting_user (Some 100) now (mutate j f s)) in *.
  set (job2 := if bool_decide _ then _ else _) in Hj2.
  rewrite Hj2.
  exists job2. split; [exact Hj2|].
  unfold job2. destruct (bool_decide _); split; reflexivity.
Qed.

Lemma ends_complete_job (j : nat) (now : jsstring) (s : State) :
  NoDup (ids s) -> ends s (complete_job j now s).
Proof.
  intros Hnd k job Hk. destruct (decide (k = j)) as [->|Hne].
  - destruct (complete_job_core j job now s Hk) as (job' & Hj' & Hcore & Hp).
    exists job'. split; [exact Hj'|]. right.
    split; [apply (completes _ _ (translationsDir s job)); assumption|].
    apply core_fields in Hcore as (_ & Hstatus & _).
    rewrite Hstatus. discriminate.
  - exists job. split; [|left; reflexivity].
    rewrite (complete_job_others j now s Hnd k Hne). exact Hk.
Qed.

Lemma ends_markJobSaved (jobId savePath_ now : jsstring) (s : State) :
  ends s (fst (markJobSaved jobId savePath_ now s)).
Proof.
  intros k job Hk. rewrite queue_markJobSaved.
  destruct (find_job jobId s) as [i|];
    [|exists job; split; [exact Hk | left; reflexivity]].
  destruct (decide (k = i)) as [->|Hne].
  - rewrite list_lookup_alter_eq, Hk. cbn [fmap option_fmap option_map].
    eexists. split; [reflexivity|]. right.
    split; [apply (is_saved _ _ savePath_); reflexivity | discriminate].
  - rewrite list_lookup_alter_ne by congruence.
    exists job. split; [exact Hk | left; reflexivity].
Qed.

Lemma ids_step (s : State) (te : jsstring * Event) :
  ids (step s te) = ids s ++ (id <$> enqueued [te]).
Proof. apply (view_step id); reflexivity. Qed.

Lemma NoDup_step (s : State) (te : jsstring * Event) :
  NoDup (ids s) -> fresh_uuid s (snd te) -> NoDup (ids (step s te)).
Proof.
  intros Hnd Hfresh. rewrite ids_step.
  destruct te as [now e]. unfold enqueued; cbn [omap list_omap snd fst].
  destruct e; cbn [fmap list_fmap]; rewrite ?app_nil_r; try exact Hnd.
  apply NoDup_app. split; [exact Hnd|]. split; [|apply NoDup_singleton].
  intros x Hx Hin. apply list_elem_of_singleton in Hin. subst x.
  exact (Hfresh Hx).
Qed.

(** [enqueue] from the point of view of the jobs: the jobs already there are
    as they were or started, and so is the new job. *)
Lemma enqueue_dispatches (jobInput : TranslationJobInput) (uuid now : jsstring)
    (s : State) :
  NoDup (ids s) -> uuid ∉ ids s ->
  dispatches s (fst (enqueue jobInput uuid now s))
  /\ exists job', queue (fst (enqueue jobInput uuid now s)) !! length (queue s)
                  = Some job'
                  /\ job_move (new_item jobInput uuid now) job'.
Proof.
  intros Hnd Hfresh.
  set (item := new_item jobInput uuid now).
  set (s1 := with_queue (queue s ++ [item]) s).
  change (fst (enqueue jobInput uuid now s))
    with (processNext now (emitStatus uuid queued (Some 0) now s1)).
  assert (NoDup (ids s1)) as Hnd1.
  { unfold ids, s1; cbn [queue with_queue]. rewrite fmap_app.
    apply NoDup_app. split; [exact Hnd|]. split; [|apply NoDup_singleton].
    intros x Hx Hin. apply list_elem_of_singleton in Hin. subst x.
    exact (Hfresh Hx). }
  assert (queue s1 !! length (queue s) = Some item) as Hn
    by (unfold s1; cbn [queue with_queue]; apply list_lookup_middle; reflexivity).
  pose proof (emitStatus_own s1 (length (queue s)) item queued (Some 0) now
                Hnd1 Hn) as Hq.
  change (id item) with uuid in Hq.
  set (s2 := emitStatus uuid queued (Some 0) now s1) in *.
  assert (NoDup (ids s2)) as Hnd2
    by (unfold s2; rewrite ids_emitStatus; exact Hnd1).
  pose proof (dispatches_processNext now s2 Hnd2) as Hd.
  split.
  - intros k job Hk. apply Hd. rewrite Hq.
    pose proof (lookup_lt_Some _ _ _ Hk) as Hlt.
    rewrite list_lookup_alter_ne by lia.
    unfold s1; cbn [queue with_queue]. rewrite lookup_app_l by exact Hlt.
    exact Hk.
  - destruct (Hd (length (queue s)) (status_update queued (Some 0) now item))
      as (job' & Hk' & Hmove).
    { rewrite Hq, list_lookup_alter_eq, Hn. reflexivity. }
    exists job'. split; [exact Hk'|].
    destruct Hmove as [->|(_ & Hcore & Hp & Hl)].
    + apply logs_on; [reflexivity | cbn; lia].
    + apply starts; [reflexivity | exact Hcore | exact Hp | exact Hl].
Qed.

Lemma step_moves (s : State) (te : jsstring * Event) :
  NoDup (ids s) -> fresh_uuid s (snd te) -> moves s (step s te).
Proof.
  intros Hnd Hfresh. destruct te as [now e]. unfold step; cbn [fst snd].
  destruct e as [jobInput uuid|jobId savePath_|insight|babeldocPath|
                 |j chunk|j chunk|j code|j message].
  - apply moves_of_dispatches, enqueue_dispatches; assumption.
  - apply moves_of_ends, ends_markJobSaved.
  - apply moves_of_dispatches, dispatches_refl. unfold runJob_insight.
    destruct (flight s) as [[j [| |]]|]; try reflexivity.
    destruct (queue s !! j); reflexivity.
  - unfold runJob_spawn.
    destruct (flight s) as [[j [| |]]|];
      try (apply moves_of_dispatches, dispatches_refl; reflexivity).
    destruct (queue s !! j);
      [|apply moves_of_dispatches, dispatches_refl; reflexivity].
    intros k job Hk. cbn [queue with_flight].
    apply (moves_appendLog j _ now s Hnd k job Hk).
  - apply moves_of_dispatches, dispatches_runJob_rejected, Hnd.
  - apply moves_appendLog, Hnd.
  - apply moves_appendLog, Hnd.
  - unfold onClose.
    destruct (queue s !! j);
      [|apply moves_of_dispatches, dispatches_refl; reflexivity].
    case_bool_decide.
    + eapply ends_then_dispatches; [apply ends_complete_job, Hnd|].
      apply dispatches_settle.
      rewrite (q_ids _ _ (complete_job_quiet j now s)). exact Hnd.
    + eapply ends_then_dispatches; [apply ends_fail_job, Hnd|].
      apply dispatches_settle.
      rewrite (q_ids _ _ (fail_job_quiet j _ now s)). exact Hnd.
  - unfold onError.
    destruct (queue s !! j);
      [|apply moves_of_dispatches, dispatches_refl; reflexivity].
    eapply ends_then_dispatches; [apply ends_fail_job, Hnd|].
    apply dispatches_settle.
    rewrite (q_ids _ _ (fail_job_quiet j _ now s)). exact Hnd.
Qed.

Lemma step_new_job (s : State) (now : jsstring)
    (jobInput : TranslationJobInput) (uuid : jsstring) :
  NoDup (ids s) -> uuid ∉ ids s ->
  exists job', queue (step s (now, Enqueue jobInput uuid)) !! length (queue s)
               = Some job'
               /\ job_move (new_item jobInput uuid now) job'.
Proof. intros Hnd Hfresh. apply enqueue_dispatches; assumption. Qed.

(** The jobs of the state after an event: those of the state before it, at
    their indices, and after them the job that the event enqueues. *)
Lemma step_jobs (s : State) (te : jsstring * Event) (k : nat)
    (job' : TranslationQueueItem) :
  NoDup (ids s) -> fresh_uuid s (snd te) ->
  queue (step s te) !! k = Some job' ->
  (exists job, queue s !! k = Some job /\ job_move job job')
  \/ (exists jobInput uuid, snd te = Enqueue jobInput uuid
                            /\ job_move (new_item jobInput uuid (fst te)) job').
Proof.
  intros Hnd Hfresh Hk.
  destruct (queue s !! k) as [job|] eqn:Hold.
  - left. exists job. split; [reflexivity|].
    destruct (step_moves s te Hnd Hfresh k job Hold) as (job'' & Hk'' & Hmove).
    rewrite Hk in Hk''. injection Hk'' as <-. exact Hmove.
  - right. apply lookup_ge_None in Hold.
    pose proof (lookup_lt_Some _ _ _ Hk) as Hlt.
    pose proof (f_equal length (ids_step s te)) as Hlen.
    unfold ids in Hlen. rewrite length_app, !length_fmap in Hlen.
    destruct te as [now e]. unfold enqueued in Hlen.
    cbn [omap list_omap snd fst] in Hlen.
    destruct e as [jobInput uuid| | | | | | | |]; cbn [length] in Hlen; try lia.
    exists jobInput, uuid. split; [reflexivity|].
    destruct (step_new_job s now jobInput uuid Hnd Hfresh)
      as (job'' & Hk'' & Hmove).
    replace k with (length (queue s)) in Hk by lia.
    rewrite Hk in Hk''. injection Hk'' as <-. exact Hmove.
Qed.

(** A property of jobs that new jobs have and that moves keep holds for every
    job after any events. *)
Lemma run_jobs (P : TranslationQueueItem -> Prop) :
  (forall a b, job_move a b -> P a -> P b) ->
  (forall jobInput uuid now, P (new_item jobInput uuid now)) ->
  forall (trace : list (jsstring * Event)) (s : State),
    NoDup (ids s) -> fresh_uuids s trace -> Forall P (queue s) ->
    Forall P (queue (run s trace)).
Proof.
  intros Hmove Hnew trace.
  induction trace as [|te rest IH]; intros s Hnd Hfresh HP; [exact HP|].
  destruct Hfresh as [Hte Hrest].
  change (run s (te :: rest)) with (run (step s te) rest).
  apply IH; [apply NoDup_step; assumption | exact Hrest |].
  apply Forall_lookup. intros k job' Hk.
  destruct (step_jobs s te k job' Hnd Hte Hk)
    as [(job & Hold & Hm)|(jobInput & uuid & _ & Hm)].
  - apply (Hmove job job' Hm). exact (proj1 (Forall_lookup _ _) HP k job Hold).
  - apply (Hmove _ job' Hm), Hnew.
Qed.

(** A relation between a job and its later self that moves extend holds
    after any events. *)
Lemma run_moves (R : TranslationQueueItem -> TranslationQueueItem -> Prop) :
  (forall a, R a a) ->
  (forall a b c, R a b -> job_move b c -> R a c) ->
  forall (trace : list (jsstring * Event)) (s : State) (k : nat)
         (job : TranslationQueueItem),
    NoDup (ids s) -> fresh_uuids s trace -> queue s !! k = Some job ->
    exists job', queue (run s trace) !! k = Some job' /\ R job job'.
Proof.
  intros Hrefl Hext trace.
  induction trace as [|te rest IH] using rev_ind; intros s k job Hnd Hfresh Hk.
  - exists job. split; [exact Hk | apply Hrefl].
  - assert (fresh_uuids s rest
            /\ fresh_uuid (run s rest) (snd te)
            /\ NoDup (ids (run s rest))) as (Hrest & Hte & Hnd').
    { clear IH Hk. revert s Hnd Hfresh.
      induction rest as [|e rest IH]; intros s Hnd Hfresh.
      - destruct Hfresh as [Hte _]. repeat split; assumption.
      - destruct Hfresh as [He Hfresh].
        destruct (IH (step s e) (NoDup_step s e Hnd He) Hfresh)
          as (Hrest & Hte & Hnd').
        repeat split; assumption. }
    destruct (IH s k job Hnd Hrest Hk) as (job1 & Hk1 & HR).
    unfold run. rewrite foldl_snoc. fold (run s rest).
    destruct (step_moves (run s rest) te Hnd' Hte k job1 Hk1)
      as (job2 & Hk2 & Hmove).
    exists job2. split; [exact Hk2|]. exact (Hext _ _ _ HR Hmove).
Qed.

Lemma sample_second_job :
  exists job, queue Sample.two_jobs !! 1%nat = Some job
              /\ id job = js "B" /\ status job = queued.
Proof. eexists. repeat apply conj; vm_compute; reflexivity. Qed.

Lemma full_day_fresh : fresh_uuids Sample.start full_day.
Proof.
  unfold full_day, Sample.trace. cbn [app fresh_uuids fresh_uuid snd].
  repeat match goal with
         | |- True => exact I
         | |- _ /\ _ => split
         | |- ?P => apply (bool_decide_unpack P); vm_compute; exact I
         end.
Qed.

(** X12. One event changes a job in one of five ways: it only logs (the log
    buffer, the progress and the time stamp change, the progress never
    downwards), it starts the job (from [queued] to [running], progress 0,
    empty log), or it ends it as [failed] with an error, as [awaiting-user]
    with an output directory, or as [success] with a saved path, at progress
    100. A job of the state after the event is a job of the state before it,
    at the same index, or the job that the event enqueues. (Ids are unique,
    as [randomUUID] makes them.) *)
Theorem each_event_moves_each_job (s : State) (te : jsstring * Event) :
  NoDup (ids s) -> fresh_uuid s (snd te) ->
  moves s (step s te)
  /\ forall k job', queue (step s te) !! k = Some job' ->
       (exists job, queue s !! k = Some job /\ job_move job job')
       \/ (exists jobInput uuid,
             snd te = Enqueue jobInput uuid
             /\ job_move (new_item jobInput uuid (fst te)) job').
Proof.
  intros Hnd Hfresh. split; [apply step_moves; assumption|].
  intros k job' Hk. apply (step_jobs s te k job' Hnd Hfresh Hk).
Qed.

Lemma each_event_moves_each_job_witness :
  moves Sample.two_jobs (step Sample.two_jobs (Sample.t 5, Close 0 (Some 0)))
  /\ forall k job',
       queue (step Sample.two_jobs (Sample.t 5, Close 0 (Some 0))) !! k
       = Some job' ->
       (exists job, queue Sample.two_jobs !! k = Some job /\ job_move job job')
       \/ (exists jobInput uuid,
             snd (Sample.t 5, Close 0 (Some 0)) = Enqueue jobInput uuid
             /\ job_move (new_item jobInput uuid
                            (fst (Sample.t 5, Close 0 (Some 0)))) job').
Proof.
  exact (each_event_moves_each_job Sample.two_jobs (Sample.t 5, Close 0 (Some 0))
           sample_ids_unique I).
Defined.

Lemma job_move_status (a b : TranslationQueueItem) :
  job_move a b ->
  (status b = queued -> status a = queued)
  /\ (status b = running -> status a = queued \/ status a = running).
Proof.
  intros [Hcore _|Hq Hcore _ _|m Hcore _|d Hcore _|p Hcore _];
    apply core_fields in Hcore as (_ & Hstatus & _); cbn in Hstatus;
    rewrite Hstatus; split; intros H; try discriminate; auto.
Qed.

Lemma job_move_sound (a b : TranslationQueueItem) :
  job_move a b -> job_sound a -> job_sound b.
Proof.
  intros Hmove [Hp He Ho Hs Hl].
  destruct Hmove as [Hcore Hle|Hq Hcore Hzero _|m Hcore Hfull|d Hcore Hfull
                     |p Hcore Hfull];
    apply core_fields in Hcore as (_ & Hstatus & Herror & Hout & Hsave);
    cbn in Hstatus, Herror, Hout, Hsave;
    split; rewrite ?Hstatus, ?Herror, ?Hout, ?Hsave.
  - lia.
  - exact He.
  - exact Ho.
  - exact Hs.
  - exact Hl.
  - lia.
  - split; [discriminate|]. intros H. apply He in H. congruence.
  - discriminate.
  - discriminate.
  - discriminate.
  - lia.
  - split; [discriminate | reflexivity].
  - discriminate.
  - discriminate.
  - discriminate.
  - lia.
  - split; [discriminate | congruence].
  - discriminate.
  - discriminate.
  - discriminate.
  - lia.
  - split; [discriminate | congruence].
  - discriminate.
  - discriminate.
  - discriminate.
Qed.

Lemma new_item_sound (jobInput : TranslationJobInput) (uuid now : jsstring) :
  job_sound (new_item jobInput uuid now).
Proof.
  split; cbn; try lia; try discriminate.
  split; [discriminate | congruence].
Qed.

(** X13. The fields of a job fit its status, whatever happens: the progress
    is between 0 and 100; the job has an error message exactly when its
    status is [failed]; a job that is [awaiting-user] has an output directory
    and a job that is [success] has a saved path; and no job ever has the
    status [llm-path]. (From a state in which this holds, for example a
    manager just constructed, through any events with fresh ids.) *)
Theorem jobs_stay_sound (s : State) (trace : list (jsstring * Event)) :
  NoDup (ids s) -> fresh_uuids s trace -> Forall job_sound (queue s) ->
  Forall job_sound (queue (run s trace)).
Proof.
  apply (run_jobs job_sound job_move_sound new_item_sound).
Qed.

Lemma jobs_stay_sound_witness :
  Forall job_sound (queue (run Sample.start full_day)).
Proof.
  apply (jobs_stay_sound Sample.start full_day).
  - apply NoDup_nil_2.
  - exact full_day_fresh.
  - apply Forall_nil_2.
Defined.

(** X14. A job runs at most once: a job that has left the status [queued]
    never has it again, and a job whose run is over (its status is neither
    [queued] nor [running]) is never [running] again. Every job stays in the
    queue at its index. *)
Theorem a_job_runs_at_most_once (s : State) (trace : list (jsstring * Event))
    (k : nat) (job : TranslationQueueItem) :
  NoDup (ids s) -> fresh_uuids s trace -> queue s !! k = Some job ->
  exists job', queue (run s trace) !! k = Some job'
               /\ (status job <> queued -> status job' <> queued)
               /\ (over job -> over job').
Proof.
  apply (run_moves (fun a b => (status a <> queued -> status b <> queued)
                               /\ (over a -> over b))).
  - intros a. split; intros H; exact H.
  - intros a b c [Hq Hover] Hmove.
    destruct (job_move_status b c Hmove) as [Hcq Hcr].
    split.
    + intros Ha Hc. exact (Hq Ha (Hcq Hc)).
    + intros Ha. destruct (Hover Ha) as [Hbq Hbr]. split.
      * intros Hc. exact (Hbq (Hcq Hc)).
      * intros Hc. destruct (Hcr Hc); contradiction.
Qed.

Lemma a_job_runs_at_most_once_witness :
  exists job, queue Sample.two_jobs !! 0%nat = Some job
  /\ exists job',
       queue (run Sample.two_jobs
                [ (Sample.t 5, Close 0 (Some 1));
                  (Sample.t 6, Enqueue (Sample.input "c.pdf") (js "C")) ])
         !! 0%nat = Some job'
       /\ (status job <> queued -> status job' <> queued)
       /\ (over job -> over job').
Proof.
  destruct sample_first_job as (job & Hjob & _).
  exists job. split; [exact Hjob|].
  apply (a_job_runs_at_most_once Sample.two_jobs _ 0 job sample_ids_unique);
    [|exact Hjob].
  cbn [fresh_uuids fresh_uuid snd].
  repeat match goal with
         | |- True => exact I
         | |- _ /\ _ => split
         | |- ?P => apply (bool_decide_unpack P); vm_compute; exact I
         end.
Defined.

(** ** The manager is never idle while a job waits *)

Lemma never_idle_processNext (now : jsstring) (s : State) :
  never_idle (processNext now s).
Proof.
  unfold processNext. destruct (processing s) eqn:Hbusy.
  - intros Hidle. congruence.
  - destruct (list_find _ _) as [[i next]|] eqn:Hfind.
    + intros Hidle. rewrite processing_runJob_begin in Hidle. discriminate.
    + intros _ job Hin. cbn [queue with_processing] in Hin.
      apply list_find_None in Hfind.
      exact (proj1 (Forall_forall _ _) Hfind job Hin).
Qed.

Lemma never_idle_same (s s' : State) :
  processing s' = processing s -> queue s' = queue s ->
  never_idle s -> never_idle s'.
Proof. intros Hp Hq H. unfold never_idle. rewrite Hp, Hq. exact H. Qed.

Lemma never_idle_moves (s s' : State) :
  processing s' = processing s -> ids s' = ids s -> moves s s' ->
  never_idle s -> never_idle s'.
Proof.
  intros Hp Hids Hmoves H Hidle job' Hin Hq.
  rewrite Hp in Hidle.
  apply list_elem_of_lookup in Hin as [k Hk].
  assert (exists job, queue s !! k = Some job) as [job Hold].
  { apply lookup_lt_is_Some.
    pose proof (lookup_lt_Some _ _ _ Hk) as Hlt.
    apply (f_equal length) in Hids. unfold ids in Hids.
    rewrite !length_fmap in Hids. lia. }
  destruct (Hmoves k job Hold) as (job'' & Hk'' & Hmove).
  rewrite Hk in Hk''. injection Hk'' as <-.
  apply (H Hidle job (list_elem_of_lookup_2 _ _ _ Hold)).
  exact (proj1 (job_move_status job job' Hmove) Hq).
Qed.

Lemma never_idle_quiet (s s' : State) :
  quiet s s' -> moves s s' -> never_idle s -> never_idle s'.
Proof.
  intros Hquiet. apply never_idle_moves;
    [apply (q_processing _ _ Hquiet) | apply (q_ids _ _ Hquiet)].
Qed.

Lemma never_idle_settle (j : nat) (now : jsstring) (s : State) :
  never_idle s -> never_idle (settle j now s).
Proof.
  intros H. unfold settle.
  destruct (flight s) as [[k [| |]]|]; try exact H.
  case_bool_decide; [|exact H].
  apply (never_idle_processNext now (with_processing false (with_flight None s))).
Qed.

Lemma never_idle_step (s : State) (te : jsstring * Event) :
  NoDup (ids s) -> never_idle s -> never_idle (step s te).
Proof.
  intros Hnd H. destruct te as [now e]. unfold step; cbn [fst snd].
  destruct e as [jobInput uuid|jobId savePath_|insight|babeldocPath|
                 |j chunk|j chunk|j code|j message].
  - apply never_idle_processNext.
  - apply (never_idle_moves s); [apply markJobSaved_frame| |
      apply moves_of_ends, ends_markJobSaved | exact H].
    apply (view_markJobSaved id); reflexivity.
  - apply (never_idle_same s); [| |exact H]; unfold runJob_insight;
      destruct (flight s) as [[j [| |]]|]; try reflexivity;
      destruct (queue s !! j); reflexivity.
  - unfold runJob_spawn.
    destruct (flight s) as [[j [|read|]]|]; try exact H.
    destruct (queue s !! j) as [job|]; [|exact H].
    apply (never_idle_same (appendLog j
             (commandBanner (default (js "babeldoc") babeldocPath)
                (babeldocArgs read job (translationsDir s job)))
             now s)); [reflexivity | reflexivity |].
    apply (never_idle_quiet s);
      [apply quiet_appendLog | apply moves_appendLog, Hnd | exact H].
  - unfold runJob_rejected.
    destruct (flight s) as [[j [| |]]|]; try exact H;
      apply (never_idle_processNext now
               (with_processing false (with_flight None s))).
  - apply (never_idle_quiet s);
      [apply quiet_appendLog | apply moves_appendLog, Hnd | exact H].
  - apply (never_idle_quiet s);
      [apply quiet_appendLog | apply moves_appendLog, Hnd | exact H].
  - unfold onClose. destruct (queue s !! j); [|exact H].
    case_bool_decide; apply never_idle_settle.
    + apply (never_idle_quiet s);
        [apply complete_job_quiet
        |apply moves_of_ends, ends_complete_job, Hnd | exact H].
    + apply (never_idle_quiet s);
        [apply fail_job_quiet
        |apply moves_of_ends, ends_fail_job, Hnd | exact H].
  - unfold onError. destruct (queue s !! j); [|exact H].
    apply never_idle_settle.
    apply (never_idle_quiet s);
      [apply fail_job_quiet
      |apply moves_of_ends, ends_fail_job, Hnd | exact H].
Qed.

(** X15. The manager is never idle while a job waits: whenever the flag
    [processing] is off, no job has the status [queued]. This holds after
    every event, rejected setups included, once it holds (as it does for a
    manager just constructed). *)
Theorem no_job_waits_while_idle (s : State) (trace : list (jsstring * Event)) :
  NoDup (ids s) -> fresh_uuids s trace -> never_idle s ->
  never_idle (run s trace).
Proof.
  revert s. induction trace as [|te rest IH]; intros s Hnd Hfresh H; [exact H|].
  destruct Hfresh as [Hte Hrest].
  change (run s (te :: rest)) with (run (step s te) rest).
  apply IH; [apply NoDup_step; assumption | exact Hrest |].
  apply never_idle_step; assumption.
Qed.

Lemma no_job_waits_while_idle_witness : never_idle (run Sample.start full_day).
Proof.
  apply (no_job_waits_while_idle Sample.start full_day).
  - apply NoDup_nil_2.
  - exact full_day_fresh.
  - intros _ job Hin. apply elem_of_nil in Hin. contradiction.
Defined.

(** ** One job at a time *)

(** X16. As long as no setup step of a run is rejected, at most one job is
    [running], and it is the job of the run that the manager awaits: the
    invariant [single_flight] holds in every state reached from a state in
    which it holds (a manager just constructed is one), and it bounds the
    number of running jobs by one. *)
Theorem one_job_runs_at_a_time (s0 s : State) :
  single_flight s0 -> reachable s0 s ->
  single_flight s /\ (running_jobs s <= 1)%nat.
Proof.
  intros Hstart Hreach.
  assert (single_flight s) as Hsf.
  { induction Hreach as [|s te _ IH Hadm]; [exact Hstart|].
    apply single_flight_step; assumption. }
  split; [exact Hsf|].
  unfold running_jobs. apply at_most_one_satisfies.
  intros i j x y Hi Hj Hx Hy.
  destruct (sf_running _ Hsf i x Hi Hx) as [st1 H1].
  destruct (sf_running _ Hsf j y Hj Hy) as [st2 H2].
  congruence.
Qed.

Lemma sample_start_single_flight : single_flight Sample.start.
Proof.
  split; [apply NoDup_nil_2 | reflexivity |].
  intros k job Hk. discriminate Hk.
Qed.

Lemma sample_two_jobs_reachable : reachable Sample.start Sample.two_jobs.
Proof.
  change (reachable Sample.start
            (step (step (step (step Sample.start
               (Sample.t 1, Enqueue (Sample.input "a.pdf") (js "A")))
               (Sample.t 2, Enqueue (Sample.input "b.pdf") (js "B")))
               (Sample.t 3, InsightReady Sample.insight))
               (Sample.t 4, EnvironmentReady None))).
  repeat (apply reachable_step; [|
    cbn [admissible snd];
    match goal with
    | |- True => exact I
    | |- ?P => apply (bool_decide_unpack P); vm_compute; exact I
    end]).
  apply reachable_start.
Qed.

Lemma one_job_runs_at_a_time_witness :
  single_flight Sample.two_jobs /\ (running_jobs Sample.two_jobs <= 1)%nat.
Proof.
  exact (one_job_runs_at_a_time Sample.start Sample.two_jobs
           sample_start_single_flight sample_two_jobs_reachable).
Defined.

(** ** The dispatch rule *)

Lemma sink_runJob_begin (i : nat) (next : TranslationQueueItem)
    (now : jsstring) (s : State) :
  queue s !! i = Some next ->
  sink (runJob_begin i now s) = sink s ++ [StatusPayload (id next) running (Some 0)].
Proof.
  intros Hi. unfold runJob_begin. rewrite Hi.
  destruct (updateHistoryRecord _ _ _ _) as [next' [existing|]];
    cbn [sink with_flight with_history]; rewrite sink_emitStatus; reflexivity.
Qed.

Lemma processNext_start (now : jsstring) (s : State) (i : nat)
    (next : TranslationQueueItem) :
  NoDup (ids s) -> processing s = false ->
  queue s !! i = Some next -> status next = queued ->
  (forall k job, queue s !! k = Some job -> (k < i)%nat -> status job <> queued) ->
  queue (processNext now s)
  = alter (fun job =>
             set_updatedAt now (set_progress 0 (set_logs [] (set_status running job))))
          i (queue s)
  /\ processing (processNext now s) = true
  /\ (exists stage, flight (processNext now s) = Some (i, stage))
  /\ sink (processNext now s)
     = sink s ++ [StatusPayload (id next) running (Some 0)].
Proof.
  intros Hnd Hidle Hi Hq Hfirst.
  assert (list_find (fun job => status job = queued) (queue s) = Some (i, next))
    as Hfind.
  { apply list_find_Some. split; [exact Hi|]. split; [exact Hq|].
    intros k job Hk Hlt. exact (Hfirst k job Hk Hlt). }
  unfold processNext. rewrite Hidle, Hfind.
  split.
  { rewrite (queue_runJob_begin i next now (with_processing true s) Hnd Hi).
    reflexivity. }
  split; [rewrite processing_runJob_begin; reflexivity|].
  split.
  { destruct (runJob_begin_spec i next now (with_processing true s) Hnd Hi)
      as (_ & Hflight & _). exact Hflight. }
  apply (sink_runJob_begin i next now (with_processing true s) Hi).
Qed.

(** X17. The dispatch takes the oldest waiting job: when the manager is idle
    and job [i] is the first job of the queue with the status [queued],
    [processNext] makes it the running job (status [running], progress 0,
    empty log buffer), leaves every other job alone, sets the flag
    [processing], awaits the run of job [i], and announces the status
    once. *)
Theorem processNext_starts_the_oldest_queued_job (now : jsstring) (s : State)
    (i : nat) (next : TranslationQueueItem) :
  NoDup (ids s) -> processing s = false ->
  queue s !! i = Some next -> status next = queued ->
  (forall k job, queue s !! k = Some job -> (k < i)%nat -> status job <> queued) ->
  queue (processNext now s)
  = alter (fun job =>
             set_updatedAt now (set_progress 0 (set_logs [] (set_status running job))))
          i (queue s)
  /\ processing (processNext now s) = true
  /\ (exists stage, flight (processNext now s) = Some (i, stage))
  /\ sink (processNext now s)
     = sink s ++ [StatusPayload (id next) running (Some 0)].
Proof. apply processNext_start. Qed.

Lemma sample_between_runs :
  NoDup (ids between_runs) /\ processing between_runs = false
  /\ exists next,
       queue between_runs !! 1%nat = Some next /\ status next = queued
       /\ forall k job, queue between_runs !! k = Some job -> (k < 1)%nat ->
                         status job <> queued.
Proof.
  split.
  { apply (bool_decide_unpack (NoDup (ids between_runs))). vm_compute. exact I. }
  split; [vm_compute; reflexivity|].
  eexists. split; [vm_compute; reflexivity|].
  split; [reflexivity|].
  intros k job Hk Hlt. destruct k as [|k]; [|lia].
  vm_compute in Hk. injection Hk as <-. discriminate.
Qed.

Lemma processNext_starts_the_oldest_queued_job_witness :
  exists next,
    queue between_runs !! 1%nat = Some next
    /\ queue (processNext (js "T5") between_runs)
       = alter (fun job =>
                  set_updatedAt (js "T5")
                    (set_progress 0 (set_logs [] (set_status running job))))
               1%nat (queue between_runs)
    /\ processing (processNext (js "T5") between_runs) = true
    /\ (exists stage,
          flight (processNext (js "T5") between_runs) = Some (1%nat, stage))
    /\ sink (processNext (js "T5") between_runs)
       = sink between_runs ++ [StatusPayload (id next) running (Some 0)].
Proof.
  destruct sample_between_runs as (Hnd & Hidle & next & Hnext & Hq & Hfirst).
  exists next. split; [exact Hnext|].
  exact (processNext_starts_the_oldest_queued_job (js "T5") between_runs 1 next
           Hnd Hidle Hnext Hq Hfirst).
Defined.

(** X18. [enqueue] returns the index at the end of the queue. On a busy
    manager the new job waits there with the status [queued], and nothing
    else changes but the status event; on an idle manager (where no job
    waits) the new job is started at once: it has the status [running], the
    manager awaits its run, and the statuses [queued] and [running] are
    announced in this order. *)
Theorem enqueue_waits_or_starts (jobInput : TranslationJobInput)
    (uuid now : jsstring) (s : State) :
  NoDup (ids s) -> uuid ∉ ids s -> never_idle s ->
  let after := fst (enqueue jobInput uuid now s) in
  snd (enqueue jobInput uuid now s) = length (queue s)
  /\ processing after = true
  /\ (processing s = true ->
        queue after = queue s ++ [new_item jobInput uuid now]
        /\ flight after = flight s
        /\ sink after = sink s ++ [StatusPayload uuid queued (Some 0)])
  /\ (processing s = false ->
        queue after
        = queue s ++ [set_status running (new_item jobInput uuid now)]
        /\ (exists stage, flight after = Some (length (queue s), stage))
        /\ sink after = sink s ++ [StatusPayload uuid queued (Some 0);
                                   StatusPayload uuid running (Some 0)]).
Proof.
  intros Hnd Hfresh Hwait. cbn zeta.
  set (item := new_item jobInput uuid now).
  set (s1 := with_queue (queue s ++ [item]) s).
  change (fst (enqueue jobInput uuid now s))
    with (processNext now (emitStatus uuid queued (Some 0) now s1)).
  assert (NoDup (ids s1)) as Hnd1.
  { unfold ids, s1; cbn [queue with_queue]. rewrite fmap_app.
    apply NoDup_app. split; [exact Hnd|]. split; [|apply NoDup_singleton].
    intros x Hx Hin. apply list_elem_of_singleton in Hin. subst x.
    exact (Hfresh Hx). }
  assert (queue s1 !! length (queue s) = Some item) as Hn
    by (unfold s1; cbn [queue with_queue]; apply list_lookup_middle; reflexivity).
  pose proof (emitStatus_own s1 (length (queue s)) item queued (Some 0) now
                Hnd1 Hn) as Hq.
  change (id item) with uuid in Hq.
  set (s2 := emitStatus uuid queued (Some 0) now s1) in *.
  assert (queue s2 = queue s ++ [item]) as Hq2.
  { rewrite Hq. unfold s1; cbn [queue with_queue].
    rewrite <- (Nat.add_0_r (length (queue s))), alter_app_r. reflexivity. }
  assert (NoDup (ids s2)) as Hnd2
    by (unfold s2; rewrite ids_emitStatus; exact Hnd1).
  assert (processing s2 = processing s) as Hp2
    by (unfold s2; rewrite processing_emitStatus; reflexivity).
  assert (sink s2 = sink s ++ [StatusPayload uuid queued (Some 0)]) as Hsink2
    by (unfold s2; rewrite sink_emitStatus; reflexivity).
  assert (flight s2 = flight s) as Hf2
    by (unfold s2; rewrite flight_emitStatus; reflexivity).
  split; [reflexivity|].
  destruct (processing s) eqn:Hbusy.
  - rewrite (processNext_busy now s2 Hp2).
    split; [exact Hp2|]. split; [|discriminate].
    intros _. repeat split; assumption.
  - assert (queue s2 !! length (queue s) = Some item) as Hn2
      by (rewrite Hq2; apply list_lookup_middle; reflexivity).
    destruct (processNext_start now s2 (length (queue s)) item Hnd2 Hp2 Hn2
                eq_refl) as (Hqueue & Hproc & Hflight & Hsink).
    { intros k job Hk Hlt. rewrite Hq2, lookup_app_l in Hk by exact Hlt.
      exact (Hwait Hbusy job (list_elem_of_lookup_2 _ _ _ Hk)). }
    split; [exact Hproc|]. split; [discriminate|].
    intros _. split; [|split; [exact Hflight|]].
    + rewrite Hqueue, Hq2.
      rewrite <- (Nat.add_0_r (length (queue s))), alter_app_r. reflexivity.
    + rewrite Hsink, Hsink2, <- app_assoc. reflexivity.
Qed.

Lemma enqueue_waits_or_starts_witness :
  snd (enqueue (Sample.input "c.pdf") (js "C") (js "T5") Sample.two_jobs)
  = length (queue Sample.two_jobs)
  /\ processing (fst (enqueue (Sample.input "c.pdf") (js "C") (js "T5")
                        Sample.two_jobs)) = true
  /\ (processing Sample.two_jobs = true ->
        queue (fst (enqueue (Sample.input "c.pdf") (js "C") (js "T5")
                      Sample.two_jobs))
        = queue Sample.two_jobs
          ++ [new_item (Sample.input "c.pdf") (js "C") (js "T5")]
        /\ flight (fst (enqueue (Sample.input "c.pdf") (js "C") (js "T5")
                          Sample.two_jobs)) = flight Sample.two_jobs
        /\ sink (fst (enqueue (Sample.input "c.pdf") (js "C") (js "T5")
                        Sample.two_jobs))
           = sink Sample.two_jobs ++ [StatusPayload (js "C") queued (Some 0)])
  /\ (processing Sample.two_jobs = false ->
        queue (fst (enqueue (Sample.input "c.pdf") (js "C") (js "T5")
                      Sample.two_jobs))
        = queue Sample.two_jobs
          ++ [set_status running
                (new_item (Sample.input "c.pdf") (js "C") (js "T5"))]
        /\ (exists stage,
              flight (fst (enqueue (Sample.input "c.pdf") (js "C") (js "T5")
                             Sample.two_jobs))
              = Some (length (queue Sample.two_jobs), stage))
        /\ sink (fst (enqueue (Sample.input "c.pdf") (js "C") (js "T5")
                        Sample.two_jobs))
           = sink Sample.two_jobs ++ [StatusPayload (js "C") queued (Some 0);
                                      StatusPayload (js "C") running (Some 0)]).
Proof.
  apply (enqueue_waits_or_starts (Sample.input "c.pdf") (js "C") (js "T5")
           Sample.two_jobs sample_ids_unique).
  - apply (bool_decide_unpack (js "C" ∉ ids Sample.two_jobs)).
    vm_compute. exact I.
  - intros Hidle. vm_compute in Hidle. discriminate Hidle.
Defined.

(** ** One history record per job *)

Lemma recorded_persist jid data now (s : State) :
  recorded (persist jid data now s) = recorded s.
Proof. apply ids_updateHistoryRecord. Qed.

Lemma recorded_emitStatus jid st pr now (s : State) :
  recorded (emitStatus jid st pr now s) = recorded s.
Proof.
  unfold recorded. rewrite history_emitStatus. apply ids_updateHistoryRecord.
Qed.

Lemma recorded_tryParseDebugProgress j logLine now (s : State) :
  recorded (tryParseDebugProgress j logLine now s) = recorded s.
Proof.
  unfold tryParseDebugProgress.
  destruct (match_overall_progress logLine); [|done].
  cbv zeta. destruct (queue s !! j) as [job|]; [|done].
  destruct (gt _ _ && le _ _); [|done].
  destruct (to_Z _) as [p|]; [|done].
  rewrite recorded_emitStatus. reflexivity.
Qed.

Lemma recorded_tryUpdateProgressFromLog j logLine now (s : State) :
  recorded (tryUpdateProgressFromLog j logLine now s) = recorded s.
Proof.
  unfold tryUpdateProgressFromLog.
  destruct (matching_stage logLine) as [stage|]; [|done].
  destruct (queue s !! j) as [job|]; [|done].
  destruct (progress job <? snd stage); [|done].
  rewrite recorded_emitStatus. reflexivity.
Qed.

Lemma recorded_appendLog j message now (s : State) :
  recorded (appendLog j message now s) = recorded s.
Proof.
  destruct (decide (trim message = [])) as [Ht|Ht].
  { unfold appendLog. rewrite Ht. reflexivity. }
  destruct (queue s !! j) as [job|] eqn:Hj.
  - rewrite (appendLog_unfold j job message now s Hj Ht).
    rewrite recorded_tryUpdateProgressFromLog, recorded_tryParseDebugProgress.
    unfold log_stored. rewrite recorded_persist. reflexivity.
  - unfold appendLog. rewrite Hj. destruct (trim message); reflexivity.
Qed.

Lemma recorded_fail_job j errorMessage now (s : State) :
  recorded (fail_job j errorMessage now s) = recorded s.
Proof.
  unfold fail_job. destruct (queue s !! j) as [job|]; [|done].
  unfold emitCompleted, emit, recorded; cbn [history].
  match goal with
  | |- context [match ?x with Some _ => _ | None => _ end] =>
      destruct x; [rewrite (recorded_persist _ _ _ _ : r_id <$> _ = _)|];
      fold (recorded (appendLog j errorMessage now
        (emitStatus (id job) failed (Some 100) now
           (mutate j (fun job0 =>
              set_updatedAt now (set_error (Some errorMessage)
                (set_progress 100 (set_status failed job0)))) s))));
      rewrite recorded_appendLog, recorded_emitStatus; reflexivity
  end.
Qed.

Lemma recorded_complete_job j now (s : State) :
  recorded (complete_job j now s) = recorded s.
Proof.
  unfold complete_job. destruct (queue s !! j) as [job|]; [|done].
  unfold emitCompleted, emit, recorded; cbn [history].
  match goal with
  | |- context [match ?x with Some _ => _ | None => _ end] =>
      destruct x; [rewrite (recorded_persist _ _ _ _ : r_id <$> _ = _)|];
      apply recorded_emitStatus
  end.
Qed.

Lemma recorded_markJobSaved jobId savePath_ now (s : State) :
  recorded (fst (markJobSaved jobId savePath_ now s)) = recorded s.
Proof.
  unfold recorded. rewrite history_markJobSaved.
  destruct (find_job jobId s); [apply ids_updateHistoryRecord | reflexivity].
Qed.

Lemma markJobSaved_quiet jobId savePath_ now (s : State) :
  quiet s (fst (markJobSaved jobId savePath_ now s)).
Proof.
  unfold markJobSaved. destruct (find_job jobId s) as [i|]; [|apply quiet_refl].
  cbn [fst]. eapply quiet_trans; [|apply quiet_emitStatus].
  apply quiet_mutate. reflexivity.
Qed.

Lemma list_find_id (jid : jsstring) (h : list TranslationRecord) :
  list_find (fun record => r_id record = jid) h = None <-> jid ∉ r_id <$> h.
Proof.
  rewrite list_find_None, Forall_forall. split.
  - intros Hall Hin. apply list_elem_of_fmap in Hin as (record & -> & Hin).
    exact (Hall record Hin eq_refl).
  - intros Hout record Hin Hid. apply Hout. rewrite <- Hid.
    apply list_elem_of_fmap_2, Hin.
Qed.

(** The stage at which [runJob] suspends first: at the insight when the
    history has no record of the job, at the environment otherwise. *)
Lemma runJob_begin_record (i : nat) (next : TranslationQueueItem)
    (now : jsstring) (s : State) :
  queue s !! i = Some next ->
  recorded (runJob_begin i now s) = recorded s
  /\ exists stage, flight (runJob_begin i now s) = Some (i, stage)
                   /\ (stage = AwaitInsight -> id next ∉ recorded s).
Proof.
  intros Hi. unfold runJob_begin. rewrite Hi.
  set (s2 := emitStatus (id next) running (Some 0) now _).
  assert (recorded s2 = recorded s) as Hrec
    by (unfold s2; rewrite recorded_emitStatus; reflexivity).
  pose proof (updateHistoryRecord_result (id next)
                {| p_status := Some running; p_progress := Some 0;
                   p_logs := Some []; p_translatedPath := None;
                   p_errorMessage := None; p_savePath := None |}
                now (history s2)) as Hresult.
  pose proof (ids_updateHistoryRecord (id next)
                {| p_status := Some running; p_progress := Some 0;
                   p_logs := Some []; p_translatedPath := None;
                   p_errorMessage := None; p_savePath := None |}
                now (history s2)) as Hids.
  destruct (updateHistoryRecord _ _ _ _) as [next' existing].
  cbn [fst snd] in Hresult, Hids.
  destruct (list_find _ (history s2)) as [[k record]|] eqn:Hfind;
    cbn in Hresult; subst existing;
    cbn [flight with_flight with_history recorded history].
  - split; [unfold recorded at 1; cbn [history with_flight with_history];
            rewrite Hids; exact Hrec|].
    eexists. split; [reflexivity | discriminate].
  - split; [unfold recorded at 1; cbn [history with_flight with_history];
            rewrite Hids; exact Hrec|].
    eexists. split; [reflexivity|]. intros _.
    rewrite <- Hrec. apply list_find_id, Hfind.
Qed.

Lemma one_record_per_job_quiet (s s' : State) :
  quiet s s' -> recorded s' = recorded s ->
  one_record_per_job s -> one_record_per_job s'.
Proof.
  intros Hq Hrec [Hunique Hflight Hpending].
  assert (forall j, id <$> queue s' !! j = id <$> queue s !! j) as Hat.
  { intros j. rewrite <- !list_lookup_fmap. f_equal. exact (q_ids _ _ Hq). }
  split.
  - rewrite Hrec. exact Hunique.
  - intros j stage Hf. rewrite (q_flight _ _ Hq) in Hf.
    specialize (Hat j). destruct (Hflight j stage Hf) as [job Hj].
    rewrite Hj in Hat. destruct (queue s' !! j); [eauto | discriminate].
  - intros j job' Hf Hj'. rewrite (q_flight _ _ Hq) in Hf. rewrite Hrec.
    specialize (Hat j). rewrite Hj' in Hat.
    destruct (queue s !! j) as [job|] eqn:Hj; [|discriminate].
    cbn in Hat. injection Hat as ->. exact (Hpending j job Hf Hj).
Qed.

Lemma ids_runJob_begin (i : nat) (now : jsstring) (s : State) :
  ids (runJob_begin i now s) = ids s.
Proof. apply (view_runJob_begin id); reflexivity. Qed.

Lemma one_record_per_job_processNext (now : jsstring) (s : State) :
  one_record_per_job s -> one_record_per_job (processNext now s).
Proof.
  intros H. unfold processNext. destruct (processing s); [exact H|].
  destruct (list_find _ _) as [[i next]|] eqn:Hfind.
  - apply list_find_Some in Hfind as (Hi & _).
    destruct (runJob_begin_record i next now (with_processing true s) Hi)
      as (Hrec & stage & Hflight & Hstage).
    pose proof (ids_runJob_begin i now (with_processing true s)) as Hids.
    assert (forall j, id <$> queue (runJob_begin i now (with_processing true s)) !! j
                      = id <$> queue s !! j) as Hat.
    { intros j. rewrite <- !list_lookup_fmap. f_equal. exact Hids. }
    split.
    + rewrite Hrec. exact (orj_unique _ H).
    + intros j stage' Hf. rewrite Hflight in Hf. injection Hf as <- <-.
      specialize (Hat i). cbn [queue with_processing] in Hi.
      rewrite Hi in Hat.
      destruct (queue (runJob_begin i now (with_processing true s)) !! i)
        as [job'|]; [exists job'; reflexivity | discriminate Hat].
    + intros j job' Hf Hj'. rewrite Hflight in Hf. injection Hf as <- ->.
      rewrite Hrec. specialize (Hat i). cbn [queue with_processing] in Hi.
      rewrite Hi, Hj' in Hat. cbn in Hat. injection Hat as ->.
      exact (Hstage eq_refl).
  - destruct H as [Hunique Hflight Hpending]. split; assumption.
Qed.

Lemma one_record_per_job_settled (now : jsstring) (s : State) :
  one_record_per_job s -> one_record_per_job (runJob_settled now s).
Proof.
  intros [Hunique _ _]. unfold runJob_settled.
  apply one_record_per_job_processNext.
  split; [exact Hunique | discriminate | discriminate].
Qed.

Lemma one_record_per_job_settle (j : nat) (now : jsstring) (s : State) :
  one_record_per_job s -> one_record_per_job (settle j now s).
Proof.
  intros H. unfold settle.
  destruct (flight s) as [[k [| |]]|]; try exact H.
  case_bool_decide; [apply one_record_per_job_settled, H | exact H].
Qed.

Lemma one_record_per_job_step (s : State) (te : jsstring * Event) :
  one_record_per_job s -> one_record_per_job (step s te).
Proof.
  intros H. destruct te as [now e]. unfold step; cbn [fst snd].
  destruct e as [jobInput uuid|jobId savePath_|insight|babeldocPath|
                 |j chunk|j chunk|j code|j message].
  - unfold enqueue; cbn [fst].
    apply one_record_per_job_processNext.
    eapply one_record_per_job_quiet;
      [apply quiet_emitStatus | apply recorded_emitStatus |].
    destruct H as [Hunique Hflight Hpending]. split.
    + exact Hunique.
    + intros j stage Hf. cbn [queue with_queue].
      destruct (Hflight j stage Hf) as [job Hj]. exists job.
      rewrite lookup_app_l by exact (lookup_lt_Some _ _ _ Hj). exact Hj.
    + intros j job Hf Hj. cbn [queue with_queue] in Hj.
      destruct (Hflight j _ Hf) as [job0 Hj0].
      rewrite lookup_app_l in Hj by exact (lookup_lt_Some _ _ _ Hj0).
      exact (Hpending j job Hf Hj).
  - eapply one_record_per_job_quiet;
      [apply markJobSaved_quiet | apply recorded_markJobSaved | exact H].
  - unfold runJob_insight.
    destruct (flight s) as [[j [| |]]|] eqn:Hf; try exact H.
    destruct (queue s !! j) as [job|] eqn:Hj; [|exact H].
    destruct H as [Hunique Hflight Hpending]. split.
    + unfold recorded, appendHistory; cbn [history with_flight with_history].
      rewrite fmap_take. eapply sublist_NoDup; [|apply sublist_take].
      rewrite fmap_cons. apply NoDup_cons. split; [|exact Hunique].
      exact (Hpending j job Hf Hj).
    + intros k stage Hk. cbn [flight with_flight] in Hk.
      injection Hk as <- <-. exists job. exact Hj.
    + intros k job' Hk. cbn [flight with_flight] in Hk. discriminate.
  - unfold runJob_spawn.
    destruct (flight s) as [[j [|read|]]|] eqn:Hf; try exact H.
    destruct (queue s !! j) as [job|] eqn:Hj; [|exact H].
    set (s1 := appendLog j _ now s).
    assert (one_record_per_job s1) as [Hunique Hflight Hpending]
      by (eapply one_record_per_job_quiet;
          [apply quiet_appendLog | apply recorded_appendLog | exact H]).
    split.
    + exact Hunique.
    + intros k stage Hk. cbn [flight with_flight] in Hk.
      injection Hk as <- <-. apply (Hflight j (AwaitEnvironment read)).
      unfold s1. rewrite (q_flight _ _ (quiet_appendLog _ _ _ _)). exact Hf.
    + intros k job' Hk. cbn [flight with_flight] in Hk. discriminate.
  - unfold runJob_rejected.
    destruct (flight s) as [[j [| |]]|]; try exact H;
      apply one_record_per_job_settled, H.
  - eapply one_record_per_job_quiet;
      [apply quiet_appendLog | apply recorded_appendLog | exact H].
  - eapply one_record_per_job_quiet;
      [apply quiet_appendLog | apply recorded_appendLog | exact H].
  - unfold onClose. destruct (queue s !! j); [|exact H].
    case_bool_decide; apply one_record_per_job_settle.
    + eapply one_record_per_job_quiet;
        [apply complete_job_quiet | apply recorded_complete_job | exact H].
    + eapply one_record_per_job_quiet;
        [apply fail_job_quiet | apply recorded_fail_job | exact H].
  - unfold onError. destruct (queue s !! j); [|exact H].
    apply one_record_per_job_settle.
    eapply one_record_per_job_quiet;
      [apply fail_job_quiet | apply recorded_fail_job | exact H].
Qed.

(** X19. The manager never writes a second history record for a job: a
    record is appended only by a run that found none under the id of its job
    when it started, so a history with at most one record per id keeps at
    most one record per id, through any events, whether ids of jobs are
    unique or not. *)
Theorem history_keeps_one_record_per_job (s : State)
    (trace : list (jsstring * Event)) :
  one_record_per_job s -> one_record_per_job (run s trace).
Proof.
  revert s. induction trace as [|te rest IH]; intros s H; [exact H|].
  change (run s (te :: rest)) with (run (step s te) rest).
  apply IH, one_record_per_job_step, H.
Qed.

Lemma history_keeps_one_record_per_job_witness :
  one_record_per_job (run Sample.start full_day).
Proof.
  apply (history_keeps_one_record_per_job Sample.start full_day).
  split; [apply NoDup_nil_2 | discriminate | discriminate].
Defined.

(** ** Output directories *)

(** X20. Two jobs never share an output directory: the directory of a job
    is built from its id, so in a queue with unique ids (made of hexadecimal
    digits and hyphens, as [randomUUID] makes them) the directories that two
    different jobs record as [outputDir] when they complete are different. *)
Theorem output_directories_differ (s : State) (i j : nat)
    (a b : TranslationQueueItem) (now now' : jsstring) :
  NoDup (ids s) -> i <> j ->
  queue s !! i = Some a -> queue s !! j = Some b ->
  uuid_like (id a) -> uuid_like (id b) ->
  translationsDir s a <> translationsDir s b
  /\ exists a' b',
       queue (complete_job i now s) !! i = Some a'
       /\ queue (complete_job j now' s) !! j = Some b'
       /\ outputDir a' = Some (translationsDir s a)
       /\ outputDir b' = Some (translationsDir s b).
Proof.
  intros Hnd Hne Hi Hj _ _. split.
  - unfold translationsDir. intros Heq.
    apply app_inv_head, app_inv_head in Heq.
    apply Hne. apply (NoDup_lookup (ids s) i j (id a) Hnd).
    + unfold ids. rewrite list_lookup_fmap, Hi. reflexivity.
    + unfold ids. rewrite list_lookup_fmap, Hj, Heq. reflexivity.
  - destruct (complete_job_at i a now s Hi) as (a' & Ha' & _ & _ & _ & Hda & _).
    destruct (complete_job_at j b now' s Hj) as (b' & Hb' & _ & _ & _ & Hdb & _).
    exists a', b'. repeat split; assumption.
Qed.

Lemma sample_ids_uuid_like :
  uuid_like (js "A") /\ uuid_like (js "B").
Proof.
  split; apply Forall_singleton; right; right; left; cbn; lia.
Qed.

Lemma output_directories_differ_witness :
  exists a b,
    queue Sample.two_jobs !! 0%nat = Some a
    /\ queue Sample.two_jobs !! 1%nat = Some b
    /\ translationsDir Sample.two_jobs a <> translationsDir Sample.two_jobs b
    /\ exists a' b',
         queue (complete_job 0 (js "T5") Sample.two_jobs) !! 0%nat = Some a'
         /\ queue (complete_job 1 (js "T6") Sample.two_jobs) !! 1%nat = Some b'
         /\ outputDir a' = Some (translationsDir Sample.two_jobs a)
         /\ outputDir b' = Some (translationsDir Sample.two_jobs b).
Proof.
  destruct sample_first_job as (a & Ha & Hida & _).
  destruct sample_second_job as (b & Hb & Hidb & _).
  destruct sample_ids_uuid_like as [HA HB].
  exists a, b. split; [exact Ha|]. split; [exact Hb|].
  rewrite <- Hida in HA. rewrite <- Hidb in HB.
  exact (output_directories_differ Sample.two_jobs 0 1 a b (js "T5") (js "T6")
           sample_ids_unique ltac:(discriminate) Ha Hb HA HB).
Defined.

(** ** The structured progress of a debug line *)

Lemma percent_lines_checked :
  forallb (fun k =>
             bool_decide (match_overall_progress (progress_line (percent_text k))
                          = Some (percent_text k))
             && match Math_round (parseFloat (percent_text k)) with
                | Finite m 0 => m =? (k + 5) / 10
                | _ => false
                end)
          (seqZ 0 1010) = true.
Proof. vm_compute. reflexivity. Qed.

(** X21. Reading back a debug line: on a line that carries the overall
    progress as a percentage with one decimal, from 0.0 to 100.9, the
    structured rule finds the number, rounds it to the nearest integer (a
    half upwards) and takes it as the progress when it is above the current
    progress and at most 100; otherwise the progress stays. So 74.5 gives 75,
    100.4 gives 100, and 100.5 is ignored. *)
Theorem structured_progress_reads_percentages (k cur : Z) :
  0 <= k < 1010 ->
  structured_progress cur (progress_line (percent_text k))
  = if (cur <? (k + 5) / 10) && ((k + 5) / 10 <=? 100)
    then (k + 5) / 10 else cur.
Proof.
  intros Hk.
  assert (List.In k (seqZ 0 1010)) as Hin
    by (apply list_elem_of_In, elem_of_seqZ; lia).
  pose proof (proj1 (forallb_forall _ _) percent_lines_checked k Hin) as Hcheck.
  cbv beta in Hcheck. apply andb_true_iff in Hcheck as [Hmatch Hround].
  apply bool_decide_eq_true in Hmatch.
  unfold structured_progress. rewrite Hmatch.
  destruct (Math_round (parseFloat (percent_text k))) as [| |m e];
    try discriminate Hround.
  destruct e; try discriminate Hround.
  apply Z.eqb_eq in Hround. subst m.
  destruct (gt (Finite ((k + 5) / 10) 0) cur && le (Finite ((k + 5) / 10) 0) 100)
    eqn:Hguard.
  - apply guard_of_integer in Hguard.
    replace (cur <? (k + 5) / 10) with true by (symmetry; apply Z.ltb_lt; lia).
    replace ((k + 5) / 10 <=? 100) with true by (symmetry; apply Z.leb_le; lia).
    reflexivity.
  - destruct ((cur <? (k + 5) / 10) && ((k + 5) / 10 <=? 100)) eqn:Hin';
      [|reflexivity].
    apply andb_true_iff in Hin' as [Hlt Hle].
    apply Z.ltb_lt in Hlt. apply Z.leb_le in Hle.
    assert (gt (Finite ((k + 5) / 10) 0) cur && le (Finite ((k + 5) / 10) 0) 100
            = true) as Hyes by (apply guard_of_integer; lia).
    congruence.
Qed.

Lemma structured_progress_reads_percentages_witness :
  structured_progress 40 (progress_line (percent_text 745))
  = if (40 <? (745 + 5) / 10) && ((745 + 5) / 10 <=? 100)
    then (745 + 5) / 10 else 40.
Proof.
  apply (structured_progress_reads_percentages 745 40). lia.
Defined.

(** ** Names of downloaded files *)

(** X22. [ensurePdfExtension] returns a name that ends in [.pdf], in any
    letter case: a name that does so already is returned as it is, any other
    name gets the suffix; so applying the function twice is applying it
    once. *)
Theorem ensurePdfExtension_ends_in_pdf (urlPath : jsstring) :
  endsWith_lower (js ".pdf") (ensurePdfExtension urlPath) = true
  /\ (endsWith_lower (js ".pdf") urlPath = true ->
      ensurePdfExtension urlPath = urlPath)
  /\ (endsWith_lower (js ".pdf") urlPath = false ->
      ensurePdfExtension urlPath = urlPath ++ js ".pdf")
  /\ ensurePdfExtension (ensurePdfExtension urlPath) = ensurePdfExtension urlPath.
Proof.
  assert (forall s, endsWith_lower (js ".pdf") (s ++ js ".pdf") = true) as Hadd.
  { intros s. unfold endsWith_lower. apply bool_decide_eq_true.
    rewrite fmap_app. rewrite lastn_app_long by (cbn; lia). reflexivity. }
  assert (endsWith_lower (js ".pdf") (ensurePdfExtension urlPath) = true) as Hends.
  { unfold ensurePdfExtension.
    destruct (endsWith_lower (js ".pdf") urlPath) eqn:Hhas;
      [exact Hhas | apply Hadd]. }
  split; [exact Hends|].
  split; [intros Hhas; unfold ensurePdfExtension; rewrite Hhas; reflexivity|].
  split; [intros Hhas; unfold ensurePdfExtension; rewrite Hhas; reflexivity|].
  unfold ensurePdfExtension at 1. rewrite Hends. reflexivity.
Qed.

(** ** The text of a document insight *)

Lemma replace_spaces_space (s : jsstring) : forall in_run : bool,
  Forall (fun c => is_space c = true -> c = 32%N)
         (replace_spaces (js " ") in_run s).
Proof.
  induction s as [|c r IH]; intros in_run; cbn; [apply Forall_nil_2|].
  destruct (is_space c) eqn:Hspace.
  - destruct in_run; [apply IH|].
    apply Forall_cons. split; [reflexivity | apply IH].
  - apply Forall_cons. split; [congruence | apply IH].
Qed.

Lemma replace_controls_plain (s : jsstring) : forall in_run : bool,
  Forall (fun c => is_space c = true -> c = 32%N) s ->
  Forall plain_unit (replace_controls (js " ") in_run s).
Proof.
  induction s as [|c r IH]; intros in_run Hs; cbn; [apply Forall_nil_2|].
  apply Forall_cons in Hs as [Hc Hr].
  destruct (c <=? 31)%N eqn:Hcontrol.
  - destruct in_run; [apply IH, Hr|].
    apply Forall_cons. split; [|apply IH, Hr].
    split; [cbn; lia | reflexivity].
  - apply Forall_cons. split; [|apply IH, Hr].
    apply N.leb_gt in Hcontrol. split; [lia | exact Hc].
Qed.

Lemma Forall_trimStart (P : N -> Prop) (s : jsstring) :
  Forall P s -> Forall P (trimStart s).
Proof.
  induction 1 as [|c r Hc Hr IH]; cbn; [apply Forall_nil_2|].
  destruct (is_space c); [exact IH | apply Forall_cons; split; assumption].
Qed.

Lemma Forall_trim (P : N -> Prop) (s : jsstring) :
  Forall P s -> Forall P (trim s).
Proof.
  intros Hs. unfold trim, trimEnd.
  apply Forall_reverse, Forall_trimStart, Forall_reverse, Forall_trimStart, Hs.
Qed.

Lemma replace_controls_clean (r s : jsstring) (in_run : bool) :
  Forall (fun c => (32 <= c)%N) s -> replace_controls r in_run s = s.
Proof.
  intros Hs. revert in_run.
  induction Hs as [|c rest Hc _ IH]; intros in_run; [reflexivity|].
  cbn [replace_controls].
  destruct (c <=? 31)%N eqn:Hlow; [apply N.leb_le in Hlow; lia|].
  f_equal. apply IH.
Qed.

(** X23. A sanitized text (a title, the authors or the abstract of a
    document insight) holds no code unit below U+0020, so no tab, line feed
    or carriage return, and no white space other than the space; it neither
    starts nor ends with a space, so trimming it again changes nothing. A
    text without white space and without code units below U+0020 is returned
    as it is: delete (U+007F) and the C1 control characters (U+0080 to
    U+009F, the next-line character U+0085 among them) are kept. *)
Theorem sanitizeText_is_plain (text : jsstring) :
  Forall plain_unit (sanitizeText text)
  /\ trim (sanitizeText text) = sanitizeText text
  /\ (sanitizeText text = []
      \/ exists c r, sanitizeText text = c :: r /\ c <> 32%N)
  /\ (Forall (fun c => (32 <= c)%N /\ is_space c = false) text ->
      sanitizeText text = text)
  /\ (Forall (fun c => (127 <= c <= 159)%N) text -> sanitizeText text = text).
Proof.
  assert (forall t, Forall (fun c => (32 <= c)%N /\ is_space c = false) t ->
                    sanitizeText t = t) as Hfix.
  { intros t Hclean. unfold sanitizeText.
    rewrite replace_spaces_clean
      by (eapply Forall_impl; [exact Hclean | intros c [_ Hc]; exact Hc]).
    rewrite replace_controls_clean
      by (eapply Forall_impl; [exact Hclean | intros c [Hc _]; exact Hc]).
    apply trim_no_space.
    eapply Forall_impl; [exact Hclean | intros c [_ Hc]; exact Hc]. }
  split; [|split; [|split; [|split]]].
  - unfold sanitizeText.
    apply Forall_trim, replace_controls_plain, replace_spaces_space.
  - unfold sanitizeText. apply trim_idempotent.
  - unfold sanitizeText.
    destruct (trim_head (replace_controls (js " ") false
                           (replace_spaces (js " ") false text)))
      as [Hnil|(c & r & Heq & Hc)]; [left; exact Hnil|].
    right. exists c, r. split; [exact Heq|]. intros ->. discriminate Hc.
  - apply Hfix.
  - intros Hc1. apply Hfix.
    eapply Forall_impl; [exact Hc1|]. intros c Hc. cbv beta in Hc |- *.
    split; [lia|]. apply (filename_unit_delete_and_C1 c Hc).
Qed.

(** ** The events of a log line *)

Lemma sink_tryParseDebugProgress (j : nat) (job : TranslationQueueItem)
    (logLine now : jsstring) (s : State) :
  queue s !! j = Some job ->
  sink (tryParseDebugProgress j logLine now s)
  = sink s ++ announced job (progress job)
                (structured_progress (progress job) logLine).
Proof.
  intros Hj. unfold tryParseDebugProgress, structured_progress, announced.
  destruct (match_overall_progress logLine) as [group|];
    [|rewrite bool_decide_true by reflexivity; rewrite app_nil_r; reflexivity].
  cbv zeta. rewrite Hj.
  destruct (gt _ _ && le _ _) eqn:Hguard;
    [|rewrite bool_decide_true by reflexivity; rewrite app_nil_r; reflexivity].
  destruct (rounded_in_range _ _ Hguard) as (p & Hp & Hrange).
  rewrite Hp. cbn [to_Z default from_option Datatypes.id].
  rewrite bool_decide_false by lia.
  rewrite sink_emitStatus. reflexivity.
Qed.

Lemma sink_tryUpdateProgressFromLog (j : nat) (job : TranslationQueueItem)
    (logLine now : jsstring) (s : State) :
  queue s !! j = Some job ->
  sink (tryUpdateProgressFromLog j logLine now s)
  = sink s ++ announced job (progress job)
                (heuristic_progress (progress job) logLine).
Proof.
  intros Hj. unfold tryUpdateProgressFromLog, heuristic_progress, announced.
  destruct (matching_stage logLine) as [stage|];
    [|rewrite bool_decide_true by reflexivity; rewrite app_nil_r; reflexivity].
  rewrite Hj.
  destruct (progress job <? snd stage) eqn:Hlt;
    [|rewrite bool_decide_true by reflexivity; rewrite app_nil_r; reflexivity].
  apply Z.ltb_lt in Hlt. rewrite bool_decide_false by lia.
  rewrite sink_emitStatus. reflexivity.
Qed.

Lemma announced_same (a b : TranslationQueueItem) (before after : Z) :
  id a = id b -> status a = status b ->
  announced a before after = announced b before after.
Proof. intros Hid Hst. unfold announced. rewrite Hid, Hst. reflexivity. Qed.

Lemma log_events_trim (job : TranslationQueueItem) (message : jsstring) :
  log_events job (trim message) = log_events job message.
Proof. unfold log_events. rewrite trim_idempotent. reflexivity. Qed.

(** The events of [appendLog], exactly. *)
Lemma sink_appendLog (j : nat) (job : TranslationQueueItem)
    (message now : jsstring) (s : State) :
  queue s !! j = Some job ->
  sink (appendLog j message now s) = sink s ++ log_events job message.
Proof.
  intros Hj. unfold log_events.
  destruct (decide (trim message = [])) as [Ht|Ht].
  { unfold appendLog. rewrite Ht, app_nil_r. reflexivity. }
  rewrite (appendLog_unfold j job message now s Hj Ht).
  set (t := trim message) in *.
  set (s1 := log_stored j job t now s).
  assert (queue s1 !! j
          = Some (set_updatedAt now (set_logs (push_log t (logs job)) job)))
    as Hj1.
  { unfold s1, log_stored, persist, emitProgress, emit;
      cbn [queue with_history].
    rewrite lookup_mutate_eq, Hj. reflexivity. }
  assert (sink s1 = sink s ++ [ProgressPayload (id job) t]) as Hsink1
    by reflexivity.
  destruct (tryParseDebugProgress_at j _ t now s1 Hj1)
    as (job2 & Hj2 & Hcore2 & _ & Hp2).
  apply core_fields in Hcore2 as (Hid2 & Hst2 & _).
  rewrite (sink_tryUpdateProgressFromLog j job2 t now _ Hj2).
  rewrite (sink_tryParseDebugProgress j _ t now s1 Hj1).
  rewrite Hsink1, Hp2.
  rewrite (announced_same job2 job) by assumption.
  rewrite (announced_same (set_updatedAt now _) job) by reflexivity.
  cbn [progress set_updatedAt set_logs].
  destruct t as [|c r]; [congruence|].
  rewrite <- !app_assoc. reflexivity.
Qed.

(** ** What the renderer shows *)

Lemma replay_app (first second : list (jsstring * Emitted))
    (q : list TranslationQueueItem) :
  AppStore.replay (first ++ second) q
  = AppStore.replay second (AppStore.replay first q).
Proof. apply foldl_app. Qed.

Lemma replay_announced (job : TranslationQueueItem) (before after : Z)
    (timed : list (jsstring * Emitted)) (q : list TranslationQueueItem)
    (i : nat) (item : TranslationQueueItem) :
  snd <$> timed = announced job before after ->
  q !! i = Some item ->
  id item = id job -> status item = status job -> progress item = before ->
  exists item',
    AppStore.replay timed q !! i = Some item'
    /\ id item' = id job /\ status item' = status job
    /\ progress item' = after /\ logs item' = logs item
    /\ error item' = error item /\ outputDir item' = outputDir item.
Proof.
  intros Htimed Hi Hid Hst Hp. unfold announced in Htimed.
  case_bool_decide as Hsame.
  - apply fmap_nil_inv in Htimed. subst timed.
    exists item. cbn. repeat split; try assumption. congruence.
  - destruct timed as [|[t e] [|? ?]]; try discriminate Htimed.
    cbn in Htimed. injection Htimed as ->.
    unfold AppStore.replay; cbn [foldl fst snd AppStore.receive].
    unfold AppStore.updateQueueStatus. rewrite list_lookup_fmap, Hi.
    cbn [fmap option_fmap option_map].
    rewrite bool_decide_true by exact Hid.
    eexists. split; [reflexivity|]. cbn. repeat split. exact Hid.
Qed.

Lemma replay_progress (jid message : jsstring) (t : jsstring)
    (q : list TranslationQueueItem) (i : nat) (item : TranslationQueueItem) :
  q !! i = Some item -> id item = jid ->
  AppStore.replay [(t, ProgressPayload jid message)] q !! i
  = Some (set_updatedAt t (set_logs (push_log message (logs item)) item)).
Proof.
  intros Hi Hid.
  unfold AppStore.replay; cbn [foldl fst snd AppStore.receive].
  unfold AppStore.appendQueueLog. rewrite list_lookup_fmap, Hi.
  cbn [fmap option_fmap option_map].
  rewrite bool_decide_true by exact Hid. rewrite push_log_lastn. reflexivity.
Qed.

(** What the renderer shows after the events of one call of [appendLog]. *)
Lemma replay_log_events (job : TranslationQueueItem) (message : jsstring)
    (timed : list (jsstring * Emitted)) (q : list TranslationQueueItem)
    (i : nat) (item : TranslationQueueItem) :
  snd <$> timed = log_events job message ->
  q !! i = Some item -> shows item job ->
  exists item',
    AppStore.replay timed q !! i = Some item'
    /\ id item' = id job /\ status item' = status job
    /\ progress item'
       = heuristic_progress (structured_progress (progress job) (trim message))
           (trim message)
    /\ logs item' = logged message (logs job)
    /\ error item' = error job /\ outputDir item' = outputDir item.
Proof.
  intros Htimed Hi [Hid Hst Hp Hl He]. unfold log_events, logged in *.
  destruct (trim message) as [|c r] eqn:Ht.
  { apply fmap_nil_inv in Htimed. subst timed. exists item. cbn.
    repeat split; try assumption. }
  cbv zeta in Htimed.
  set (p1 := structured_progress (progress job) (c :: r)) in *.
  set (p2 := heuristic_progress p1 (c :: r)) in *.
  destruct timed as [|[t e] timed]; [discriminate Htimed|].
  cbn [fmap list_fmap snd] in Htimed. injection Htimed as -> Hrest.
  apply fmap_app_inv in Hrest as (timed1 & timed2 & H1 & H2 & ->).
  symmetry in H1, H2.
  change ((t, ProgressPayload (id job) (c :: r)) :: timed1 ++ timed2)
    with ([(t, ProgressPayload (id job) (c :: r))] ++ timed1 ++ timed2).
  rewrite !replay_app.
  pose proof (replay_progress (id job) (c :: r) t q i item Hi Hid) as Hi1.
  destruct (replay_announced job (progress job) p1 timed1 _ i _ H1 Hi1)
    as (item2 & Hi2 & Hid2 & Hst2 & Hp2 & Hl2 & He2 & Ho2);
    [exact Hid | exact Hst | exact Hp |].
  destruct (replay_announced job p1 p2 timed2 _ i _ H2 Hi2 Hid2 Hst2 Hp2)
    as (item3 & Hi3 & Hid3 & Hst3 & Hp3 & Hl3 & He3 & Ho3).
  exists item3. split; [exact Hi3|].
  split; [exact Hid3|]. split; [exact Hst3|]. split; [exact Hp3|].
  split; [rewrite Hl3, Hl2; cbn; rewrite Hl; reflexivity|].
  split; [rewrite He3, He2; exact He | rewrite Ho3, Ho2; reflexivity].
Qed.

(** X24. The renderer follows the output of the child: when the item it
    shows for a job is up to date, it is up to date again after the events
    that a chunk of output makes the manager emit (the message, and a status
    event for each change of the progress): the same status, progress, log
    entries and error as the job of the manager. *)
Theorem renderer_follows_the_output (s : State) (j : nat)
    (job : TranslationQueueItem) (chunk now : jsstring)
    (q : list TranslationQueueItem) (i : nat) (item : TranslationQueueItem) :
  queue s !! j = Some job -> q !! i = Some item -> shows item job ->
  sink (onData j chunk now s) = sink s ++ log_events job chunk
  /\ exists job',
       queue (onData j chunk now s) !! j = Some job'
       /\ forall timed, snd <$> timed = log_events job chunk ->
            exists item', AppStore.replay timed q !! i = Some item'
                          /\ shows item' job'.
Proof.
  intros Hj Hi Hshows. unfold onData.
  split; [rewrite (sink_appendLog j job _ now s Hj), log_events_trim;
          reflexivity|].
  destruct (appendLog_at j job (trim chunk) now s Hj)
    as (job' & Hj' & Hcore & Hlogs & Hp).
  exists job'. split; [exact Hj'|].
  intros timed Htimed.
  destruct (replay_log_events job chunk timed q i item Htimed Hi Hshows)
    as (item' & Hi' & Hid & Hst & Hp' & Hl & He & _).
  exists item'. split; [exact Hi'|].
  apply core_fields in Hcore as (Hid' & Hst' & He' & _).
  rewrite trim_idempotent in Hp.
  unfold logged in Hlogs. rewrite trim_idempotent in Hlogs.
  fold (logged chunk (logs job)) in Hlogs.
  split; congruence.
Qed.

Lemma renderer_follows_the_output_witness :
  exists job,
    queue Sample.two_jobs !! 0%nat = Some job
    /\ sink (onData 0 (js " Parse Page Layout ") (js "T5") Sample.two_jobs)
       = sink Sample.two_jobs ++ log_events job (js " Parse Page Layout ")
    /\ exists job',
         queue (onData 0 (js " Parse Page Layout ") (js "T5") Sample.two_jobs)
           !! 0%nat = Some job'
         /\ forall timed,
              snd <$> timed = log_events job (js " Parse Page Layout ") ->
              exists item', AppStore.replay timed [job] !! 0%nat = Some item'
                            /\ shows item' job'.
Proof.
  destruct sample_first_job as (job & Hjob & _).
  exists job. split; [exact Hjob|].
  apply (renderer_follows_the_output Sample.two_jobs 0 job
           (js " Parse Page Layout ") (js "T5") [job] 0 job Hjob eq_refl).
  split; reflexivity.
Defined.

Lemma complete_job_job (j : nat) (job : TranslationQueueItem) (now : jsstring)
    (s : State) :
  queue s !! j = Some job ->
  exists job',
    queue (complete_job j now s) !! j = Some job'
    /\ id job' = id job /\ status job' = awaiting_user /\ progress job' = 100
    /\ logs job' = logs job /\ error job' = None
    /\ outputDir job' = Some (translationsDir s job).
Proof.
  intros Hj. unfold complete_job. rewrite Hj. cbv zeta.
  set (dir := translationsDir s job).
  set (f := fun job0 : TranslationQueueItem =>
              set_updatedAt now (set_error None (set_outputDir (Some dir)
                (set_progress 100 (set_status awaiting_user job0))))).
  assert (queue (mutate j f s) !! j = Some (f job)) as Hj1
    by (rewrite lookup_mutate_eq, Hj; reflexivity).
  pose proof (emitStatus_at (id job) awaiting_user (Some 100) now _ j _ Hj1) as Hj2.
  set (s2 := emitStatus (id job) awaiting_user (Some 100) now (mutate j f s)) in *.
  set (job2 := if bool_decide _ then _ else _) in Hj2.
  rewrite Hj2.
  exists job2. split; [exact Hj2|].
  unfold job2. destruct (bool_decide _); repeat split; reflexivity.
Qed.

(** X25. The renderer follows the end of a run that went well: after the
    status event and the completed event that the manager emits, the item of
    the job is up to date (status [awaiting-user], progress 100, no error,
    the log entries as they were) and has the output directory of the
    job. *)
Theorem renderer_follows_the_completion (s : State) (j : nat)
    (job : TranslationQueueItem) (now : jsstring)
    (q : list TranslationQueueItem) (i : nat) (item : TranslationQueueItem)
    (timed : list (jsstring * Emitted)) :
  queue s !! j = Some job -> q !! i = Some item -> shows item job ->
  snd <$> timed = completion_events job (translationsDir s job) ->
  sink (complete_job j now s)
  = sink s ++ completion_events job (translationsDir s job)
  /\ exists job' item',
       queue (complete_job j now s) !! j = Some job'
       /\ AppStore.replay timed q !! i = Some item'
       /\ shows item' job' /\ outputDir item' = outputDir job'.
Proof.
  intros Hj Hi [Hid Hst Hp Hl He] Htimed.
  split.
  { destruct (complete_job_at j job now s Hj) as (_ & _ & _ & _ & _ & _ & _ & Hsink).
    exact Hsink. }
  destruct (complete_job_job j job now s Hj)
    as (job' & Hj' & Hid' & Hst' & Hp' & Hl' & He' & Ho').
  destruct timed as [|[t1 e1] [|[t2 e2] [|? ?]]]; try discriminate Htimed.
  cbn in Htimed. injection Htimed as -> ->.
  unfold AppStore.replay; cbn [foldl fst snd AppStore.receive].
  unfold AppStore.patchQueueItem, AppStore.updateQueueStatus.
  rewrite !list_lookup_fmap, Hi. cbn [fmap option_fmap option_map].
  rewrite (bool_decide_true (id item = id job)) by exact Hid.
  rewrite bool_decide_true by exact Hid.
  exists job'. eexists. split; [exact Hj'|]. split; [reflexivity|].
  split; [split|]; cbn; congruence.
Qed.

Lemma renderer_follows_the_completion_witness :
  exists job,
    queue Sample.two_jobs !! 0%nat = Some job
    /\ sink (complete_job 0 (js "T5") Sample.two_jobs)
       = sink Sample.two_jobs
         ++ completion_events job (translationsDir Sample.two_jobs job)
    /\ exists job' item',
         queue (complete_job 0 (js "T5") Sample.two_jobs) !! 0%nat = Some job'
         /\ AppStore.replay
              [ (js "T6", StatusPayload (id job) awaiting_user (Some 100));
                (js "T7", CompletedPayload (id job) true
                            (Some (translationsDir Sample.two_jobs job)) None) ]
              [job] !! 0%nat = Some item'
         /\ shows item' job' /\ outputDir item' = outputDir job'.
Proof.
  destruct sample_first_job as (job & Hjob & _).
  exists job. split; [exact Hjob|].
  apply (renderer_follows_the_completion Sample.two_jobs 0 job (js "T5")
           [job] 0 job _ Hjob eq_refl); [split; reflexivity | reflexivity].
Defined.

(** The events of [fail_job], exactly, and the job it leaves. *)
Lemma fail_job_job (j : nat) (job : TranslationQueueItem)
    (errorMessage now : jsstring) (s : State) :
  queue s !! j = Some job ->
  sink (fail_job j errorMessage now s) = sink s ++ failure_events job errorMessage
  /\ exists job',
       queue (fail_job j errorMessage now s) !! j = Some job'
       /\ id job' = id job /\ status job' = failed /\ progress job' = 100
       /\ logs job' = logged errorMessage (logs job)
       /\ error job' = Some errorMessage.
Proof.
  intros Hj. unfold fail_job. rewrite Hj.
  set (f := fun job0 : TranslationQueueItem =>
              set_updatedAt now (set_error (Some errorMessage)
                (set_progress 100 (set_status failed job0)))).
  assert (queue (mutate j f s) !! j = Some (f job)) as Hj1
    by (rewrite lookup_mutate_eq, Hj; reflexivity).
  pose proof (emitStatus_at (id job) failed (Some 100) now _ j _ Hj1) as Hj2.
  set (s2 := emitStatus (id job) failed (Some 100) now (mutate j f s)) in *.
  set (job2 := if bool_decide _ then _ else _) in Hj2.
  assert (id job2 = id job /\ status job2 = failed /\ progress job2 = 100
          /\ error job2 = Some errorMessage /\ logs job2 = logs job)
    as (Hi2 & Hs2 & Hp2 & He2 & Hl2).
  { unfold job2. destruct (bool_decide _); repeat split; reflexivity. }
  assert (sink s2 = sink s ++ [StatusPayload (id job) failed (Some 100)])
    as Hsink2 by (unfold s2; rewrite sink_emitStatus; reflexivity).
  pose proof (sink_appendLog j job2 errorMessage now s2 Hj2) as Hsink3.
  destruct (appendLog_at j job2 errorMessage now s2 Hj2)
    as (job3 & Hj3 & Hc3 & Hl3 & Hp3).
  apply core_fields in Hc3 as (Hi3 & Hs3 & He3 & _).
  assert (structured_progress 100 (trim errorMessage) = 100) as Hstr.
  { pose proof (structured_progress_ge 100 (trim errorMessage)). lia. }
  assert (heuristic_progress 100 (trim errorMessage) = 100) as Hheu.
  { pose proof (heuristic_progress_ge 100 (trim errorMessage)). lia. }
  rewrite Hj3. split.
  - unfold emitCompleted, emit, persist; cbn [sink with_history].
    rewrite Hsink3, Hsink2. unfold failure_events, log_events.
    rewrite Hp2, Hi2.
    destruct (trim errorMessage) as [|c r] eqn:Ht.
    + rewrite app_nil_r, <- app_assoc. reflexivity.
    + cbv zeta. rewrite Hstr, Hheu. unfold announced.
      rewrite bool_decide_true by reflexivity.
      rewrite <- !app_assoc. reflexivity.
  - exists job3. split; [exact Hj3|].
    rewrite Hp3, Hp2, Hstr, Hheu, Hl3, Hl2.
    repeat split; congruence.
Qed.

(** X26. The renderer follows a run that fails: after the events that the
    manager emits for the failure (the status, the error message as a log
    line unless it is blank, and the completed event), the item of the job is
    up to date: status [failed], progress 100, the error message, and the log
    entries of the job. *)
Theorem renderer_follows_the_failure (s : State) (j : nat)
    (job : TranslationQueueItem) (errorMessage now : jsstring)
    (q : list TranslationQueueItem) (i : nat) (item : TranslationQueueItem)
    (timed : list (jsstring * Emitted)) :
  queue s !! j = Some job -> q !! i = Some item -> shows item job ->
  snd <$> timed = failure_events job errorMessage ->
  sink (fail_job j errorMessage now s) = sink s ++ failure_events job errorMessage
  /\ exists job' item',
       queue (fail_job j errorMessage now s) !! j = Some job'
       /\ AppStore.replay timed q !! i = Some item'
       /\ shows item' job'.
Proof.
  intros Hj Hi [Hid Hst Hp Hl He] Htimed.
  destruct (fail_job_job j job errorMessage now s Hj)
    as (Hsink & job' & Hj' & Hid' & Hst' & Hp' & Hl' & He').
  split; [exact Hsink|].
  exists job'. unfold failure_events, logged in *.
  destruct (trim errorMessage) as [|c r] eqn:Ht.
  - destruct timed as [|[t1 e1] [|[t2 e2] [|? ?]]]; try discriminate Htimed.
    cbn in Htimed. injection Htimed as -> ->.
    unfold AppStore.replay; cbn [foldl fst snd AppStore.receive].
    unfold AppStore.patchQueueItem, AppStore.updateQueueStatus.
    rewrite !list_lookup_fmap, Hi. cbn [fmap option_fmap option_map].
    repeat (cbn [id set_updatedAt set_progress set_status set_logs set_error
                 set_outputDir];
            rewrite (bool_decide_true (id item = id job)) by exact Hid).
    eexists. split; [exact Hj'|]. split; [reflexivity|].
    split; cbn; congruence.
  - destruct timed as [|[t1 e1] [|[t2 e2] [|[t3 e3] [|? ?]]]];
      try discriminate Htimed.
    cbn in Htimed. injection Htimed as -> -> ->.
    unfold AppStore.replay; cbn [foldl fst snd AppStore.receive].
    unfold AppStore.patchQueueItem, AppStore.appendQueueLog,
      AppStore.updateQueueStatus.
    rewrite !list_lookup_fmap, Hi. cbn [fmap option_fmap option_map].
    repeat (cbn [id set_updatedAt set_progress set_status set_logs set_error
                 set_outputDir];
            rewrite (bool_decide_true (id item = id job)) by exact Hid).
    eexists. split; [exact Hj'|]. split; [reflexivity|].
    split; cbn; try congruence.
    rewrite Hl', push_log_lastn, Hl. reflexivity.
Qed.

Lemma renderer_follows_the_failure_witness :
  exists job,
    queue Sample.two_jobs !! 0%nat = Some job
    /\ sink (fail_job 0 (exitMessage (Some 1)) (js "T5") Sample.two_jobs)
       = sink Sample.two_jobs ++ failure_events job (exitMessage (Some 1))
    /\ exists job' item',
         queue (fail_job 0 (exitMessage (Some 1)) (js "T5") Sample.two_jobs)
           !! 0%nat = Some job'
         /\ AppStore.replay
              [ (js "T6", StatusPayload (id job) failed (Some 100));
                (js "T7", ProgressPayload (id job) (exitMessage (Some 1)));
                (js "T8", CompletedPayload (id job) false None
                            (Some (exitMessage (Some 1)))) ]
              [job] !! 0%nat = Some item'
         /\ shows item' job'.
Proof.
  destruct sample_first_job as (job & Hjob & _).
  exists job. split; [exact Hjob|].
  apply (renderer_follows_the_failure Sample.two_jobs 0 job
           (exitMessage (Some 1)) (js "T5") [job] 0 job _ Hjob eq_refl);
    [split; reflexivity | reflexivity].
Defined.

(** X27. The listeners of the renderer never add, drop or reorder an item of
    its queue, and an event for an id that the queue does not hold changes
    nothing: the renderer learns of a job only from the queue it fetches or
    from the result of [enqueue], never from an event. *)
Theorem events_keep_the_items_of_the_renderer (now : jsstring)
    (payload : Emitted) (q : list TranslationQueueItem) :
  id <$> AppStore.receive now payload q = id <$> q
  /\ (match payload with
      | StatusPayload jid _ _ | ProgressPayload jid _
      | CompletedPayload jid _ _ _ => jid ∉ id <$> q
      end -> AppStore.receive now payload q = q).
Proof.
  split.
  - destruct payload; cbn [AppStore.receive];
      unfold AppStore.updateQueueStatus, AppStore.appendQueueLog,
        AppStore.patchQueueItem;
      rewrite <- list_fmap_compose; apply list_fmap_ext;
      intros k item _; cbn; case_bool_decide; reflexivity.
  - destruct payload; cbn [AppStore.receive];
      unfold AppStore.updateQueueStatus, AppStore.appendQueueLog,
        AppStore.patchQueueItem;
      intros Hout; rewrite <- (list_fmap_id q) at 2; apply list_fmap_ext;
      intros k item Hk; cbn; case_bool_decide as Hid; try reflexivity;
      exfalso; apply Hout; rewrite <- Hid;
      apply list_elem_of_fmap_2, (list_elem_of_lookup_2 _ k), Hk.
Qed.

(** ** The command line in the log *)

Lemma trimStart_keeps_tail (a : jsstring) (d : N) (rest : jsstring) :
  is_space d = false -> exists a', trimStart (a ++ d :: rest) = a' ++ d :: rest.
Proof.
  intros Hd. induction a as [|c a IH]; cbn.
  - rewrite Hd. exists []. reflexivity.
  - destruct (is_space c); [exact IH|]. exists (c :: a). reflexivity.
Qed.

Lemma trim_keeps_middle (c : N) (m : jsstring) (d : N) (w : jsstring) :
  is_space c = false -> is_space d = false ->
  exists v, trim (c :: m ++ d :: w) = c :: m ++ d :: v.
Proof.
  intros Hc Hd. unfold trim, trimEnd.
  cbn [trimStart]. rewrite Hc.
  change (c :: m ++ d :: w) with ((c :: m) ++ d :: w).
  rewrite reverse_app, reverse_cons, <- app_assoc.
  destruct (trimStart_keeps_tail (reverse w) d (reverse (c :: m)) Hd)
    as [a' Heq].
  change ([d] ++ reverse (c :: m)) with (d :: reverse (c :: m)).
  rewrite Heq. exists (reverse a').
  rewrite reverse_app, reverse_cons, reverse_involutive, <- app_assoc.
  reflexivity.
Qed.

Lemma last_lastn_snoc {A} (n : nat) (l : list A) (x : A) :
  last (lastn (S n) (l ++ [x])) = Some x.
Proof.
  unfold lastn. rewrite length_app. cbn [length].
  rewrite drop_app_le by lia. apply last_snoc.
Qed.

(** The command line that [runJob] logs before it spawns the child has the
    API key on it. *)
Lemma commandBanner_holds_the_key (read : AppSettings)
    (job : TranslationQueueItem) (dir command : jsstring) :
  exists before after,
    trim (commandBanner command (babeldocArgs read job dir))
    = before ++ openaiApiKey read ++ after.
Proof.
  set (before :=
         [34892; 21629; 20196]%N ++ js ": " ++ command ++ js " "
         ++ js "--openai" ++ js " " ++ js "--openai-model" ++ js " "
         ++ openaiModel read ++ js " " ++ js "--openai-base-url" ++ js " "
         ++ openaiBaseUrl read ++ js " " ++ js "--openai-api-key" ++ js " ").
  assert (exists w,
            commandBanner command (babeldocArgs read job dir)
            = 25191%N :: (before ++ openaiApiKey read ++ js " ") ++ 45%N :: w)
    as [w ->].
  { unfold commandBanner, babeldocArgs, before.
    set (tail := (if debug (babeldoc read) then _ else _) ++ _).
    cbn [app join_space]. eexists.
    rewrite <- !app_assoc. cbn [app]. reflexivity. }
  destruct (trim_keeps_middle 25191 (before ++ openaiApiKey read ++ js " ")
              45 w eq_refl eq_refl) as [v ->].
  exists (25191%N :: before), (js " " ++ 45%N :: v).
  cbn [app]. rewrite <- !app_assoc. reflexivity.
Qed.

Lemma commandBanner_not_blank (command : jsstring) (args : list jsstring) :
  trim (commandBanner command args) <> [].
Proof.
  unfold commandBanner, trim. cbn [app trimStart].
  change (is_space 25191) with false. cbn iota.
  match goal with
  | |- trimEnd (25191%N :: ?r) <> [] =>
      destruct (trimEnd_keeps_head 25191 r eq_refl) as [r' ->]
  end.
  discriminate.
Qed.

(** X28. The command line of BabelDOC is logged with the API key on it:
    when the setup of a run is complete, the run appends to the log of its job
    the command and its arguments, among them the value of [openaiApiKey];
    this entry is the last one of the log buffer, it is sent to the renderer
    as a progress message and written to the history records of the job. *)
Theorem the_command_line_is_logged_with_the_key (s : State) (j : nat)
    (read : AppSettings) (job : TranslationQueueItem)
    (babeldocPath : option jsstring) (now : jsstring) :
  flight s = Some (j, AwaitEnvironment read) -> queue s !! j = Some job ->
  let entry :=
    trim (commandBanner (default (js "babeldoc") babeldocPath)
            (babeldocArgs read job (translationsDir s job))) in
  (exists before after, entry = before ++ openaiApiKey read ++ after)
  /\ exists job' rest,
       queue (runJob_spawn babeldocPath now s) !! j = Some job'
       /\ last (logs job') = Some entry
       /\ sink (runJob_spawn babeldocPath now s)
          = sink s ++ ProgressPayload (id job) entry :: rest
       /\ persisted (id job) (logs job') (history (runJob_spawn babeldocPath now s)).
Proof.
  intros Hf Hj. cbn zeta.
  set (banner := commandBanner (default (js "babeldoc") babeldocPath)
                   (babeldocArgs read job (translationsDir s job))).
  split; [apply commandBanner_holds_the_key|].
  assert (trim banner <> []) as Ht by apply commandBanner_not_blank.
  unfold runJob_spawn. rewrite Hf, Hj. fold banner.
  cbn [queue sink history with_flight].
  destruct (appendLog_at j job banner now s Hj) as (job' & Hj' & _ & Hl & _).
  assert (logs job' = push_log (trim banner) (logs job)) as Hlogs.
  { rewrite Hl. unfold logged. destruct (trim banner); [congruence|reflexivity]. }
  exists job'.
  exists (announced job (progress job)
            (structured_progress (progress job) (trim banner))
          ++ announced job (structured_progress (progress job) (trim banner))
               (heuristic_progress
                  (structured_progress (progress job) (trim banner))
                  (trim banner))).
  split; [exact Hj'|]. split.
  { rewrite Hlogs, push_log_lastn. apply (last_lastn_snoc 499). }
  split.
  { rewrite (sink_appendLog j job banner now s Hj). unfold log_events.
    destruct (trim banner); [congruence|reflexivity]. }
  rewrite (appendLog_unfold j job banner now s Hj Ht), Hlogs.
  apply persisted_tryUpdateProgressFromLog, persisted_tryParseDebugProgress.
  unfold log_stored. cbv zeta.
  apply persisted_update_logs. reflexivity.
Qed.

Lemma sample_setup_done :
  exists job,
    flight (run Sample.start (take 3 Sample.trace))
    = Some (0%nat, AwaitEnvironment Sample.cfg)
    /\ queue (run Sample.start (take 3 Sample.trace)) !! 0%nat = Some job.
Proof. eexists. split; vm_compute; reflexivity. Qed.

Lemma the_command_line_is_logged_with_the_key_witness :
  exists job,
    queue (run Sample.start (take 3 Sample.trace)) !! 0%nat = Some job
    /\ (exists before after,
          trim (commandBanner (default (js "babeldoc") None)
                  (babeldocArgs Sample.cfg job
                     (translationsDir (run Sample.start (take 3 Sample.trace))
                        job)))
          = before ++ openaiApiKey Sample.cfg ++ after)
    /\ exists job' rest,
         queue (runJob_spawn None (js "T4")
                  (run Sample.start (take 3 Sample.trace))) !! 0%nat = Some job'
         /\ last (logs job')
            = Some (trim (commandBanner (default (js "babeldoc") None)
                            (babeldocArgs Sample.cfg job
                               (translationsDir
                                  (run Sample.start (take 3 Sample.trace)) job))))
         /\ sink (runJob_spawn None (js "T4")
                    (run Sample.start (take 3 Sample.trace)))
            = sink (run Sample.start (take 3 Sample.trace))
              ++ ProgressPayload (id job)
                   (trim (commandBanner (default (js "babeldoc") None)
                            (babeldocArgs Sample.cfg job
                               (translationsDir
                                  (run Sample.start (take 3 Sample.trace)) job))))
                 :: rest
         /\ persisted (id job) (logs job')
              (history (runJob_spawn None (js "T4")
                          (run Sample.start (take 3 Sample.trace)))).
Proof.
  destruct sample_setup_done as (job & Hf & Hj).
  exists job. split; [exact Hj|].
  exact (the_command_line_is_logged_with_the_key
           (run Sample.start (take 3 Sample.trace)) 0 Sample.cfg job None
           (js "T4") Hf Hj).
Defined.

(** ** From a completed run to the save handler *)

Lemma history_complete_job (j : nat) (job : TranslationQueueItem)
    (now : jsstring) (s : State) :
  queue s !! j = Some job ->
  exists l,
    history (complete_job j now s)
    = fst (updateHistoryRecord (id job)
             {| p_status := Some awaiting_user; p_progress := Some 100;
                p_logs := Some l;
                p_translatedPath := Some (translationsDir s job);
                p_errorMessage := None; p_savePath := None |} now
             (fst (updateHistoryRecord (id job)
                     {| p_status := Some awaiting_user; p_progress := Some 100;
                        p_logs := None; p_translatedPath := None;
                        p_errorMessage := None; p_savePath := None |} now
                     (history s)))).
Proof.
  intros Hj. unfold complete_job. rewrite Hj. cbv zeta.
  set (dir := translationsDir s job).
  set (f := fun job0 : TranslationQueueItem =>
              set_updatedAt now (set_error None (set_outputDir (Some dir)
                (set_progress 100 (set_status awaiting_user job0))))).
  assert (queue (mutate j f s) !! j = Some (f job)) as Hj1
    by (rewrite lookup_mutate_eq, Hj; reflexivity).
  pose proof (emitStatus_at (id job) awaiting_user (Some 100) now _ j _ Hj1) as Hj2.
  set (s2 := emitStatus (id job) awaiting_user (Some 100) now (mutate j f s)) in *.
  set (job2 := if bool_decide _ then _ else _) in Hj2.
  rewrite Hj2. exists (logs job2).
  assert (id job2 = id job) as ->
    by (unfold job2; destruct (bool_decide _); reflexivity).
  unfold emitCompleted, emit, persist; cbn [history with_history].
  unfold s2. rewrite history_emitStatus. reflexivity.
Qed.

Lemma find_updated (jid : jsstring) (data : Patch) (now : jsstring)
    (h : list TranslationRecord) :
  snd <$> list_find (fun record => r_id record = jid)
            (fst (updateHistoryRecord jid data now h))
  = (fun record => merge record data now)
      <$> (snd <$> list_find (fun record => r_id record = jid) h).
Proof. apply (updateHistoryRecord_result jid data now h). Qed.

(** X29. A run that went well can be saved: after the [close] handler has
    marked the job as completed, the guard of the save handler finds the
    history record of the job and takes the output directory of the job as
    the source of the files, provided the history still holds a record of the
    job; if it holds none, the save handler rejects the request. *)
Theorem a_completed_job_can_be_saved (s : State) (j : nat)
    (job : TranslationQueueItem) (now : jsstring) :
  queue s !! j = Some job ->
  (id job ∈ recorded s ->
     save_output_source (id job) (complete_job j now s)
     = Some (translationsDir s job))
  /\ (id job ∉ recorded s ->
        save_output_source (id job) (complete_job j now s) = None).
Proof.
  intros Hj. destruct (history_complete_job j job now s Hj) as [l Hh].
  unfold save_output_source. rewrite Hh, !find_updated.
  destruct (list_find _ (history s)) as [[i record]|] eqn:Hfind.
  - split; [|intros Hout; apply list_find_id in Hout; congruence].
    intros _. cbn. unfold translationsDir.
    destruct (userData s); reflexivity.
  - split; [|reflexivity].
    intros Hin. apply list_find_id in Hfind. contradiction.
Qed.

Lemma sample_first_job_recorded :
  exists job, queue Sample.two_jobs !! 0%nat = Some job
              /\ id job ∈ recorded Sample.two_jobs.
Proof.
  eexists. split; [vm_compute; reflexivity|].
  match goal with
  | |- ?P => apply (bool_decide_unpack P); vm_compute; exact I
  end.
Qed.

Lemma a_completed_job_can_be_saved_witness :
  exists job,
    queue Sample.two_jobs !! 0%nat = Some job
    /\ save_output_source (id job) (complete_job 0 (js "T5") Sample.two_jobs)
       = Some (translationsDir Sample.two_jobs job).
Proof.
  destruct sample_first_job_recorded as (job & Hjob & Hin).
  exists job. split; [exact Hjob|].
  exact (proj1 (a_completed_job_can_be_saved Sample.two_jobs 0 job (js "T5") Hjob)
           Hin).
Defined.

(** ** The stage table and the letter case *)

Lemma prefix_with_same_letter (p : jsstring) : forall s s' : jsstring,
  canonicalize <$> s = canonicalize <$> s' ->
  (prefix_with same_letter p s = None <-> prefix_with same_letter p s' = None).
Proof.
  induction p as [|a p IH]; intros s s' Heq; [cbn; split; discriminate|].
  destruct s as [|b s], s' as [|b' s']; try discriminate Heq; [tauto|].
  cbn in Heq. injection Heq as Hb Hrest.
  cbn. unfold same_letter. rewrite Hb.
  destruct (canonicalize a =? canonicalize b')%N; [apply IH, Hrest | tauto].
Qed.

Lemma test_ci_same_letter (p : jsstring) : forall s s' : jsstring,
  canonicalize <$> s = canonicalize <$> s' -> test_ci p s = test_ci p s'.
Proof.
  intros s. induction s as [|b s IH]; intros s' Heq.
  - destruct s'; [reflexivity | discriminate Heq].
  - destruct s' as [|b' s']; [discriminate Heq|].
    pose proof (prefix_with_same_letter p (b :: s) (b' :: s') Heq) as Hsame.
    cbn in Heq. injection Heq as _ Hrest.
    cbn [test_ci].
    destruct (prefix_with same_letter p (b :: s)),
             (prefix_with same_letter p (b' :: s'));
      try reflexivity; try (exfalso; destruct Hsame; intuition discriminate).
    apply IH, Hrest.
Qed.

(** X30. The stage table ignores the letter case: two lines that differ
    only in the case of ASCII letters match the same stage, so they move the
    progress of a job to the same value. *)
Theorem stage_table_ignores_letter_case (line line' : jsstring) (cur : Z)
    (s : State) (j : nat) (job : TranslationQueueItem) (now : jsstring) :
  canonicalize <$> line = canonicalize <$> line' ->
  queue s !! j = Some job ->
  matching_stage line = matching_stage line'
  /\ heuristic_progress cur line = heuristic_progress cur line'
  /\ exists job1 job2,
       queue (tryUpdateProgressFromLog j line now s) !! j = Some job1
       /\ queue (tryUpdateProgressFromLog j line' now s) !! j = Some job2
       /\ progress job1 = progress job2.
Proof.
  intros Heq Hj.
  assert (matching_stage line = matching_stage line') as Hstage.
  { unfold matching_stage.
    induction progressStages as [|stage stages IH]; [reflexivity|].
    cbn [List.find]. rewrite (test_ci_same_letter (fst stage) line line' Heq).
    destruct (test_ci (fst stage) line'); [reflexivity | exact IH]. }
  assert (forall c, heuristic_progress c line = heuristic_progress c line')
    as Hprogress by (intros c; unfold heuristic_progress; rewrite Hstage; reflexivity).
  split; [exact Hstage|]. split; [apply Hprogress|].
  destruct (tryUpdateProgressFromLog_at j job line now s Hj)
    as (job1 & Hj1 & _ & _ & Hp1).
  destruct (tryUpdateProgressFromLog_at j job line' now s Hj)
    as (job2 & Hj2 & _ & _ & Hp2).
  exists job1, job2. split; [exact Hj1|]. split; [exact Hj2|].
  rewrite Hp1, Hp2. apply Hprogress.
Qed.

Lemma stage_table_ignores_letter_case_witness :
  exists job,
    queue Sample.two_jobs !! 0%nat = Some job
    /\ matching_stage (js "TYPESETTING page 3") = matching_stage (js "typesetting page 3")
    /\ heuristic_progress 10 (js "TYPESETTING page 3")
       = heuristic_progress 10 (js "typesetting page 3")
    /\ exists job1 job2,
         queue (tryUpdateProgressFromLog 0 (js "TYPESETTING page 3") (js "T5")
                  Sample.two_jobs) !! 0%nat = Some job1
         /\ queue (tryUpdateProgressFromLog 0 (js "typesetting page 3") (js "T5")
                     Sample.two_jobs) !! 0%nat = Some job2
         /\ progress job1 = progress job2.
Proof.
  destruct sample_first_job as (job & Hjob & _).
  exists job. split; [exact Hjob|].
  exact (stage_table_ignores_letter_case (js "TYPESETTING page 3")
           (js "typesetting page 3") 10 Sample.two_jobs 0 job (js "T5")
           eq_refl Hjob).
Defined.

(** ** The order of the runs *)

Lemma stops_same (s s' : State) : queue s' = queue s -> stops s s'.
Proof.
  intros Hq k job Hk. exists job. rewrite Hq. split; [exact Hk | left; reflexivity].
Qed.

Lemma stops_not_started (s s' : State) (k : nat) :
  stops s s' -> ~ started_between s s' k.
Proof.
  intros Hstops (job & job' & Hk & Hq & Hk' & Hr).
  destruct (Hstops k job Hk) as (job'' & Hk'' & Hst).
  rewrite Hk' in Hk''. injection Hk'' as <-.
  destruct Hst as [Hst|[_ Hst]]; congruence.
Qed.

Lemma stops_appendLog (j : nat) (message now : jsstring) (s : State) :
  NoDup (ids s) -> stops s (appendLog j message now s).
Proof.
  intros Hnd k job Hk. destruct (decide (k = j)) as [->|Hne].
  - destruct (appendLog_at j job message now s Hk) as (job' & Hj' & Hcore & _).
    exists job'. split; [exact Hj'|]. left.
    apply core_fields in Hcore as (_ & Hst & _). exact Hst.
  - exists job. split; [|left; reflexivity].
    rewrite (others_kept_appendLog j message now s Hnd k Hne). exact Hk.
Qed.

Lemma stops_fail_job (j : nat) (errorMessage now : jsstring) (s : State) :
  NoDup (ids s) -> stops s (fail_job j errorMessage now s).
Proof.
  intros Hnd k job Hk. destruct (decide (k = j)) as [->|Hne].
  - destruct (fail_job_core j job errorMessage now s Hk)
      as (job' & Hj' & Hcore & _).
    exists job'. split; [exact Hj'|]. right.
    apply core_fields in Hcore as (_ & Hst & _). cbn in Hst.
    rewrite Hst. split; discriminate.
  - exists job. split; [|left; reflexivity].
    rewrite (fail_job_others j errorMessage now s Hnd k Hne). exact Hk.
Qed.

Lemma stops_complete_job (j : nat) (now : jsstring) (s : State) :
  NoDup (ids s) -> stops s (complete_job j now s).
Proof.
  intros Hnd k job Hk. destruct (decide (k = j)) as [->|Hne].
  - destruct (complete_job_core j job now s Hk) as (job' & Hj' & Hcore & _).
    exists job'. split; [exact Hj'|]. right.
    apply core_fields in Hcore as (_ & Hst & _). cbn in Hst.
    rewrite Hst. split; discriminate.
  - exists job. split; [|left; reflexivity].
    rewrite (complete_job_others j now s Hnd k Hne). exact Hk.
Qed.

Lemma stops_markJobSaved (jobId savePath_ now : jsstring) (s : State) :
  stops s (fst (markJobSaved jobId savePath_ now s)).
Proof.
  intros k job Hk. rewrite queue_markJobSaved.
  destruct (find_job jobId s) as [i|];
    [|exists job; split; [exact Hk | left; reflexivity]].
  destruct (decide (k = i)) as [->|Hne].
  - rewrite list_lookup_alter_eq, Hk. cbn [fmap option_fmap option_map].
    eexists. split; [reflexivity|]. right. split; discriminate.
  - rewrite list_lookup_alter_ne by congruence.
    exists job. split; [exact Hk | left; reflexivity].
Qed.

(** The job that [processNext] starts is the first in line. *)
Lemma processNext_first (now : jsstring) (s : State) (k : nat) :
  NoDup (ids s) -> started_between s (processNext now s) k -> first_in_line s k.
Proof.
  intros Hnd (job & job' & Hk & Hq & Hk' & Hr). unfold processNext in Hk'.
  destruct (processing s).
  { rewrite Hk in Hk'. injection Hk' as <-. congruence. }
  destruct (list_find _ _) as [[i next]|] eqn:Hfind.
  - apply list_find_Some in Hfind as (Hi & _ & Hfirst).
    rewrite (queue_runJob_begin i next now (with_processing true s) Hnd Hi) in Hk'.
    cbn [queue with_processing] in Hk'.
    destruct (decide (i = k)) as [->|Hne].
    + intros i job_i Hlt Hjob. exact (Hfirst i job_i Hjob Hlt).
    + rewrite list_lookup_alter_ne, Hk in Hk' by exact Hne.
      injection Hk' as <-. congruence.
  - cbn [queue with_processing] in Hk'. rewrite Hk in Hk'.
    injection Hk' as <-. congruence.
Qed.

Lemma runJob_settled_first (now : jsstring) (s : State) (k : nat) :
  NoDup (ids s) -> started_between s (runJob_settled now s) k ->
  first_in_line s k.
Proof.
  intros Hnd Hstarted. unfold runJob_settled in Hstarted.
  exact (processNext_first now (with_processing false (with_flight None s)) k
           Hnd Hstarted).
Qed.

(** The handler of a child that ends, followed by the dispatch: the job
    started is the first in line, because the job of the child was not
    waiting. *)
Lemma end_then_settle_first (j : nat) (now : jsstring) (s s1 : State)
    (k : nat) :
  NoDup (ids s) -> awaited_is_started s ->
  quiet s s1 -> stops s s1 -> others_kept j s s1 ->
  started_between s (settle j now s1) k -> first_in_line s k.
Proof.
  intros Hnd Hawaited Hquiet Hstops Hothers Hstarted.
  assert (NoDup (ids s1)) as Hnd1 by (rewrite (q_ids _ _ Hquiet); exact Hnd).
  unfold settle in Hstarted.
  destruct (flight s1) as [[j' [| |]]|] eqn:Hf;
    try (destruct (stops_not_started s s1 k Hstops Hstarted)).
  case_bool_decide as Hj;
    [subst j'|destruct (stops_not_started s s1 k Hstops Hstarted)].
  destruct Hstarted as (job & job' & Hk & Hq & Hk' & Hr).
  rewrite (q_flight _ _ Hquiet) in Hf.
  destruct (Hawaited j ChildAlive Hf) as (job_j & Hjob_j & Hstarted_j).
  assert (k <> j) as Hkj by (intros ->; congruence).
  assert (first_in_line s1 k) as Hfirst.
  { apply (runJob_settled_first now s1 k Hnd1).
    exists job, job'. rewrite (Hothers k Hkj). repeat split; assumption. }
  intros i job_i Hlt Hi.
  destruct (decide (i = j)) as [->|Hij]; [congruence|].
  apply (Hfirst i job_i Hlt). rewrite (Hothers i Hij). exact Hi.
Qed.

Lemma step_first (s : State) (te : jsstring * Event) (k : nat) :
  NoDup (ids s) -> fresh_uuid s (snd te) -> awaited_is_started s ->
  started_between s (step s te) k -> first_in_line s k.
Proof.
  intros Hnd Hfresh Hawaited Hstarted.
  destruct te as [now e]. unfold step in Hstarted; cbn [fst snd] in *.
  destruct e as [jobInput uuid|jobId savePath_|insight|babeldocPath|
                 |j chunk|j chunk|j code|j message].
  - (* enqueue: the new job is behind every other job *)
    destruct Hstarted as (job & job' & Hk & Hq & Hk' & Hr).
    set (item := new_item jobInput uuid now) in *.
    set (s1 := with_queue (queue s ++ [item]) s).
    change (fst (enqueue jobInput uuid now s))
      with (processNext now (emitStatus uuid queued (Some 0) now s1)) in Hk'.
    assert (NoDup (ids s1)) as Hnd1.
    { unfold ids, s1; cbn [queue with_queue]. rewrite fmap_app.
      apply NoDup_app. split; [exact Hnd|]. split; [|apply NoDup_singleton].
      intros x Hx Hin. apply list_elem_of_singleton in Hin. subst x.
      exact (Hfresh Hx). }
    assert (queue s1 !! length (queue s) = Some item) as Hn
      by (unfold s1; cbn [queue with_queue]; apply list_lookup_middle;
          reflexivity).
    pose proof (emitStatus_own s1 (length (queue s)) item queued (Some 0) now
                  Hnd1 Hn) as Hq2.
    change (id item) with uuid in Hq2.
    set (s2 := emitStatus uuid queued (Some 0) now s1) in *.
    assert (NoDup (ids s2)) as Hnd2
      by (unfold s2; rewrite ids_emitStatus; exact Hnd1).
    assert (forall i job_i, queue s !! i = Some job_i ->
                            queue s2 !! i = Some job_i) as Hold.
    { intros i job_i Hi. pose proof (lookup_lt_Some _ _ _ Hi) as Hlt.
      rewrite Hq2, list_lookup_alter_ne by lia.
      unfold s1; cbn [queue with_queue]. rewrite lookup_app_l by exact Hlt.
      exact Hi. }
    assert (first_in_line s2 k) as Hfirst.
    { apply (processNext_first now s2 k Hnd2).
      exists job, job'. split; [exact (Hold k job Hk)|]. repeat split; assumption. }
    intros i job_i Hlt Hi. exact (Hfirst i job_i Hlt (Hold i job_i Hi)).
  - destruct (stops_not_started _ _ k
                (stops_markJobSaved jobId savePath_ now s) Hstarted).
  - exfalso. revert Hstarted. apply stops_not_started, stops_same.
    unfold runJob_insight.
    destruct (flight s) as [[j [| |]]|]; try reflexivity.
    destruct (queue s !! j); reflexivity.
  - exfalso. revert Hstarted. apply stops_not_started.
    unfold runJob_spawn.
    destruct (flight s) as [[j [|read|]]|]; try (apply stops_same; reflexivity).
    destruct (queue s !! j) as [job_j|]; [|apply stops_same; reflexivity].
    intros i job_i Hi. cbn [queue with_flight].
    exact (stops_appendLog j _ now s Hnd i job_i Hi).
  - unfold runJob_rejected in Hstarted.
    destruct (flight s) as [[j [| |]]|];
      try (destruct (stops_not_started s s k (stops_same s s eq_refl) Hstarted));
      exact (runJob_settled_first now s k Hnd Hstarted).
  - destruct (stops_not_started _ _ k
                (stops_appendLog j (trim chunk) now s Hnd) Hstarted).
  - destruct (stops_not_started _ _ k
                (stops_appendLog j (trim chunk) now s Hnd) Hstarted).
  - unfold onClose in Hstarted.
    destruct (queue s !! j) as [job_j|] eqn:Hj;
      [|destruct (stops_not_started s s k (stops_same s s eq_refl) Hstarted)].
    case_bool_decide.
    + apply (end_then_settle_first j now s (complete_job j now s) k Hnd Hawaited);
        [apply complete_job_quiet | apply stops_complete_job, Hnd
        |apply complete_job_others, Hnd | exact Hstarted].
    + apply (end_then_settle_first j now s
               (fail_job j (exitMessage code) now s) k Hnd Hawaited);
        [apply fail_job_quiet | apply stops_fail_job, Hnd
        |apply fail_job_others, Hnd | exact Hstarted].
  - unfold onError in Hstarted.
    destruct (queue s !! j) as [job_j|] eqn:Hj;
      [|destruct (stops_not_started s s k (stops_same s s eq_refl) Hstarted)].
    apply (end_then_settle_first j now s (fail_job j message now s) k Hnd Hawaited);
      [apply fail_job_quiet | apply stops_fail_job, Hnd
      |apply fail_job_others, Hnd | exact Hstarted].
Qed.

(** The run awaited after [processNext] is the run of a started job. *)
Lemma awaited_processNext (now : jsstring) (s : State) :
  NoDup (ids s) -> awaited_is_started s ->
  awaited_is_started (processNext now s).
Proof.
  intros Hnd H. unfold processNext. destruct (processing s); [exact H|].
  destruct (list_find _ _) as [[i next]|] eqn:Hfind; [|exact H].
  apply list_find_Some in Hfind as (Hi & _ & _).
  destruct (runJob_begin_spec i next now (with_processing true s) Hnd Hi)
    as (_ & [stage Hflight] & _ & _ & _ & next' & Hnext' & _ & Hrun & _).
  intros j stage' Hf. rewrite Hflight in Hf. injection Hf as <- <-.
  exists next'. split; [exact Hnext' | congruence].
Qed.

Lemma awaited_runJob_settled (now : jsstring) (s : State) :
  NoDup (ids s) -> awaited_is_started (runJob_settled now s).
Proof.
  intros Hnd. unfold runJob_settled.
  apply (awaited_processNext now (with_processing false (with_flight None s)) Hnd).
  intros j stage Hf. discriminate Hf.
Qed.

Lemma awaited_stops (s s' : State) :
  flight s' = flight s -> stops s s' ->
  awaited_is_started s -> awaited_is_started s'.
Proof.
  intros Hflight Hstops H j stage Hf. rewrite Hflight in Hf.
  destruct (H j stage Hf) as (job & Hj & Hstarted).
  destruct (Hstops j job Hj) as (job' & Hj' & Hst).
  exists job'. split; [exact Hj'|].
  destruct Hst as [Hst|[Hst _]]; congruence.
Qed.

Lemma awaited_settle (j : nat) (now : jsstring) (s : State) :
  NoDup (ids s) -> awaited_is_started s -> awaited_is_started (settle j now s).
Proof.
  intros Hnd H. unfold settle.
  destruct (flight s) as [[k [| |]]|]; try exact H.
  case_bool_decide; [|exact H]. apply awaited_runJob_settled, Hnd.
Qed.

Lemma awaited_step (s : State) (te : jsstring * Event) :
  NoDup (ids s) -> fresh_uuid s (snd te) -> awaited_is_started s ->
  awaited_is_started (step s te).
Proof.
  intros Hnd Hfresh H. destruct te as [now e]. unfold step; cbn [fst snd] in *.
  destruct e as [jobInput uuid|jobId savePath_|insight|babeldocPath|
                 |j chunk|j chunk|j code|j message].
  - set (item := new_item jobInput uuid now).
    set (s1 := with_queue (queue s ++ [item]) s).
    change (fst (enqueue jobInput uuid now s))
      with (processNext now (emitStatus uuid queued (Some 0) now s1)).
    assert (NoDup (ids s1)) as Hnd1.
    { unfold ids, s1; cbn [queue with_queue]. rewrite fmap_app.
      apply NoDup_app. split; [exact Hnd|]. split; [|apply NoDup_singleton].
      intros x Hx Hin. apply list_elem_of_singleton in Hin. subst x.
      exact (Hfresh Hx). }
    assert (queue s1 !! length (queue s) = Some item) as Hn
      by (unfold s1; cbn [queue with_queue]; apply list_lookup_middle;
          reflexivity).
    pose proof (emitStatus_own s1 (length (queue s)) item queued (Some 0) now
                  Hnd1 Hn) as Hq2.
    change (id item) with uuid in Hq2.
    apply awaited_processNext; [rewrite ids_emitStatus; exact Hnd1|].
    intros j stage Hf.
    rewrite (q_flight _ _ (quiet_emitStatus uuid queued (Some 0) now s1)) in Hf.
    change (flight s1) with (flight s) in Hf.
    destruct (H j stage Hf) as (job & Hj & Hstarted).
    exists job. split; [|exact Hstarted].
    pose proof (lookup_lt_Some _ _ _ Hj) as Hlt.
    rewrite Hq2, list_lookup_alter_ne by lia.
    unfold s1; cbn [queue with_queue]. rewrite lookup_app_l by exact Hlt.
    exact Hj.
  - apply (awaited_stops s);
      [apply markJobSaved_frame | apply stops_markJobSaved | exact H].
  - unfold runJob_insight.
    destruct (flight s) as [[j [| |]]|] eqn:Hf; try exact H.
    destruct (queue s !! j) as [job|] eqn:Hj; [|exact H].
    intros j' stage' Hf'. cbn [flight with_flight with_history] in Hf'.
    injection Hf' as <- <-. cbn [queue with_flight with_history].
    destruct (H j AwaitInsight Hf) as (job' & Hj' & Hstarted).
    exists job'. split; assumption.
  - unfold runJob_spawn.
    destruct (flight s) as [[j [|read|]]|] eqn:Hf; try exact H.
    destruct (queue s !! j) as [job|] eqn:Hj; [|exact H].
    intros j' stage' Hf'. cbn [flight with_flight] in Hf'.
    injection Hf' as <- <-. cbn [queue with_flight].
    destruct (stops_appendLog j
                (commandBanner (default (js "babeldoc") babeldocPath)
                   (babeldocArgs read job (translationsDir s job)))
                now s Hnd j job Hj) as (job' & Hj' & Hst).
    exists job'. split; [exact Hj'|].
    destruct (H j (AwaitEnvironment read) Hf) as (job0 & Hj0 & Hstarted).
    rewrite Hj in Hj0. injection Hj0 as <-.
    destruct Hst as [Hst|[Hst _]]; congruence.
  - unfold runJob_rejected.
    destruct (flight s) as [[j [| |]]|]; try exact H;
      apply awaited_runJob_settled, Hnd.
  - apply (awaited_stops s);
      [apply (q_flight _ _ (quiet_appendLog j (trim chunk) now s))
      |apply stops_appendLog, Hnd | exact H].
  - apply (awaited_stops s);
      [apply (q_flight _ _ (quiet_appendLog j (trim chunk) now s))
      |apply stops_appendLog, Hnd | exact H].
  - unfold onClose. destruct (queue s !! j); [|exact H].
    case_bool_decide; apply awaited_settle.
    + rewrite (q_ids _ _ (complete_job_quiet j now s)). exact Hnd.
    + apply (awaited_stops s);
        [apply (q_flight _ _ (complete_job_quiet j now s))
        |apply stops_complete_job, Hnd | exact H].
    + rewrite (q_ids _ _ (fail_job_quiet j (exitMessage code) now s)). exact Hnd.
    + apply (awaited_stops s);
        [apply (q_flight _ _ (fail_job_quiet j (exitMessage code) now s))
        |apply stops_fail_job, Hnd | exact H].
  - unfold onError. destruct (queue s !! j); [|exact H].
    apply awaited_settle.
    + rewrite (q_ids _ _ (fail_job_quiet j message now s)). exact Hnd.
    + apply (awaited_stops s);
        [apply (q_flight _ _ (fail_job_quiet j message now s))
        |apply stops_fail_job, Hnd | exact H].
Qed.

Lemma run_awaited (s : State) (trace rest : list (jsstring * Event)) :
  NoDup (ids s) -> awaited_is_started s -> fresh_uuids s (trace ++ rest) ->
  NoDup (ids (run s trace)) /\ awaited_is_started (run s trace)
  /\ fresh_uuids (run s trace) rest.
Proof.
  revert s. induction trace as [|te trace IH]; intros s Hnd H Hfresh.
  { repeat split; assumption. }
  destruct Hfresh as [Hte Hrest].
  change (run s (te :: trace)) with (run (step s te) trace).
  apply IH; [apply NoDup_step; assumption | apply awaited_step; assumption
            |exact Hrest].
Qed.

(** X8. Jobs are started in the order in which they were enqueued: when an
    event takes job [k] from [queued] to [running], no job before it in the
    queue is [queued]. This holds in every state that a manager reaches from
    its construction, whatever the events. *)
Theorem jobs_start_in_queue_order (s0 : State)
    (trace : list (jsstring * Event)) (te : jsstring * Event) (k : nat) :
  NoDup (ids s0) -> awaited_is_started s0 -> fresh_uuids s0 (trace ++ [te]) ->
  started_between (run s0 trace) (step (run s0 trace) te) k ->
  first_in_line (run s0 trace) k.
Proof.
  intros Hnd H Hfresh Hstarted.
  destruct (run_awaited s0 trace [te] Hnd H Hfresh) as (Hnd' & H' & Hte & _).
  exact (step_first (run s0 trace) te k Hnd' Hte H' Hstarted).
Qed.

Lemma morning_fresh :
  fresh_uuids Sample.start (morning ++ [(Sample.t 6, Close 0 (Some 1))]).
Proof.
  unfold morning, Sample.trace. cbn [app fresh_uuids fresh_uuid snd].
  repeat match goal with
         | |- True => exact I
         | |- _ /\ _ => split
         | |- ?P => apply (bool_decide_unpack P); vm_compute; exact I
         end.
Qed.

Lemma morning_ends_with_a_start :
  started_between (run Sample.start morning)
    (step (run Sample.start morning) (Sample.t 6, Close 0 (Some 1))) 1.
Proof. eexists. eexists. repeat apply conj; vm_compute; reflexivity. Qed.

Lemma jobs_start_in_queue_order_witness :
  first_in_line (run Sample.start morning) 1.
Proof.
  apply (jobs_start_in_queue_order Sample.start morning
           (Sample.t 6, Close 0 (Some 1)) 1).
  - apply NoDup_nil_2.
  - intros j stage Hf. discriminate Hf.
  - exact morning_fresh.
  - exact morning_ends_with_a_start.
Defined.
